(** * textacy.vsm: vocabulary, term counting, frequency filters, weighting

    A shallow embedding of [textacy/vsm.py] (class [Vectorizer] and the
    module-level frequency functions) together with the properties of the
    vectorizer pipeline that are stated about it.

    Conventions of the embedding:
    - a Python [dict] from terms to ids is a [gmap string Z]; dict equality
      is map equality;
    - a method is a function of the instance and its arguments returning the
      instance after the call together with either a value or the exception
      that was raised;
    - the sparse matrix kernel (scipy CSR) is seen through its rows: a row is
      the list of its stored [(column, value)] entries; [data] and [indices]
      are the concatenation of the rows, [indptr] the running row lengths;
    - integers are unbounded ([array('i')] and [int32] buffers are taken to be
      wide enough for the inputs at hand);
    - [float64] values produced by the weighting engine are idealised as real
      numbers; a float configuration value is given by its exact value, a
      rational, and the product [max_df * n_docs] that is turned into a
      count is rounded as binary64 arithmetic rounds it. *)

From Stdlib Require Import ZArith QArith Qround Qreals Reals Lra Lia.
From Stdlib Require Import Strings.String Structures.OrderedTypeEx.
From stdpp Require Import gmap strings list fin_maps sorting.

#[local] Set Warnings "-clear-no-such-hyp".

Open Scope Z_scope.

(** ** Exceptions and results *)

(** Every [raise ValueError(...)] of the module, by what it reports. *)
Inductive value_error : Set :=
| InvalidConfiguration   (* __init__: bad numeric argument *)
| InvalidVocabulary      (* _validate_vocabulary *)
| VocabularyNotFit       (* _check_vocabulary: vocabulary hasn't been built *)
| EmptyVocabulary        (* _check_vocabulary: vocabulary is empty *)
| InvalidFilterBounds    (* filter_terms_by_df / filter_terms_by_ic: bad bounds *)
| NoTermsRemain          (* After filtering, no terms remain *)
| NoNonZeroEntry         (* matrix must have at least 1 non-zero entry *)
| NegativeBincount       (* numpy.bincount on a negative element *)
| DimensionMismatch      (* numpy / scipy operands of different lengths *)
| EmptyArray.            (* sklearn check_array: 0 sample(s) or 0 feature(s) *)

Inductive exn : Set :=
| ValueError (e : value_error)
| AttributeError
| TypeError
| IndexError.

Inductive result (A : Type) : Type :=
| Ok (a : A)
| Raise (e : exn).
Arguments Ok {A} a.
Arguments Raise {A} e.

Instance result_ret : MRet result := fun _ a => Ok a.
Instance result_bind : MBind result := fun _ _ f m =>
  match m with Ok a => f a | Raise e => Raise e end.

Definition is_ok {A} (r : result A) : bool :=
  match r with Ok _ => true | Raise _ => false end.

(** ** Vocabulary *)

(** [vocabulary.setdefault(term, i)]: the value now stored and the dict. *)
Definition setdefault (vocab : gmap string Z) (term : string) (i : Z)
  : Z * gmap string Z :=
  match vocab !! term with
  | Some j => (j, vocab)
  | None => (i, <[term := i]> vocab)
  end.

(** Python compares [str] by code point, which on UTF-8 bytes is the
    lexicographic order of [String.compare]. *)
Definition str_le (s1 s2 : string) : Prop := String.leb s1 s2 = true.

Instance str_le_dec : RelDecision str_le.
Proof. intros s1 s2. unfold str_le. apply _. Defined.

(** [sorted(vocabulary)] *)
Definition sorted (terms : list string) : list string := merge_sort str_le terms.

(** The loop [for i, term in enumerate(sorted(vocabulary))], started at [i]. *)
Fixpoint enumerate_setdefault (i : Z) (terms : list string)
  (vocab : gmap string Z) : result (gmap string Z) :=
  match terms with
  | [] => Ok vocab
  | term :: rest =>
      let '(j, vocab') := setdefault vocab term i in
      if bool_decide (j ≠ i) then Raise (ValueError InvalidVocabulary)
      else enumerate_setdefault (i + 1) rest vocab'
  end.

Inductive vocabulary_input : Type :=
| VocabMapping (m : gmap string Z)
| VocabIterable (terms : list string).

(** [set(vocabulary.values())] *)
Definition values_set (m : gmap string Z) : gset Z :=
  list_to_set (map snd (map_to_list m)).

Definition _validate_vocabulary (vocabulary : option vocabulary_input)
  : result (option (gmap string Z) * bool) :=
  match vocabulary with
  | Some input =>
      vocabulary ←
        match input with
        | VocabIterable terms => enumerate_setdefault 0 (sorted terms) ∅
        | VocabMapping m =>
            let ids := values_set m in
            if bool_decide (size ids ≠ size m)
            then Raise (ValueError InvalidVocabulary)
            else if forallb (fun i => bool_decide (Z.of_nat i ∈ ids))
                            (seq 0 (size m))
            then Ok m
            else Raise (ValueError InvalidVocabulary)
        end;
      if bool_decide (size vocabulary = 0%nat)
      then Raise (ValueError InvalidVocabulary)
      else Ok (Some vocabulary, true)
  | None => Ok (None, false)
  end.


(** ** Configuration values *)

(** A number given as [min_df], [max_df]: a Python [int] or a finite
    [float], the latter by its exact value. *)
Inductive number : Type :=
| PyInt (z : Z)
| PyFloat (q : Q).

Definition number_value (x : number) : Q :=
  match x with PyInt z => inject_Z z | PyFloat q => q end.

Definition Qlt_bool (a b : Q) : bool := negb (Qle_bool b a).

(** [x < 0], [x == 1] (the same test as [x == 1.0]) on a number. *)
Definition number_neg (x : number) : bool := Qlt_bool (number_value x) 0.
Definition number_is_one (x : number) : bool := Qeq_bool (number_value x) 1.

(** [int(x)] on a float: truncation toward zero. *)
Definition int_of_float (q : Q) : Z := Z.quot (Qnum q) (Z.pos (Qden q)).

(** *** Binary64 rounding *)

(** [x * 2^k] *)
Definition Qshift (x : Q) (k : Z) : Q :=
  if 0 <=? k then (x * inject_Z (2 ^ k))%Q else (x / inject_Z (2 ^ (- k)))%Q.

(** The [e] with [2^e <= n/d < 2^(e+1)]. *)
Definition binade (n d : positive) : Z :=
  let e := Z.log2 (Z.pos n) - Z.log2 (Z.pos d) in
  if Qlt_bool (Z.pos n # d) (Qshift 1 e) then e - 1 else e.

(** Rounding to the nearest integer, a tie to the even one. *)
Definition round_half_even (x : Q) : Z :=
  let f := Qfloor x in
  match (x - inject_Z f ?= 1 # 2)%Q with
  | Lt => f
  | Gt => f + 1
  | Eq => if Z.even f then f else f + 1
  end.

(** The binary64 number nearest to [n/d], a tie going to the even
    significand: a multiple of [2^(e-52)] for [n/d] in the binade [e] (53
    significant bits), of [2^-1074] below the normal range. *)
Definition float64_round_pos (n d : positive) : Q :=
  let s := Z.max (binade n d - 52) (-1074) in
  Qshift (inject_Z (round_half_even (Qshift (Z.pos n # d) (- s)))) s.

(** The float that a real result [x] is rounded to; also the float of a
    decimal literal ([0.6] is [float64_round (6 # 10)]). The exponent has no
    upper bound here: results of [2^1024] and more, which are [inf] in
    Python, are not told apart from finite ones. *)
Definition float64_round (x : Q) : Q :=
  let x := Qred x in
  match Qnum x with
  | Z0 => 0%Q
  | Zpos n => float64_round_pos n (Qden x)
  | Zneg n => (- float64_round_pos n (Qden x))%Q
  end.

(** [x * n] for a float [x] and an int [n]: the int is converted to a
    float and the product of the two floats is rounded. *)
Definition float64_mul_int (x : Q) (n : Z) : Q :=
  float64_round (x * float64_round (inject_Z n)).

(** [x if isinstance(x, int) else int(x * n_docs)] *)
Definition doc_count (x : number) (n_docs : nat) : Z :=
  match x with
  | PyInt z => z
  | PyFloat q => int_of_float (float64_mul_int q (Z.of_nat n_docs))
  end.

(** ** The vectorizer instance *)

Record Vectorizer : Type := mkVectorizer {
  weighting : string;
  normalize : bool;
  sublinear_tf : bool;
  smooth_idf : bool;
  min_df : number;
  max_df : number;
  min_ic : Q;
  max_n_terms : option Z;
  vocabulary_terms : option (gmap string Z);
  _fixed_terms : bool;
  id_to_term_ : gmap Z string
}.

Definition set_vocabulary_terms (self : Vectorizer)
  (v : option (gmap string Z)) : Vectorizer :=
  mkVectorizer (weighting self) (normalize self) (sublinear_tf self)
    (smooth_idf self) (min_df self) (max_df self) (min_ic self)
    (max_n_terms self) v (_fixed_terms self) (id_to_term_ self).

Definition set_id_to_term_ (self : Vectorizer) (c : gmap Z string) : Vectorizer :=
  mkVectorizer (weighting self) (normalize self) (sublinear_tf self)
    (smooth_idf self) (min_df self) (max_df self) (min_ic self)
    (max_n_terms self) (vocabulary_terms self) (_fixed_terms self) c.

(** [Vectorizer.__init__] *)
Definition __init__ (weighting : string) (normalize sublinear_tf smooth_idf : bool)
  (min_df max_df : number) (min_ic : Q) (max_n_terms : option Z)
  (vocabulary_terms : option vocabulary_input) : result Vectorizer :=
  if number_neg min_df || number_neg max_df
  then Raise (ValueError InvalidConfiguration)
  else if Qlt_bool min_ic 0 || Qlt_bool 1 min_ic
  then Raise (ValueError InvalidConfiguration)
  else if match max_n_terms with
          | Some n => negb (n =? 0) && (n <? 0)
          | None => false
          end
  then Raise (ValueError InvalidConfiguration)
  else
    '(vocabulary, is_fixed) ← _validate_vocabulary vocabulary_terms;
    Ok (mkVectorizer weighting normalize sublinear_tf smooth_idf
          min_df max_df min_ic max_n_terms vocabulary is_fixed ∅).

(** [Vectorizer._check_vocabulary] *)
Definition _check_vocabulary (self : Vectorizer) : result unit :=
  match vocabulary_terms self with
  | None => Raise (ValueError VocabularyNotFit)
  | Some v =>
      if bool_decide (size v = 0%nat) then Raise (ValueError EmptyVocabulary)
      else Ok tt
  end.

(** The objects compared in [id_to_term], and Python's [==] on them: objects
    of unrelated types are never equal. *)
Inductive pyobj : Type :=
| ObjNone
| ObjInt (z : Z)
| ObjDict (d : gmap string Z).

Definition py_eq (a b : pyobj) : bool :=
  match a, b with
  | ObjNone, ObjNone => true
  | ObjInt x, ObjInt y => x =? y
  | ObjDict d1, ObjDict d2 => bool_decide (d1 = d2)
  | _, _ => false
  end.

Definition py_ne (a b : pyobj) : bool := negb (py_eq a b).

Definition obj_of_vocabulary (v : option (gmap string Z)) : pyobj :=
  match v with None => ObjNone | Some d => ObjDict d end.

(** [{term_id: term_str for term_str, term_id in vocabulary.items()}] *)
Definition invert_vocabulary (v : gmap string Z) : gmap Z string :=
  foldl (fun acc '(term_str, term_id) => <[term_id := term_str]> acc) ∅
        (map_to_list v).

(** The property [Vectorizer.id_to_term]. *)
Definition id_to_term (self : Vectorizer) : Vectorizer * result (gmap Z string) :=
  if py_ne (ObjInt (Z.of_nat (size (id_to_term_ self))))
           (obj_of_vocabulary (vocabulary_terms self))
  then
    match vocabulary_terms self with
    | None => (self, Raise AttributeError)
    | Some v =>
        let self := set_id_to_term_ self (invert_vocabulary v) in
        (self, Ok (id_to_term_ self))
    end
  else (self, Ok (id_to_term_ self)).

(** ** The sparse matrix kernel *)

(** A CSR matrix, row by row; its shape is [(length mrows, n_cols)]. *)
Record csr_matrix (A : Type) : Type := CSR {
  mrows : list (list (Z * A));
  n_cols : nat
}.
Arguments CSR {A} mrows n_cols.
Arguments mrows {A} _.
Arguments n_cols {A} _.

Definition n_rows {A} (m : csr_matrix A) : nat := length (mrows m).
Definition indices {A} (m : csr_matrix A) : list Z := (concat (mrows m)).*1.
Definition data {A} (m : csr_matrix A) : list A := (concat (mrows m)).*2.
Definition nnz {A} (m : csr_matrix A) : nat := length (concat (mrows m)).

(** [l[a:b]] *)
Definition slice {A} (l : list A) (a b : nat) : list A := take (b - a) (drop a l).

(** [sp.csr_matrix((data, indices, indptr), shape=shape)] *)
Definition csr_of_arrays {A} (data : list A) (indices : list Z)
  (indptr : list nat) (shape : nat * nat) : csr_matrix A :=
  CSR (map (fun i =>
              let a := nth i indptr 0%nat in
              let b := nth (S i) indptr 0%nat in
              zip (slice indices a b) (slice data a b))
           (seq 0 shape.1))
      shape.2.

Definition col_le {A} (x y : Z * A) : Prop := x.1 ≤ y.1.

Instance col_le_dec {A} : RelDecision (@col_le A).
Proof. intros x y. unfold col_le. apply _. Defined.

(** [m.sort_indices()] *)
Definition sort_indices {A} (m : csr_matrix A) : csr_matrix A :=
  CSR (map (merge_sort col_le) (mrows m)) (n_cols m).

Definition csr_map {A B} (f : A → B) (m : csr_matrix A) : csr_matrix B :=
  CSR (map (map (fun e : Z * A => (e.1, f e.2))) (mrows m)) (n_cols m).

(** The value at column [j] of a row: stored entries of one column add up. *)
Definition row_get (row : list (Z * Z)) (j : Z) : Z :=
  foldr (fun e acc => if bool_decide (e.1 = j) then e.2 + acc else acc) 0 row.

Definition get (m : csr_matrix Z) (i : nat) (j : Z) : Z :=
  row_get (nth i (mrows m) []) j.

(** [m.toarray()] *)
Definition toarray (m : csr_matrix Z) : list (list Z) :=
  map (fun row => map (fun j => row_get row (Z.of_nat j)) (seq 0 (n_cols m)))
      (mrows m).

(** Number of occurrences of [j] in the array [x]. *)
Definition count_index (j : Z) (x : list Z) : Z :=
  Z.of_nat (length (filter (fun i => i = j) x)).

(** [np.bincount(x, minlength=minlength)] *)
Definition bincount (x : list Z) (minlength : nat) : result (list Z) :=
  if existsb (fun i => i <? 0) x then Raise (ValueError NegativeBincount)
  else
    let n := foldr (fun i acc => Nat.max (Z.to_nat (i + 1)) acc) minlength x in
    Ok (map (fun j => count_index (Z.of_nat j) x) (seq 0 n)).

(** [a[i]] on a numpy array: negative positions count from the end. *)
Definition np_index {A} (a : list A) (i : Z) : result A :=
  let n := Z.of_nat (length a) in
  let k := if i <? 0 then i + n else i in
  if (0 <=? k) && (k <? n)
  then match a !! Z.to_nat k with Some x => Ok x | None => Raise IndexError end
  else Raise IndexError.

(** [np.where(mask)[0]]: the positions of the true elements, counted from
    [i]. *)
Fixpoint where_from (i : Z) (mask : list bool) : list Z :=
  match mask with
  | [] => []
  | b :: rest =>
      if b then i :: where_from (i + 1) rest else where_from (i + 1) rest
  end.

Definition np_where (mask : list bool) : list Z := where_from 0 mask.

(** [m[:, kept_indices]]: a stored entry of column [c] goes to every
    position at which [kept_indices] lists [c]. *)
Definition column_index {A} (m : csr_matrix A) (kept_indices : list Z)
  : csr_matrix A :=
  CSR (map (fun row =>
              flat_map (fun e : Z * A =>
                          map (fun p => (p, e.2))
                              (np_where (map (fun c => bool_decide (c = e.1))
                                             kept_indices)))
                       row)
           (mrows m))
      (length kept_indices).

(** [np.cumsum(mask) - 1] *)
Fixpoint cumsum_from (acc : Z) (mask : list bool) : list Z :=
  match mask with
  | [] => []
  | b :: rest =>
      let acc := if b then acc + 1 else acc in
      acc :: cumsum_from acc rest
  end.

Definition new_indices_of (mask : list bool) : list Z :=
  map (fun c => c - 1) (cumsum_from 0 mask).

(** ** Counting terms *)

(** [term_counter[term_idx] += 1] on a [defaultdict(int)] *)
Definition incr (term_counter : gmap Z Z) (term_idx : Z) : gmap Z Z :=
  <[term_idx := default 0 (term_counter !! term_idx) + 1]> term_counter.

(** One turn of [for term in terms]. With an open vocabulary a missing term
    is given the id [len(vocabulary)] ([default_factory = __len__]); with a
    fixed one the [KeyError] is caught and the term skipped. *)
Definition count_term (fixed_vocab : bool)
  (st : gmap string Z * gmap Z Z) (term : string) : gmap string Z * gmap Z Z :=
  let '(vocabulary, term_counter) := st in
  match vocabulary !! term with
  | Some term_idx => (vocabulary, incr term_counter term_idx)
  | None =>
      if fixed_vocab then (vocabulary, term_counter)
      else
        let term_idx := Z.of_nat (size vocabulary) in
        (<[term := term_idx]> vocabulary, incr term_counter term_idx)
  end.

(** One turn of [for terms in tokenized_docs]. The order in which the counter
    lists its keys is immaterial: [sort_indices] reorders every row. *)
Definition count_doc (fixed_vocab : bool)
  (st : gmap string Z * list Z * list Z * list nat) (terms : list string)
  : gmap string Z * list Z * list Z * list nat :=
  let '(vocabulary, data, indices, indptr) := st in
  let '(vocabulary, term_counter) :=
    foldl (count_term fixed_vocab) (vocabulary, ∅) terms in
  let data := data ++ (map_to_list term_counter).*2 in
  let indices := indices ++ (map_to_list term_counter).*1 in
  (vocabulary, data, indices, indptr ++ [length indices]).

(** [Vectorizer._count_terms] *)
Definition _count_terms (self : Vectorizer) (tokenized_docs : list (list string))
  (fixed_vocab : bool) : result (csr_matrix Z * gmap string Z) :=
  vocabulary ←
    (if fixed_vocab
     then match vocabulary_terms self with
          | Some v => Ok v
          | None => Raise TypeError
          end
     else Ok ∅);
  let '(vocabulary, data, indices, indptr) :=
    foldl (count_doc fixed_vocab) (vocabulary, [], [], [0%nat]) tokenized_docs in
  let doc_term_matrix :=
    csr_of_arrays data indices indptr ((length indptr - 1)%nat, size vocabulary) in
  Ok (sort_indices doc_term_matrix, vocabulary).

(** ** Frequencies *)

(** [get_doc_freqs(doc_term_matrix, normalized=False)] *)
Definition get_doc_freqs {A} (doc_term_matrix : csr_matrix A) : result (list Z) :=
  if bool_decide (nnz doc_term_matrix = 0%nat)
  then Raise (ValueError NoNonZeroEntry)
  else bincount (indices doc_term_matrix) (n_cols doc_term_matrix).

(** [get_doc_freqs(doc_term_matrix, normalized=True)] *)
Definition get_doc_freqs_normalized {A} (doc_term_matrix : csr_matrix A)
  : result (list R) :=
  dfs ← get_doc_freqs doc_term_matrix;
  Ok (map (fun df => (IZR df / INR (n_rows doc_term_matrix))%R) dfs).

(** The sum of column [j]: the term frequency of [j]. *)
Definition term_freq (m : csr_matrix Z) (j : Z) : Z :=
  foldr (fun row acc => row_get row j + acc) 0 (mrows m).

(** [doc_term_matrix.sum(axis=0)] *)
Definition column_sums (m : csr_matrix Z) : list Z :=
  map (fun j => term_freq m (Z.of_nat j)) (seq 0 (n_cols m)).

(** [get_term_freqs(doc_term_matrix, normalized=False)] *)
Definition get_term_freqs (doc_term_matrix : csr_matrix Z) : result (list Z) :=
  if bool_decide (nnz doc_term_matrix = 0%nat)
  then Raise (ValueError NoNonZeroEntry)
  else Ok (column_sums doc_term_matrix).

Instance Rle_decision : RelDecision Rle := Rle_dec.

Definition log2 (x : R) : R := (ln x / ln 2)%R.

(** [-df * log2(df) - (1 - df) * log2(1 - df)], with the NaN of [log2(0)]
    (and of a logarithm of a negative number) replaced by 0. *)
Definition information_content (df : R) : R :=
  if Rle_dec df 0 then 0%R
  else if Rle_dec 1 df then 0%R
  else (- df * log2 df - (1 - df) * log2 (1 - df))%R.

(** [get_information_content] *)
Definition get_information_content {A} (doc_term_matrix : csr_matrix A)
  : result (list R) :=
  dfs ← get_doc_freqs_normalized doc_term_matrix;
  Ok (map information_content dfs).

(** ** Weighting *)

(** A matrix with its dtype: [int32] counts or [float64] weights. *)
Inductive matrix : Type :=
| IntMatrix (m : csr_matrix Z)
| FloatMatrix (m : csr_matrix R).

(** [m.astype(np.float64)] *)
Definition astype_float (m : matrix) : csr_matrix R :=
  match m with
  | IntMatrix m => csr_map IZR m
  | FloatMatrix m => m
  end.

Definition matrix_n_cols (m : matrix) : nat :=
  match m with IntMatrix m => n_cols m | FloatMatrix m => n_cols m end.

Definition matrix_n_rows (m : matrix) : nat :=
  match m with IntMatrix m => n_rows m | FloatMatrix m => n_rows m end.

(** [m.data.fill(1)] *)
Definition fill_one (m : matrix) : matrix :=
  match m with
  | IntMatrix m => IntMatrix (csr_map (fun _ => 1) m)
  | FloatMatrix m => FloatMatrix (csr_map (fun _ => 1%R) m)
  end.

(** [m.dot(sp.diags(idfs, 0))]: column [j] is multiplied by [idfs[j]]. *)
Definition dot_diags (m : csr_matrix R) (idfs : list R) : result (csr_matrix R) :=
  if bool_decide (length idfs = n_cols m)
  then Ok (CSR (map (map (fun e : Z * R =>
                            (e.1, (e.2 * default 0 (idfs !! Z.to_nat e.1))%R)))
                    (mrows m))
               (n_cols m))
  else Raise (ValueError DimensionMismatch).

(** [apply_idf_weighting] *)
Definition apply_idf_weighting (doc_term_matrix : matrix) (smooth_idf : bool)
  : result matrix :=
  let x := astype_float doc_term_matrix in
  dfs ← get_doc_freqs x;
  let n_docs := Z.of_nat (n_rows x) in
  let '(n_docs, dfs) :=
    if smooth_idf then (n_docs + 1, map (fun df => df + 1) dfs)
    else (n_docs, dfs) in
  let idfs := map (fun df => (ln (IZR n_docs / IZR df) + 1)%R) dfs in
  m ← dot_diags x idfs;
  Ok (FloatMatrix m).

(** [normalize_mat(m, norm='l2', axis=1)]: a row whose squares sum to zero is
    left alone, any other is divided by its Euclidean norm. *)
Definition sum_squares (row : list (Z * R)) : R :=
  foldr (fun e acc => (e.2 * e.2 + acc)%R) 0%R row.

Definition normalize_row (row : list (Z * R)) : list (Z * R) :=
  let s := sum_squares row in
  if Req_dec_T s 0 then row
  else map (fun e : Z * R => (e.1, (e.2 / sqrt s)%R)) row.

Definition normalize_rows (m : csr_matrix R) : csr_matrix R :=
  CSR (map normalize_row (mrows m)) (n_cols m).

(** [sklearn.preprocessing.normalize] first validates its argument
    ([check_array]) and rejects a matrix without rows or without columns
    with a [ValueError]. *)
Definition normalize_mat (m : csr_matrix R) : result (csr_matrix R) :=
  if bool_decide (n_rows m = 0%nat) || bool_decide (n_cols m = 0%nat)
  then Raise (ValueError EmptyArray)
  else Ok (normalize_rows m).

(** [Vectorizer._reweight_values] *)
Definition _reweight_values (self : Vectorizer) (doc_term_matrix : matrix)
  : result matrix :=
  doc_term_matrix ←
    (if bool_decide (weighting self = "binary")
     then Ok (fill_one doc_term_matrix)
     else
       let doc_term_matrix :=
         if sublinear_tf self
         then FloatMatrix (csr_map (fun v => (ln v + 1)%R)
                                   (astype_float doc_term_matrix))
         else doc_term_matrix in
       if bool_decide (weighting self = "tfidf")
       then apply_idf_weighting doc_term_matrix (smooth_idf self)
       else Ok doc_term_matrix);
  if normalize self
  then doc_term_matrix ← normalize_mat (astype_float doc_term_matrix);
       Ok (FloatMatrix doc_term_matrix)
  else Ok doc_term_matrix.

(** What [_reweight_values] does before it normalizes. *)
Definition weigh (self : Vectorizer) (doc_term_matrix : matrix) : result matrix :=
  if bool_decide (weighting self = "binary"%string)
  then Ok (fill_one doc_term_matrix)
  else
    let doc_term_matrix :=
      if sublinear_tf self
      then FloatMatrix (csr_map (fun v => (ln v + 1)%R)
                                (astype_float doc_term_matrix))
      else doc_term_matrix in
    if bool_decide (weighting self = "tfidf"%string)
    then apply_idf_weighting doc_term_matrix (smooth_idf self)
    else Ok doc_term_matrix.

(** ** Frequency filters *)

(** [mask &= cond]: same lengths, or a one-element [cond] is broadcast. *)
Definition mask_and (mask cond : list bool) : result (list bool) :=
  if bool_decide (length cond = length mask) then Ok (zip_with andb mask cond)
  else match cond with
       | [c] => Ok (map (fun b => b && c) mask)
       | _ => Raise (ValueError DimensionMismatch)
       end.

(** [mask.sum()] *)
Definition mask_sum (mask : list bool) : Z :=
  Z.of_nat (length (filter (fun b => b = true) mask)).

(** [a[mask]] *)
Definition boolean_index {A} (a : list A) (mask : list bool) : list A :=
  (filter (fun p : A * bool => p.2 = true) (zip a mask)).*1.

(** [{term: new_indices[old_index] for term, old_index in term_to_id.items()
      if mask[old_index]}] *)
Definition reindex_vocabulary (term_to_id : gmap string Z) (mask : list bool)
  : result (gmap string Z) :=
  let n := Z.of_nat (length mask) in
  let new_indices := new_indices_of mask in
  if bool_decide (map_Forall (fun _ old_index => - n ≤ old_index < n) term_to_id)
  then Ok (omap (fun old_index =>
                   match np_index mask old_index, np_index new_indices old_index with
                   | Ok true, Ok j => Some j
                   | _, _ => None
                   end)
                term_to_id)
  else Raise IndexError.

(** The last lines of both filters: renumber the vocabulary, then slice. *)
Definition compactify {A} (doc_term_matrix : csr_matrix A)
  (term_to_id : gmap string Z) (mask : list bool)
  : result (csr_matrix A * gmap string Z) :=
  term_to_id ← reindex_vocabulary term_to_id mask;
  let kept_indices := np_where mask in
  if bool_decide (length kept_indices = 0%nat)
  then Raise (ValueError NoTermsRemain)
  else Ok (column_index doc_term_matrix kept_indices, term_to_id).

(** [new_mask[np.where(mask)[0][top_mask_inds]] = True] on a zero mask,
    with [top_mask_inds = order[::-1][:max_n_terms]]. *)
Definition top_mask (order : list nat) (mask : list bool) (max_n_terms : Z)
  : list bool :=
  let top_mask_inds := take (Z.to_nat max_n_terms) (reverse order) in
  let kept := np_where mask in
  let chosen := map (fun p => nth p kept 0) top_mask_inds in
  map (fun j => bool_decide (Z.of_nat j ∈ chosen)) (seq 0 (length mask)).

Section Pipeline.

(** [numpy.ndarray.argsort] with its default [kind]: some permutation of
    the positions that lists the values in ascending order; how equal
    values are ordered is up to numpy. One for [int] and one for [float]
    arrays. *)
Variable argsort : list Z → list nat.
Variable argsort_float : list R → list nat.

(** [filter_terms_by_df] *)
Definition filter_terms_by_df (doc_term_matrix : csr_matrix Z)
  (term_to_id : gmap string Z) (max_df min_df : number)
  (max_n_terms : option Z) : result (csr_matrix Z * gmap string Z) :=
  if number_is_one max_df && number_is_one min_df
     && bool_decide (max_n_terms = None)
  then Ok (doc_term_matrix, term_to_id)
  else if number_neg max_df || number_neg min_df
          || match max_n_terms with Some k => k <? 0 | None => false end
  then Raise (ValueError InvalidFilterBounds)
  else
    let n_docs := n_rows doc_term_matrix in
    let n_terms := n_cols doc_term_matrix in
    let max_doc_count := doc_count max_df n_docs in
    let min_doc_count := doc_count min_df n_docs in
    if max_doc_count <? min_doc_count
    then Raise (ValueError InvalidFilterBounds)
    else
      dfs ← get_doc_freqs doc_term_matrix;
      let mask := repeat true n_terms in
      mask ← (if max_doc_count <? Z.of_nat n_docs
              then mask_and mask (map (fun df => df <=? max_doc_count) dfs)
              else Ok mask);
      mask ← (if 1 <? min_doc_count
              then mask_and mask (map (fun df => min_doc_count <=? df) dfs)
              else Ok mask);
      mask ← match max_n_terms with
             | Some k =>
                 if k <? mask_sum mask
                 then tfs ← get_term_freqs doc_term_matrix;
                      Ok (top_mask (argsort (boolean_index tfs mask)) mask k)
                 else Ok mask
             | None => Ok mask
             end;
      compactify doc_term_matrix term_to_id mask.

(** [filter_terms_by_ic] *)
Definition filter_terms_by_ic (doc_term_matrix : csr_matrix Z)
  (term_to_id : gmap string Z) (min_ic : Q) (max_n_terms : option Z)
  : result (csr_matrix Z * gmap string Z) :=
  if Qeq_bool min_ic 0 && bool_decide (max_n_terms = None)
  then Ok (doc_term_matrix, term_to_id)
  else if Qlt_bool min_ic 0 || Qlt_bool 1 min_ic
  then Raise (ValueError InvalidFilterBounds)
  else if match max_n_terms with Some k => k <? 0 | None => false end
  then Raise (ValueError InvalidFilterBounds)
  else
    let n_terms := n_cols doc_term_matrix in
    ics ← get_information_content doc_term_matrix;
    let mask := repeat true n_terms in
    mask ← (if Qlt_bool 0 min_ic
            then mask_and mask
                   (map (fun ic => bool_decide (Q2R min_ic <= ic)%R) ics)
            else Ok mask);
    mask ← match max_n_terms with
           | Some k =>
               if k <? mask_sum mask
               then Ok (top_mask (argsort_float (boolean_index ics mask)) mask k)
               else Ok mask
           | None => Ok mask
           end;
    compactify doc_term_matrix term_to_id mask.

(** [Vectorizer._filter_terms] *)
Definition _filter_terms (self : Vectorizer) (doc_term_matrix : csr_matrix Z)
  (vocabulary : gmap string Z) : result (csr_matrix Z * gmap string Z) :=
  if _fixed_terms self then Ok (doc_term_matrix, vocabulary)
  else
    '(doc_term_matrix, vocabulary) ←
      (if negb (number_is_one (max_df self))
          || negb (number_is_one (min_df self))
          || bool_decide (max_n_terms self ≠ None)
       then filter_terms_by_df doc_term_matrix vocabulary
              (max_df self) (min_df self) (max_n_terms self)
       else Ok (doc_term_matrix, vocabulary));
    if negb (Qeq_bool (min_ic self) 0)
    then filter_terms_by_ic doc_term_matrix vocabulary
           (min_ic self) (max_n_terms self)
    else Ok (doc_term_matrix, vocabulary).

(** [Vectorizer.fit_transform]: the instance after the call and what the
    call returned or raised. *)
Definition fit_transform (self : Vectorizer) (tokenized_docs : list (list string))
  : Vectorizer * result matrix :=
  match _count_terms self tokenized_docs (_fixed_terms self) with
  | Raise e => (self, Raise e)
  | Ok (doc_term_matrix, vocabulary) =>
      let self := set_vocabulary_terms self (Some vocabulary) in
      match _filter_terms self doc_term_matrix vocabulary with
      | Raise e => (self, Raise e)
      | Ok (doc_term_matrix, vocabulary) =>
          let self := set_vocabulary_terms self (Some vocabulary) in
          (self, _reweight_values self (IntMatrix doc_term_matrix))
      end
  end.

(** [Vectorizer.fit] *)
Definition fit (self : Vectorizer) (tokenized_docs : list (list string))
  : Vectorizer * result unit :=
  let '(self, r) := fit_transform self tokenized_docs in
  (self, _ ← r; Ok tt).

End Pipeline.

(** [Vectorizer.transform] *)
Definition transform (self : Vectorizer) (tokenized_docs : list (list string))
  : result matrix :=
  _ ← _check_vocabulary self;
  '(doc_term_matrix, _) ← _count_terms self tokenized_docs true;
  _reweight_values self (IntMatrix doc_term_matrix).

(** A stable [argsort] (numpy's [kind='stable']): positions by ascending
    value, equal values in their original order. *)
Fixpoint insert_by {A} (le : A → A → bool) (x : nat * A) (l : list (nat * A))
  : list (nat * A) :=
  match l with
  | [] => [x]
  | y :: rest => if le x.2 y.2 then x :: l else y :: insert_by le x rest
  end.

Definition stable_argsort_by {A} (le : A → A → bool) (a : list A) : list nat :=
  (foldr (insert_by le) [] (imap pair a)).*1.

Definition stable_argsort : list Z → list nat := stable_argsort_by Z.leb.

Definition stable_argsort_float : list R → list nat :=
  stable_argsort_by (fun x y => bool_decide (x <= y)%R).

(** ** Properties of vocabularies *)

(** No two terms share an id. *)
Definition ids_unique (m : gmap string Z) : Prop :=
  ∀ t1 t2 i, m !! t1 = Some i → m !! t2 = Some i → t1 = t2.

(** Every integer of [0, size) is the id of some term. *)
Definition ids_compact (m : gmap string Z) : Prop :=
  ∀ i, 0 ≤ i < Z.of_nat (size m) → ∃ t, m !! t = Some i.


(** ** Properties of counting *)

(** [indptr] of a matrix given by its rows, starting at offset [a]. *)
Fixpoint offsets_from {A} (a : nat) (rows : list (list A)) : list nat :=
  match rows with
  | [] => [a]
  | r :: rest => a :: offsets_from (a + length r) rest
  end.

(** Number of tokens of [doc] that [vocabulary] maps to the id [j]. *)
Definition tokens_with_id (vocabulary : gmap string Z) (j : Z) (doc : list string) : Z :=
  Z.of_nat (length (filter (fun t => vocabulary !! t = Some j) doc)).

(** Number of occurrences of [term] in [doc]. *)
Definition occurrences (term : string) (doc : list string) : Z :=
  Z.of_nat (length (filter (fun t => t = term) doc)).

(** The counter holds, for every id, the number of tokens seen with that id. *)
Definition counter_ok (v : gmap string Z) (tc : gmap Z Z) (seen : list string) : Prop :=
  ∀ j, default 0 (tc !! j) = tokens_with_id v j seen.

(** What an open vocabulary looks like after the token stream [ts]: its terms
    are those of [ts], and a term has as id the number of distinct terms that
    came before its first occurrence. *)
Record first_seen_ids (v : gmap string Z) (ts : list string) : Prop := {
  fs_dom : ∀ t, is_Some (v !! t) ↔ t ∈ ts;
  fs_range : ∀ t j, v !! t = Some j → 0 ≤ j < Z.of_nat (size v);
  fs_first : ∀ pre t post, ts = pre ++ t :: post → t ∉ pre →
             v !! t = Some (Z.of_nat (size (list_to_set pre : gset string)));
  fs_size : size v = size (list_to_set ts : gset string);
  fs_unique : ids_unique v
}.

(** A stored row agrees with a document under a vocabulary. *)
Definition row_ok (v : gmap string Z) (row : list (Z * Z)) (doc : list string) : Prop :=
  ∀ j, row_get row j = tokens_with_id v j doc.

(** Every one of [keys] is the id of a term of the vocabulary. *)
Definition keys_known (v : gmap string Z) (keys : list Z) : Prop :=
  Forall (fun j => ∃ t, v !! t = Some j) keys.

(** A stored row holds no column twice, and only ids of the vocabulary. *)
Definition row_canonical (v : gmap string Z) (row : list (Z * Z)) : Prop :=
  NoDup row.*1 ∧ keys_known v row.*1.

(** [Vectorizer()] with every argument at its default. *)
Definition default_vectorizer : Vectorizer :=
  mkVectorizer "tf" false false true (PyInt 1) (PyFloat 1) 0 None None false ∅.

(** ** Properties of matrices *)

(** Every stored column index is a column of the matrix. *)
Definition indices_in_range {A} (m : csr_matrix A) : Prop :=
  Forall (fun j => 0 ≤ j < Z.of_nat (n_cols m)) (indices m).

(** Document frequency of column [j]: the number of stored entries in it. *)
Definition doc_freq {A} (m : csr_matrix A) (j : Z) : Z :=
  count_index j (indices m).

(** The idf weight of column [j]: [log(n_docs / df) + 1.0], both counts
    increased by one when smoothing. *)
Definition idf {A} (m : csr_matrix A) (smooth_idf : bool) (j : Z) : R :=
  if smooth_idf
  then (ln (IZR (Z.of_nat (n_rows m) + 1) / IZR (doc_freq m j + 1)) + 1)%R
  else (ln (IZR (Z.of_nat (n_rows m)) / IZR (doc_freq m j)) + 1)%R.

(** The stored positions of a matrix: its column indices, row by row. *)
Definition pattern {A} (m : csr_matrix A) : list (list Z) :=
  map (map fst) (mrows m).

Definition matrix_pattern (m : matrix) : list (list Z) :=
  match m with IntMatrix m => pattern m | FloatMatrix m => pattern m end.

(** Every stored value is 1. *)
Definition all_ones (m : matrix) : Prop :=
  match m with
  | IntMatrix m => Forall (fun x => x = 1) (data m)
  | FloatMatrix m => Forall (fun x => x = 1%R) (data m)
  end.

(** [Vectorizer(weighting='binary', normalize=True, sublinear_tf=True)] *)
Definition binary_normalized : Vectorizer :=
  mkVectorizer "binary" true true true (PyInt 1) (PyFloat 1) 0 None None false ∅.

(** The matrix [apply_idf_weighting] makes of the counts [m]: every stored
    count times the idf of its column, the idf being that of [m] itself. *)
Definition tfidf_of (m : csr_matrix Z) (smooth_idf : bool) : csr_matrix R :=
  CSR (map (map (fun e : Z * Z => (e.1, (IZR e.2 * idf m smooth_idf e.1)%R)))
           (mrows m))
      (n_cols m).

(** [Vectorizer(weighting='tfidf', vocabulary_terms={'x': 0, 'y': 1})] *)
Definition tfidf_xy : Vectorizer :=
  mkVectorizer "tfidf" false false true (PyInt 1) (PyFloat 1) 0 None
    (Some {["x" := 0; "y" := 1]}) true ∅.

(** ** Properties of filtering *)

(** [v] numbers its terms 0, 1, ..., n-1, each id once. *)
Definition vocabulary_of_width (n : nat) (v : gmap string Z) : Prop :=
  ids_unique v
  ∧ (∀ t j, v !! t = Some j → 0 ≤ j < Z.of_nat n)
  ∧ (∀ j, 0 ≤ j < Z.of_nat n → ∃ t, v !! t = Some j).

(** No row stores a column twice. *)
Definition rows_unique {A} (m : csr_matrix A) : Prop :=
  Forall (fun row => NoDup row.*1) (mrows m).

(** Whether column [j] passes the document-frequency bounds: the upper bound
    is tested only when it is below the number of rows, the lower bound only
    when it is above 1. *)
Definition survives_df {A} (m : csr_matrix A) (max_doc_count min_doc_count : Z)
  (j : Z) : bool :=
  (if max_doc_count <? Z.of_nat (n_rows m)
   then doc_freq m j <=? max_doc_count else true)
  && (if 1 <? min_doc_count then min_doc_count <=? doc_freq m j else true).

Definition df_mask {A} (m : csr_matrix A) (max_doc_count min_doc_count : Z)
  : list bool :=
  map (fun j => survives_df m max_doc_count min_doc_count (Z.of_nat j))
      (seq 0 (n_cols m)).

(** The mask that [filter_terms_by_df] hands to its last lines. *)
Definition final_df_mask (argsort : list Z → list nat) (m : csr_matrix Z)
  (max_doc_count min_doc_count : Z) (max_n_terms : option Z) : list bool :=
  let mask := df_mask m max_doc_count min_doc_count in
  match max_n_terms with
  | Some k =>
      if k <? mask_sum mask
      then top_mask (argsort (boolean_index (column_sums m) mask)) mask k
      else mask
  | None => mask
  end.



(** ** More of the vectorizer *)

Definition id_le (x y : string * Z) : Prop := x.2 ≤ y.2.

Instance id_le_dec : RelDecision id_le.
Proof. intros x y. unfold id_le. apply _. Defined.

(** [sorted(vocabulary.items(), key=operator.itemgetter(1))]. Python's sort
    is stable, so items of equal id would come out in the order of the dict;
    a [gmap] has no such order, and the vocabulary of an instance never holds
    two terms of one id. *)
Definition items_by_id (vocabulary : gmap string Z) : list (string * Z) :=
  merge_sort id_le (map_to_list vocabulary).

(** The property [Vectorizer.terms_list]. *)
Definition terms_list (self : Vectorizer) : result (list string) :=
  _ ← _check_vocabulary self;
  match vocabulary_terms self with
  | Some v => Ok (items_by_id v).*1
  | None => Raise AttributeError
  end.

(** ** Counting in closed form *)

(** The counter of one document under a vocabulary that does not grow. *)
Definition term_counter_of (v : gmap string Z) (doc : list string) : gmap Z Z :=
  (foldl (count_term true) (v, ∅) doc).2.

(** The row of one document, as [sort_indices] leaves it. *)
Definition count_row (v : gmap string Z) (doc : list string) : list (Z * Z) :=
  merge_sort col_le (map_to_list (term_counter_of v doc)).

Definition count_matrix (v : gmap string Z) (docs : list (list string))
  : csr_matrix Z :=
  CSR (map (count_row v) docs) (size v).

(** Number of documents that hold a token of id [j]. *)
Definition docs_with_id (v : gmap string Z) (j : Z) (docs : list (list string))
  : Z :=
  Z.of_nat (length (filter (fun doc => 0 < tokens_with_id v j doc) docs)).

(** [get_term_freqs(doc_term_matrix, normalized=True)], the default:
    [tfs / n_terms] with [_, n_terms = doc_term_matrix.shape]. *)
Definition get_term_freqs_normalized (doc_term_matrix : csr_matrix Z)
  : result (list R) :=
  tfs ← get_term_freqs doc_term_matrix;
  Ok (map (fun tf => (IZR tf / INR (n_cols doc_term_matrix))%R) tfs).

(** Sum of a list of reals. *)
Definition Rsum (l : list R) : R := foldr Rplus 0%R l.

Definition Zsum (l : list Z) : Z := foldr Z.add 0 l.

(** Number of tokens of [doc] that are in [vocabulary]. *)
Definition known_tokens (vocabulary : gmap string Z) (doc : list string) : Z :=
  Z.of_nat (length (filter (fun t => is_Some (vocabulary !! t)) doc)).

(** One row of [m[:, kept_indices]]. *)
Definition column_index_row {A} (row : list (Z * A)) (kept_indices : list Z)
  : list (Z * A) :=
  flat_map (fun e : Z * A =>
              map (fun p => (p, e.2))
                  (np_where (map (fun c => bool_decide (c = e.1)) kept_indices)))
           row.

(** ** Information content of a column *)

(** The information content [get_information_content] computes for column
    [j]. *)
Definition ic_of {A} (m : csr_matrix A) (j : Z) : R :=
  information_content (IZR (doc_freq m j) / INR (n_rows m))%R.

(** Whether column [j] passes [min_ic]: tested only when [min_ic > 0]. *)
Definition survives_ic {A} (m : csr_matrix A) (min_ic : Q) (j : Z) : bool :=
  if Qlt_bool 0 min_ic then bool_decide (Q2R min_ic <= ic_of m j)%R else true.

Definition ic_mask {A} (m : csr_matrix A) (min_ic : Q) : list bool :=
  map (fun j => survives_ic m min_ic (Z.of_nat j)) (seq 0 (n_cols m)).

(** The mask that [filter_terms_by_ic] hands to its last lines. *)
Definition final_ic_mask {A} (argsort_float : list R → list nat)
  (m : csr_matrix A) (min_ic : Q) (max_n_terms : option Z) : list bool :=
  let mask := ic_mask m min_ic in
  match max_n_terms with
  | Some k =>
      if k <? mask_sum mask
      then top_mask
             (argsort_float
                (boolean_index (map (fun j => ic_of m (Z.of_nat j))
                                    (seq 0 (n_cols m))) mask))
             mask k
      else mask
  | None => mask
  end.

(** ** Column slices *)

(** Stored indices are columns of the matrix and no row stores a column
    twice. *)
Definition canonical {A} (m : csr_matrix A) : Prop :=
  indices_in_range m ∧ rows_unique m.

(** [(m', v')] is a selection of the columns of [(m, v)]: as many rows, a
    vocabulary that numbers the columns of [m'], whose terms are terms of
    [v] in the same order of ids, each with the column it had in [m]. *)
Definition column_slice_of (m : csr_matrix Z) (v : gmap string Z)
  (m' : csr_matrix Z) (v' : gmap string Z) : Prop :=
  n_rows m' = n_rows m
  ∧ canonical m'
  ∧ vocabulary_of_width (n_cols m') v'
  ∧ (∀ t j', v' !! t = Some j' →
       ∃ j, v !! t = Some j ∧ ∀ i, get m' i j' = get m i j)
  ∧ (∀ t u i' j' i j,
       v' !! t = Some i' → v' !! u = Some j' →
       v !! t = Some i → v !! u = Some j → (i' < j' ↔ i < j)).

(** ** The invariant of an instance *)

(** The vocabulary of the instance, if any, numbers its terms
    [0 .. len(vocabulary) - 1], each id once. *)
Definition vocabulary_valid (self : Vectorizer) : Prop :=
  match vocabulary_terms self with
  | Some v => vocabulary_of_width (size v) v
  | None => True
  end.

(** [scipy.sparse.vstack]: the rows of [a] on top of those of [b]; counts
    stay counts only when both matrices hold counts. *)
Definition vstack (a b : matrix) : matrix :=
  match a, b with
  | IntMatrix x, IntMatrix y => IntMatrix (CSR (mrows x ++ mrows y) (n_cols x))
  | _, _ =>
      FloatMatrix (CSR (mrows (astype_float a) ++ mrows (astype_float b))
                       (matrix_n_cols a))
  end.

(** [Vectorizer(weighting='binary', normalize=True,
    vocabulary_terms={'x': 0, 'y': 1})] *)
Definition binary_xy : Vectorizer :=
  mkVectorizer "binary" true false true (PyInt 1) (PyFloat 1) 0 None
    (Some {["x" := 0; "y" := 1]}) true ∅.

(** * GroupVectorizer *)

(** ** From COO triples to CSR *)

(** [acc[c] += d] for a triple [(r, c, d)] of row [i]. *)
Definition coo_add (i : Z) (acc : gmap Z Z) (e : Z * Z * Z) : gmap Z Z :=
  let '(r, c, d) := e in
  if bool_decide (r = i) then <[c := default 0 (acc !! c) + d]> acc else acc.

(** Row [i] of the matrix of the triples [(row, col, value)]: the values of
    one position are summed. *)
Definition coo_row (entries : list (Z * Z * Z)) (i : Z) : gmap Z Z :=
  foldl (coo_add i) ∅ entries.

Definition index_in_bounds (n : nat) (i : Z) : bool :=
  (0 <=? i) && (i <? Z.of_nat n).

(** [sp.csr_matrix((data, (rows, cols)), shape=shape)]: scipy checks the
    indices against the shape ("row index exceeds matrix dimensions",
    "negative row index found", and the same for columns: a [ValueError],
    given here as [DimensionMismatch]) and sums the entries of one position
    when it converts to CSR. *)
Definition csr_of_coo (data rows cols : list Z) (shape : nat * nat)
  : result (csr_matrix Z) :=
  if forallb (index_in_bounds shape.1) rows
     && forallb (index_in_bounds shape.2) cols
  then Ok (CSR (map (fun i =>
                       map_to_list (coo_row (zip (zip rows cols) data)
                                            (Z.of_nat i)))
                    (seq 0 shape.1))
               shape.2)
  else Raise (ValueError DimensionMismatch).

Module GroupVectorizer.

(** An instance: the attributes of the base class and those of the groups. *)
Record t : Type := mk {
  vectorizer : Vectorizer;
  vocabulary_grps : option (gmap string Z);
  _fixed_grps : bool;
  id_to_grp_ : gmap Z string
}.

(** [GroupVectorizer.__init__] *)
Definition __init__ (weighting : string) (normalize sublinear_tf smooth_idf : bool)
  (min_df max_df : number) (min_ic : Q) (max_n_terms : option Z)
  (vocabulary_terms vocabulary_grps : option vocabulary_input) : result t :=
  self ← __init__ weighting normalize sublinear_tf smooth_idf min_df max_df
                  min_ic max_n_terms vocabulary_terms;
  '(vocabulary_grps, is_fixed) ← _validate_vocabulary vocabulary_grps;
  Ok (mk self vocabulary_grps is_fixed ∅).

(** The property [GroupVectorizer.id_to_grp]. *)
Definition id_to_grp (self : t) : t * result (gmap Z string) :=
  if py_ne (ObjInt (Z.of_nat (size (id_to_grp_ self))))
           (obj_of_vocabulary (vocabulary_grps self))
  then
    match vocabulary_grps self with
    | None => (self, Raise AttributeError)
    | Some v =>
        let self := mk (vectorizer self) (vocabulary_grps self)
                       (_fixed_grps self) (invert_vocabulary v) in
        (self, Ok (id_to_grp_ self))
    end
  else (self, Ok (id_to_grp_ self)).

(** The property [GroupVectorizer.grps_list]; the inherited
    [_check_vocabulary] looks at the vocabulary of the terms. *)
Definition grps_list (self : t) : result (list string) :=
  _ ← _check_vocabulary (vectorizer self);
  match vocabulary_grps self with
  | Some v => Ok (items_by_id v).*1
  | None => Raise AttributeError
  end.

Section Methods.

(** [compat.zip_], the [zip] of the running Python ([itertools.izip] on
    Python 2): its module is not part of this file. *)
Variable zip_ : list string → list (list string) → list (string * list string).
Variable argsort : list Z → list nat.
Variable argsort_float : list R → list nat.

(** [grp_idx = vocabulary_grps[grp]]: the id and the vocabulary after the
    lookup, or [None] for the [KeyError] of a fixed vocabulary. *)
Definition lookup_grp (fixed_vocab_grps : bool) (vocabulary_grps : gmap string Z)
  (grp : string) : option (Z * gmap string Z) :=
  match vocabulary_grps !! grp with
  | Some grp_idx => Some (grp_idx, vocabulary_grps)
  | None =>
      if fixed_vocab_grps then None
      else
        let grp_idx := Z.of_nat (size vocabulary_grps) in
        Some (grp_idx, <[grp := grp_idx]> vocabulary_grps)
  end.

(** One turn of [for grp, terms in compat.zip_(grps, tokenized_docs)]. *)
Definition count_grp (fixed_vocab_terms fixed_vocab_grps : bool)
  (st : gmap string Z * gmap string Z * list Z * list Z * list Z)
  (pair : string * list string)
  : gmap string Z * gmap string Z * list Z * list Z * list Z :=
  let '(vocabulary_terms, vocabulary_grps, data, cols, rows) := st in
  let '(grp, terms) := pair in
  match lookup_grp fixed_vocab_grps vocabulary_grps grp with
  | None => st
  | Some (grp_idx, vocabulary_grps) =>
      let '(vocabulary_terms, term_counter) :=
        foldl (count_term fixed_vocab_terms) (vocabulary_terms, ∅) terms in
      let items := map_to_list term_counter in
      (vocabulary_terms, vocabulary_grps,
       data ++ items.*2, cols ++ items.*1,
       rows ++ repeat grp_idx (length items))
  end.

(** [GroupVectorizer._count_terms] *)
Definition _count_terms (self : t) (tokenized_docs : list (list string))
  (grps : list string) (fixed_vocab_terms fixed_vocab_grps : bool)
  : result (csr_matrix Z * gmap string Z * gmap string Z) :=
  vocabulary_terms ←
    (if fixed_vocab_terms
     then match vocabulary_terms (vectorizer self) with
          | Some v => Ok v
          | None => Raise TypeError
          end
     else Ok ∅);
  vocabulary_grps ←
    (if fixed_vocab_grps
     then match vocabulary_grps self with
          | Some v => Ok v
          | None => Raise TypeError
          end
     else Ok ∅);
  let '(vocabulary_terms, vocabulary_grps, data, cols, rows) :=
    foldl (count_grp fixed_vocab_terms fixed_vocab_grps)
          (vocabulary_terms, vocabulary_grps, [], [], [])
          (zip_ grps tokenized_docs) in
  grp_term_matrix ←
    csr_of_coo data rows cols (size vocabulary_grps, size vocabulary_terms);
  Ok (sort_indices grp_term_matrix, vocabulary_terms, vocabulary_grps).

(** [GroupVectorizer.fit_transform]: the instance after the call and what
    the call returned or raised. *)
Definition fit_transform (self : t) (tokenized_docs : list (list string))
  (grps : list string) : t * result matrix :=
  match _count_terms self tokenized_docs grps
          (_fixed_terms (vectorizer self)) (_fixed_grps self) with
  | Raise e => (self, Raise e)
  | Ok (grp_term_matrix, vocabulary_terms, vocabulary_grps) =>
      let self := mk (set_vocabulary_terms (vectorizer self) (Some vocabulary_terms))
                     (Some vocabulary_grps) (_fixed_grps self) (id_to_grp_ self) in
      match _filter_terms argsort argsort_float (vectorizer self)
              grp_term_matrix vocabulary_terms with
      | Raise e => (self, Raise e)
      | Ok (grp_term_matrix, vocabulary_terms) =>
          let self := mk (set_vocabulary_terms (vectorizer self)
                            (Some vocabulary_terms))
                         (Some vocabulary_grps) (_fixed_grps self)
                         (id_to_grp_ self) in
          (self, _reweight_values (vectorizer self) (IntMatrix grp_term_matrix))
      end
  end.

(** [GroupVectorizer.fit] *)
Definition fit (self : t) (tokenized_docs : list (list string))
  (grps : list string) : t * result unit :=
  let '(self, r) := fit_transform self tokenized_docs grps in
  (self, _ ← r; Ok tt).

(** [GroupVectorizer.transform] *)
Definition transform (self : t) (tokenized_docs : list (list string))
  (grps : list string) : result matrix :=
  _ ← _check_vocabulary (vectorizer self);
  '(grp_term_matrix, _, _) ← _count_terms self tokenized_docs grps true true;
  _reweight_values (vectorizer self) (IntMatrix grp_term_matrix).

End Methods.

End GroupVectorizer.

(** ** Properties of group counting *)

(** The documents of [pairs] whose group has id [g], one after the other. *)
Definition docs_of_group (vocabulary_grps : gmap string Z)
  (pairs : list (string * list string)) (g : Z) : list string :=
  concat (map snd (filter (fun p : string * list string =>
                             vocabulary_grps !! p.1 = Some g) pairs)).

(** One merged document per group id, in the order of the ids. *)
Definition merged_docs (vocabulary_grps : gmap string Z)
  (pairs : list (string * list string)) : list (list string) :=
  map (fun g => docs_of_group vocabulary_grps pairs (Z.of_nat g))
      (seq 0 (size vocabulary_grps)).

(** The pairs whose group is in the vocabulary. *)
Definition known_pairs (vocabulary_grps : gmap string Z)
  (pairs : list (string * list string)) : list (string * list string) :=
  filter (fun p : string * list string => is_Some (vocabulary_grps !! p.1)) pairs.

(** The triples that counting under fixed vocabularies collects. *)
Definition coo_of_pairs (vocabulary_terms vocabulary_grps : gmap string Z)
  (pairs : list (string * list string)) : list (Z * Z * Z) :=
  flat_map (fun p : string * list string =>
              match vocabulary_grps !! p.1 with
              | Some g =>
                  map (fun e : Z * Z => (g, e.1, e.2))
                      (map_to_list (term_counter_of vocabulary_terms p.2))
              | None => []
              end)
           pairs.

(** [GroupVectorizer()] with every argument at its default. *)
Definition default_group_vectorizer : GroupVectorizer.t :=
  GroupVectorizer.mk default_vectorizer None false ∅.

(** [GroupVectorizer(vocabulary_terms={'x': 0, 'y': 1},
    vocabulary_grps={'g': 0, 'h': 1})] *)
Definition group_xy_gh : GroupVectorizer.t :=
  GroupVectorizer.mk
    (mkVectorizer "tf" false false true (PyInt 1) (PyFloat 1) 0 None
       (Some {["x" := 0; "y" := 1]}) true ∅)
    (Some {["g" := 0; "h" := 1]}) true ∅.

(** Both vocabularies of a group instance, where present, number their
    entries [0 .. n-1], each id once. *)
Definition group_valid (self : GroupVectorizer.t) : Prop :=
  vocabulary_valid (GroupVectorizer.vectorizer self)
  ∧ match GroupVectorizer.vocabulary_grps self with
    | Some vg => vocabulary_of_width (size vg) vg
    | None => True
    end.


(** * Vocabulary validation *)

Lemma size_list_to_set_le (l : list Z) :
  (size (list_to_set l : gset Z) ≤ length l)%nat.
Proof.
  induction l as [|x l IH]; [done|]. rewrite list_to_set_cons. simpl length.
  destruct (decide (x ∈ (list_to_set l : gset Z))) as [Hin|Hin].
  - assert ({[x]} ∪ list_to_set l = (list_to_set l : gset Z)) as -> by set_solver.
    lia.
  - rewrite size_union; [|set_solver]. rewrite size_singleton. lia.
Qed.

Lemma size_list_to_set_NoDup (l : list Z) :
  size (list_to_set l : gset Z) = length l ↔ NoDup l.
Proof.
  split; [|apply size_list_to_set].
  induction l as [|x l IH]; intros Hsz; [constructor|].
  rewrite list_to_set_cons in Hsz. simpl length in Hsz.
  destruct (decide (x ∈ (list_to_set l : gset Z))) as [Hin|Hin].
  - assert ({[x]} ∪ list_to_set l = (list_to_set l : gset Z)) as Heq by set_solver.
    rewrite Heq in Hsz.
    pose proof (size_list_to_set_le l). lia.
  - rewrite size_union in Hsz; [|set_solver]. rewrite size_singleton in Hsz.
    constructor; [set_solver|]. apply IH. lia.
Qed.

Lemma elem_of_values_set (m : gmap string Z) i :
  i ∈ values_set m ↔ ∃ t, m !! t = Some i.
Proof.
  unfold values_set. rewrite elem_of_list_to_set, list_elem_of_fmap. split.
  - intros [[t j] [-> Hin]]. exists t. by apply elem_of_map_to_list.
  - intros [t Ht]. exists (t, i). split; [done|]. by apply elem_of_map_to_list.
Qed.

Lemma values_NoDup_iff (m : gmap string Z) :
  NoDup (map snd (map_to_list m)) ↔ ids_unique m.
Proof.
  split.
  - intros Hnd t1 t2 i H1 H2.
    apply elem_of_map_to_list, list_elem_of_lookup in H1 as [k1 Hk1].
    apply elem_of_map_to_list, list_elem_of_lookup in H2 as [k2 Hk2].
    assert (k1 = k2) as ->.
    { eapply NoDup_lookup; [exact Hnd| |].
      - by rewrite list_lookup_fmap, Hk1.
      - by rewrite list_lookup_fmap, Hk2. }
    congruence.
  - intros Hu. apply NoDup_fmap_2_strong; [|apply NoDup_map_to_list].
    intros [t1 i1] [t2 i2] H1 H2 Heq. simpl in Heq. subst i2.
    apply elem_of_map_to_list in H1, H2. f_equal. eauto.
Qed.

Lemma values_unique_iff (m : gmap string Z) :
  size (values_set m) = size m ↔ ids_unique m.
Proof.
  rewrite <- values_NoDup_iff, <- size_list_to_set_NoDup.
  unfold values_set. rewrite length_map, length_map_to_list. done.
Qed.

Lemma values_compact_iff (m : gmap string Z) :
  forallb (fun i => bool_decide (Z.of_nat i ∈ values_set m)) (seq 0 (size m)) = true
  ↔ ids_compact m.
Proof.
  rewrite forallb_forall. split.
  - intros H i Hi. apply elem_of_values_set.
    specialize (H (Z.to_nat i)). rewrite bool_decide_eq_true in H.
    rewrite Z2Nat.id in H by lia. apply H. apply in_seq. lia.
  - intros H k Hk. apply in_seq in Hk. apply bool_decide_eq_true.
    apply elem_of_values_set. apply H. lia.
Qed.


Lemma validate_mapping_cases (m : gmap string Z) :
  (ids_unique m ∧ ids_compact m ∧ size m ≠ 0%nat
   ∧ _validate_vocabulary (Some (VocabMapping m)) = Ok (Some m, true))
  ∨ ((¬ ids_unique m ∨ ¬ ids_compact m ∨ size m = 0%nat)
     ∧ _validate_vocabulary (Some (VocabMapping m))
       = Raise (ValueError InvalidVocabulary)).
Proof.
  unfold _validate_vocabulary. cbn.
  destruct (decide (size (values_set m) = size m)) as [Hu|Hu].
  - rewrite bool_decide_eq_false_2 by (by intros H; apply H).
    apply values_unique_iff in Hu.
    destruct (forallb _ _) eqn:Hc; cbn.
    + apply values_compact_iff in Hc.
      destruct (decide (size m = 0%nat)) as [Hz|Hz].
      * rewrite bool_decide_eq_true_2 by done. right. split; [tauto|done].
      * rewrite bool_decide_eq_false_2 by done. left. done.
    + right. split; [|done]. right. left. intros Hc'.
      apply values_compact_iff in Hc'. congruence.
  - rewrite bool_decide_eq_true_2 by done. cbn. right. split; [|done].
    left. intros Hu'. by apply values_unique_iff in Hu'.
Qed.

Lemma enumerate_setdefault_ok (l : list string) : ∀ i (v : gmap string Z),
  (∀ t j, v !! t = Some j → j < i) →
  NoDup l → (∀ t, t ∈ l → v !! t = None) →
  ∃ r, enumerate_setdefault i l v = Ok r
       ∧ size r = (size v + length l)%nat
       ∧ ∀ t j, r !! t = Some j ↔
                (v !! t = Some j ∨ ∃ k, l !! k = Some t ∧ j = i + Z.of_nat k).
Proof.
  induction l as [|x l IH]; intros i v Hlt Hnd Hfresh.
  - exists v. split; [done|]. split; [simpl; lia|].
    intros t j. split; [tauto|]. intros [?|(k & Hk & _)]; [done|].
    by rewrite lookup_nil in Hk.
  - apply NoDup_cons in Hnd as [Hx Hnd]. simpl. unfold setdefault.
    rewrite (Hfresh x) by set_solver.
    rewrite bool_decide_eq_false_2 by (intros H; by apply H).
    destruct (IH (i + 1) (<[x := i]> v)) as (r & Hr & Hsz & Hlook).
    + intros t j. rewrite lookup_insert. case_decide.
      * intros [= <-]. lia.
      * intros Ht. apply Hlt in Ht. lia.
    + done.
    + intros t Ht. rewrite lookup_insert_ne by (intros ->; done).
      apply Hfresh. set_solver.
    + exists r. split; [done|]. split.
      * rewrite Hsz, map_size_insert_None by (apply Hfresh; set_solver).
        simpl. lia.
      * intros t j. rewrite Hlook. rewrite lookup_insert. split.
        -- intros [H|(k & Hk & ->)].
           ++ case_decide as Hd.
              ** injection H as <-. subst t. right. exists 0%nat. split; [done|lia].
              ** by left.
           ++ right. exists (S k). split; [done|lia].
        -- intros [H|(k & Hk & ->)].
           ++ left. rewrite decide_False; [done|]. intros ->.
              rewrite (Hfresh t) in H by set_solver. done.
           ++ destruct k as [|k]; simpl in Hk.
              ** injection Hk as ->. left. rewrite decide_True by done.
                 f_equal. lia.
              ** right. exists k. split; [done|lia].
Qed.

Lemma enumerate_setdefault_raise (l : list string) : ∀ i (v : gmap string Z),
  (∀ t j, v !! t = Some j → j < i) →
  ¬ (NoDup l ∧ ∀ t, t ∈ l → v !! t = None) →
  enumerate_setdefault i l v = Raise (ValueError InvalidVocabulary).
Proof.
  induction l as [|x l IH]; intros i v Hlt Hbad.
  - exfalso. apply Hbad. split; [constructor|]. intros t Ht. by apply elem_of_nil in Ht.
  - simpl. unfold setdefault. destruct (v !! x) as [j|] eqn:Hx.
    + rewrite bool_decide_eq_true_2; [done|]. apply Hlt in Hx. lia.
    + rewrite bool_decide_eq_false_2 by (intros H; by apply H).
      apply IH.
      * intros t j. rewrite lookup_insert. case_decide.
        -- intros [= <-]. lia.
        -- intros Ht. apply Hlt in Ht. lia.
      * intros [Hnd Hfresh]. apply Hbad. split.
        -- constructor; [|done]. intros Hin. apply Hfresh in Hin.
           by rewrite lookup_insert_eq in Hin.
        -- intros t Ht. apply elem_of_cons in Ht as [->|Ht]; [done|].
           apply Hfresh in Ht. rewrite lookup_insert in Ht.
           case_decide; [done|done].
Qed.

Instance str_le_total : Total str_le.
Proof. intros s1 s2. apply String.leb_total. Qed.

Lemma str_le_lt_or_eq s1 s2 : str_le s1 s2 ↔ String_as_OT.lt s1 s2 ∨ s1 = s2.
Proof.
  unfold str_le, String.leb. split.
  - destruct (String.compare s1 s2) eqn:Hc; intros Hle; [right|left|done].
    + by apply String_as_OT.cmp_eq.
    + by apply String_as_OT.cmp_lt.
  - intros [H| ->].
    + apply String_as_OT.cmp_lt in H. unfold String_as_OT.cmp in H. by rewrite H.
    + assert (String.compare s2 s2 = Eq) as -> by (by apply String_as_OT.cmp_eq). done.
Qed.

Instance str_le_trans : Transitive str_le.
Proof.
  intros a b c. rewrite !str_le_lt_or_eq.
  intros [H1| ->] [H2| ->]; eauto using String_as_OT.lt_trans.
Qed.

Lemma sorted_Permutation terms : sorted terms ≡ₚ terms.
Proof. apply merge_sort_Permutation. Qed.

Lemma sorted_StronglySorted terms : StronglySorted str_le (sorted terms).
Proof. apply StronglySorted_merge_sort; apply _. Qed.

Lemma validate_iterable_cases (terms : list string) :
  (NoDup terms ∧ terms ≠ []
   ∧ ∃ v, _validate_vocabulary (Some (VocabIterable terms)) = Ok (Some v, true)
          ∧ size v = length terms
          ∧ ∀ t j, v !! t = Some j ↔
                   ∃ k, sorted terms !! k = Some t ∧ j = Z.of_nat k)
  ∨ ((¬ NoDup terms ∨ terms = [])
     ∧ _validate_vocabulary (Some (VocabIterable terms))
       = Raise (ValueError InvalidVocabulary)).
Proof.
  pose proof (sorted_Permutation terms) as Hp.
  unfold _validate_vocabulary.
  destruct (decide (NoDup terms)) as [Hnd|Hnd].
  - destruct (enumerate_setdefault_ok (sorted terms) 0 ∅) as (r & Hr & Hsz & Hlook).
    + intros t j. by rewrite lookup_empty.
    + by rewrite Hp.
    + intros t _. apply lookup_empty.
    + rewrite Hr. cbn. rewrite map_size_empty, Hp in Hsz. simpl in Hsz.
      destruct terms as [|t0 terms'].
      * right. split; [by right|]. by rewrite bool_decide_eq_true_2.
      * left. split; [done|]. split; [done|].
        rewrite bool_decide_eq_false_2 by (rewrite Hsz; done).
        exists r. split; [done|]. split; [done|].
        intros t j. rewrite Hlook, lookup_empty. split.
        -- intros [?|(k & Hk & ->)]; [done|]. exists k. split; [done|lia].
        -- intros (k & Hk & ->). right. exists k. split; [done|lia].
  - right. split; [by left|].
    rewrite enumerate_setdefault_raise; [done| |].
    + intros t j. by rewrite lookup_empty.
    + intros [H _]. apply Hnd. by rewrite <- Hp.
Qed.

(** C6. [_validate_vocabulary] raises [InvalidVocabulary] exactly when a
    supplied mapping has ids that are not unique or not compact over
    [0, size), when a supplied iterable holds a term twice, or when the
    supplied vocabulary is empty; it raises nothing else. A valid mapping is
    returned as it is; a valid iterable becomes the mapping that gives the
    [k]-th term of the sorted iterable the id [k]. The result is marked fixed
    exactly when an input was supplied. *)
Theorem validate_vocabulary_spec :
  (∀ m, _validate_vocabulary (Some (VocabMapping m))
          = Raise (ValueError InvalidVocabulary)
        ↔ ¬ ids_unique m ∨ ¬ ids_compact m ∨ size m = 0%nat)
  ∧ (∀ m, _validate_vocabulary (Some (VocabMapping m)) = Ok (Some m, true)
          ↔ ids_unique m ∧ ids_compact m ∧ size m ≠ 0%nat)
  ∧ (∀ terms, _validate_vocabulary (Some (VocabIterable terms))
                = Raise (ValueError InvalidVocabulary)
              ↔ ¬ NoDup terms ∨ terms = [])
  ∧ (∀ terms, NoDup terms ∧ terms ≠ [] ↔
       ∃ v, _validate_vocabulary (Some (VocabIterable terms)) = Ok (Some v, true)
            ∧ size v = length terms
            ∧ (∀ t j, v !! t = Some j ↔
                      ∃ k, sorted terms !! k = Some t ∧ j = Z.of_nat k))
  ∧ (∀ terms, sorted terms ≡ₚ terms ∧ StronglySorted str_le (sorted terms))
  ∧ _validate_vocabulary None = Ok (None, false)
  ∧ (∀ input v is_fixed, _validate_vocabulary input = Ok (v, is_fixed) →
       (is_fixed = true ↔ input ≠ None) ∧ (is_Some v ↔ input ≠ None))
  ∧ (∀ input e, _validate_vocabulary input = Raise e →
       e = ValueError InvalidVocabulary).
Proof.
  refine (conj _ (conj _ (conj _ (conj _ (conj _ (conj _ (conj _ _))))))).
  - intros m. destruct (validate_mapping_cases m) as [(Hu & Hc & Hz & ->)|[Hbad ->]].
    + split; [done|]. tauto.
    + tauto.
  - intros m. destruct (validate_mapping_cases m) as [(Hu & Hc & Hz & ->)|[Hbad ->]].
    + tauto.
    + split; [done|]. tauto.
  - intros terms.
    destruct (validate_iterable_cases terms)
      as [(Hnd & Hne & v & -> & _)|[Hbad ->]].
    + split; [done|]. tauto.
    + tauto.
  - intros terms.
    destruct (validate_iterable_cases terms)
      as [(Hnd & Hne & v & Hv & Hrest)|[Hbad Hv]].
    + split; [|done]. intros _. exists v. by rewrite Hv.
    + split; [tauto|]. intros (v & Hv' & _). congruence.
  - intros terms. split; [apply sorted_Permutation|apply sorted_StronglySorted].
  - done.
  - intros [[m|terms]|] v is_fixed H.
    + destruct (validate_mapping_cases m) as [(_ & _ & _ & Hv)|[_ Hv]];
        rewrite Hv in H; [|done]. injection H as <- <-. split; split; eauto.
    + destruct (validate_iterable_cases terms)
        as [(_ & _ & v' & Hv & _)|[_ Hv]]; rewrite Hv in H; [|done].
      injection H as <- <-. split; split; eauto.
    + injection H as <- <-. split; split; first [done | by intros [? ?]].
  - intros [[m|terms]|] e H.
    + destruct (validate_mapping_cases m) as [(_ & _ & _ & Hv)|[_ Hv]];
        rewrite Hv in H; [done|congruence].
    + destruct (validate_iterable_cases terms)
        as [(_ & _ & v' & Hv & _)|[_ Hv]]; rewrite Hv in H; [done|congruence].
    + done.
Qed.

(** * The inverse mapping [id_to_term] *)

Lemma py_ne_len_vocabulary (n : Z) (v : option (gmap string Z)) :
  py_ne (ObjInt n) (obj_of_vocabulary v) = true.
Proof. by destruct v. Qed.

Lemma invert_foldl_lookup (l : list (string * Z)) : ∀ (acc : gmap Z string) i t,
  NoDup (l.*2) →
  foldl (fun acc '(term_str, term_id) => <[term_id := term_str]> acc) acc l !! i
    = Some t
  ↔ (t, i) ∈ l ∨ (acc !! i = Some t ∧ i ∉ l.*2).
Proof.
  induction l as [|[t0 i0] l IH]; intros acc i t Hnd; simpl.
  - split; [intros H; right; split; [done|apply not_elem_of_nil]|].
    intros [H|[H _]]; [by apply elem_of_nil in H|done].
  - apply NoDup_cons in Hnd as [Hi0 Hnd]. rewrite IH by done.
    rewrite lookup_insert, elem_of_cons, not_elem_of_cons. split.
    + intros [H|[H Hni]]; [by left; right|]. case_decide as Hd.
      * injection H as ->. subst i0. by left; left.
      * right. done.
    + intros [[H|H]|[H [Hne Hni]]].
      * injection H as -> ->. right. by rewrite decide_True.
      * by left.
      * right. split; [|done]. by rewrite decide_False.
Qed.

(** On a vocabulary with unique ids, [invert_vocabulary] is the inverse. *)
Lemma invert_vocabulary_lookup (v : gmap string Z) i t :
  ids_unique v → (invert_vocabulary v !! i = Some t ↔ v !! t = Some i).
Proof.
  intros Hu. unfold invert_vocabulary.
  rewrite invert_foldl_lookup by (by apply values_NoDup_iff).
  rewrite elem_of_map_to_list, lookup_empty. naive_solver.
Qed.

(** C8. Reading [id_to_term] on an instance that has a vocabulary never
    returns the cached mapping: the test [len(self.id_to_term_) !=
    self.vocabulary_terms] compares an integer with a mapping and so always
    holds, and the inverse is rebuilt from the vocabulary at every read,
    whatever the cache holds and whatever its size. *)
Theorem id_to_term_rebuilt_at_every_read (self : Vectorizer) (v : gmap string Z) :
  vocabulary_terms self = Some v →
  id_to_term self
  = (set_id_to_term_ self (invert_vocabulary v), Ok (invert_vocabulary v)).
Proof.
  intros Hv. unfold id_to_term. rewrite py_ne_len_vocabulary, Hv. done.
Qed.

(** A cache of the size of the vocabulary, but stale, is not reused. *)
Lemma id_to_term_rebuilt_at_every_read_witness :
  let self := mkVectorizer "tf" false false true (PyInt 1) (PyFloat 1) 0 None
                (Some {["a" := 0]}) true {[0 := "zzz"%string]} in
  size (id_to_term_ self) = size ({["a" := 0]} : gmap string Z)
  ∧ (id_to_term self).2 = Ok {[0 := "a"%string]}.
Proof.
  intros self. split; [reflexivity|].
  rewrite (id_to_term_rebuilt_at_every_read self {["a" := 0]}); reflexivity.
Defined.

(** * Counting terms *)

Lemma offsets_from_length {A} (rows : list (list A)) a :
  length (offsets_from a rows) = S (length rows).
Proof. revert a. induction rows as [|r rows IH]; intros a; simpl; [done|]. by rewrite IH. Qed.

Lemma offsets_from_snoc {A} (rows : list (list A)) r a :
  offsets_from a (rows ++ [r])
  = offsets_from a rows ++ [(a + length (concat rows) + length r)%nat].
Proof.
  revert a. induction rows as [|r0 rows IH]; intros a; simpl.
  - do 2 f_equal. lia.
  - rewrite IH, length_app. do 3 f_equal. lia.
Qed.

Lemma offsets_from_head {A} (rows : list (list A)) a :
  nth 0 (offsets_from a rows) 0%nat = a.
Proof. by destruct rows. Qed.

Lemma slice_app_exact {A} (pre x rest : list A) (a n : nat) :
  length pre = a → length x = n → slice (pre ++ x ++ rest) a (a + n) = x.
Proof.
  intros <- <-. unfold slice. rewrite drop_app_length.
  replace (length pre + length x - length pre)%nat with (length x) by lia.
  by rewrite take_app_length.
Qed.

Lemma csr_rows_of_arrays {A} (rows : list (list (Z * A))) :
  ∀ (a : nat) (pre_i : list Z) (pre_d : list A),
    length pre_i = a → length pre_d = a →
    map (fun i =>
           zip (slice (pre_i ++ (concat rows).*1)
                      (nth i (offsets_from a rows) 0%nat)
                      (nth (S i) (offsets_from a rows) 0%nat))
               (slice (pre_d ++ (concat rows).*2)
                      (nth i (offsets_from a rows) 0%nat)
                      (nth (S i) (offsets_from a rows) 0%nat)))
        (seq 0 (length rows))
    = rows.
Proof.
  induction rows as [|r rows IH]; intros a pre_i pre_d Hi Hd; [done|].
  simpl length. rewrite <- cons_seq, <- fmap_S_seq. simpl map at 1.
  rewrite <- list_fmap_compose. f_equal.
  - cbn [offsets_from nth concat]. rewrite offsets_from_head, !fmap_app.
    rewrite !slice_app_exact by (by rewrite ?length_fmap).
    apply zip_fst_snd.
  - rewrite <- (IH (a + length r)%nat (pre_i ++ r.*1) (pre_d ++ r.*2)) at 2.
    + apply map_ext. intros i. simpl. rewrite !fmap_app, <- !app_assoc. done.
    + rewrite length_app, length_fmap. lia.
    + rewrite length_app, length_fmap. lia.
Qed.

Lemma csr_of_arrays_rows {A} (rows : list (list (Z * A))) (n : nat) :
  csr_of_arrays (concat rows).*2 (concat rows).*1 (offsets_from 0 rows)
                ((length (offsets_from 0 rows) - 1)%nat, n)
  = CSR rows n.
Proof.
  unfold csr_of_arrays. simpl. rewrite offsets_from_length.
  replace (S (length rows) - 1)%nat with (length rows) by lia.
  f_equal. apply (csr_rows_of_arrays rows 0%nat [] []); done.
Qed.

Lemma row_get_not_in (row : list (Z * Z)) j : j ∉ row.*1 → row_get row j = 0.
Proof.
  induction row as [|[k c] row IH]; simpl; [done|].
  rewrite not_elem_of_cons. intros [Hne Hni].
  rewrite bool_decide_eq_false_2 by done. by apply IH.
Qed.

Lemma row_get_Permutation (row row' : list (Z * Z)) j :
  row ≡ₚ row' → row_get row j = row_get row' j.
Proof.
  induction 1 as [|x l l' _ IH|x y l|l l' l'' _ IH1 _ IH2]; simpl.
  - done.
  - by rewrite IH.
  - repeat case_bool_decide; lia.
  - congruence.
Qed.

Lemma row_get_NoDup (row : list (Z * Z)) j :
  NoDup row.*1 →
  row_get row j = default 0 ((list_to_map row : gmap Z Z) !! j).
Proof.
  induction row as [|[k c] row IH]; simpl; intros Hnd; [done|].
  apply NoDup_cons in Hnd as [Hk Hnd]. rewrite lookup_insert.
  case_bool_decide as Hd; simpl in Hd.
  - subst k. rewrite decide_True by done. simpl.
    rewrite row_get_not_in by done. lia.
  - rewrite decide_False by done. by apply IH.
Qed.

Lemma row_get_map_to_list (term_counter : gmap Z Z) j :
  row_get (map_to_list term_counter) j = default 0 (term_counter !! j).
Proof.
  rewrite row_get_NoDup by apply NoDup_fst_map_to_list.
  by rewrite list_to_map_to_list.
Qed.

Lemma tokens_with_id_snoc v j doc x :
  tokens_with_id v j (doc ++ [x])
  = tokens_with_id v j doc + (if decide (v !! x = Some j) then 1 else 0).
Proof.
  unfold tokens_with_id. rewrite filter_app, length_app.
  rewrite filter_cons, filter_nil. case_decide; simpl; lia.
Qed.

Lemma tokens_with_id_ext v v' j doc :
  (∀ t, t ∈ doc → v' !! t = v !! t) →
  tokens_with_id v' j doc = tokens_with_id v j doc.
Proof.
  intros H. unfold tokens_with_id. do 2 f_equal.
  induction doc as [|x doc IH]; [done|].
  rewrite !filter_cons, (H x) by (by left).
  rewrite IH; [done|]. intros t Ht. apply H. by right.
Qed.

Lemma tokens_with_id_unique v j t doc :
  ids_unique v → v !! t = Some j → tokens_with_id v j doc = occurrences t doc.
Proof.
  intros Hu Ht. unfold tokens_with_id, occurrences. do 2 f_equal.
  induction doc as [|x doc IH]; [done|].
  rewrite !filter_cons, IH. destruct (decide (x = t)) as [->|Hne].
  - by rewrite decide_True.
  - rewrite decide_False; [done|]. intros Hx. apply Hne. eauto.
Qed.

Lemma incr_lookup tc k j :
  default 0 (incr tc k !! j)
  = default 0 (tc !! j) + (if decide (k = j) then 1 else 0).
Proof.
  unfold incr. rewrite lookup_insert. case_decide; [subst; simpl|]; lia.
Qed.

Lemma count_term_counter_ok fixed_vocab v tc seen x :
  counter_ok v tc seen →
  (fixed_vocab = false → ∀ t, t ∈ seen → is_Some (v !! t)) →
  counter_ok (count_term fixed_vocab (v, tc) x).1
             (count_term fixed_vocab (v, tc) x).2 (seen ++ [x]).
Proof.
  intros Hc Hopen j. unfold count_term.
  destruct (v !! x) as [jx|] eqn:Hx; simpl.
  - rewrite incr_lookup, tokens_with_id_snoc, Hc, Hx.
    repeat case_decide; congruence || lia.
  - destruct fixed_vocab; simpl.
    + rewrite tokens_with_id_snoc, Hc, Hx. rewrite decide_False by done. lia.
    + pose proof (Hopen eq_refl) as Hseen.
      rewrite incr_lookup, tokens_with_id_snoc, lookup_insert_eq.
      rewrite (tokens_with_id_ext v).
      * rewrite Hc. repeat case_decide; congruence || lia.
      * intros t Ht. rewrite lookup_insert_ne; [done|]. intros <-.
        apply Hseen in Ht as [? ?]. congruence.
Qed.

Lemma first_seen_ids_empty : first_seen_ids ∅ [].
Proof.
  split.
  - intros t. rewrite lookup_empty. split; [by intros [? ?]|by intros ?%elem_of_nil].
  - intros t j. by rewrite lookup_empty.
  - intros [|? ?] ? ? ?; done.
  - done.
  - intros t1 t2 i. by rewrite lookup_empty.
Qed.

Lemma app_snoc_split {A} (pre post ts : list A) (t x : A) :
  ts ++ [x] = pre ++ t :: post →
  (post = [] ∧ pre = ts ∧ t = x) ∨ (∃ post', post = post' ++ [x] ∧ ts = pre ++ t :: post').
Proof.
  destruct post as [|y post _] using rev_ind.
  - intros H. apply app_inj_tail in H as [-> ->]. by left.
  - intros H. right. exists post. rewrite app_comm_cons, app_assoc in H.
    apply app_inj_tail in H as [-> ->]. done.
Qed.

Lemma count_term_first_seen v tc ts x :
  first_seen_ids v ts →
  first_seen_ids (count_term false (v, tc) x).1 (ts ++ [x]).
Proof.
  intros [Hdom Hrange Hfirst Hsize Huniq]. unfold count_term.
  destruct (v !! x) as [jx|] eqn:Hx; simpl.
  - assert (x ∈ ts) as Hin by (apply Hdom; eauto).
    assert (list_to_set (ts ++ [x]) = (list_to_set ts : gset string)) as Hset.
    { rewrite list_to_set_app_L. simpl. set_solver. }
    split; try done.
    + intros t. rewrite Hdom, elem_of_app, list_elem_of_singleton. naive_solver.
    + intros pre t post Heq Hni.
      apply app_snoc_split in Heq as [(-> & -> & ->)|(post' & -> & ->)]; [done|].
      by eapply Hfirst.
    + by rewrite Hset.
  - assert (x ∉ ts) as Hni.
    { intros Hin. apply Hdom in Hin as [? ?]. congruence. }
    assert (size (list_to_set (ts ++ [x]) : gset string) = S (size v)) as Hset.
    { rewrite list_to_set_app_L, size_union by set_solver.
      rewrite <- Hsize, list_to_set_singleton, size_singleton. lia. }
    split.
    + intros t. rewrite lookup_insert, elem_of_app, list_elem_of_singleton.
      case_decide; [subst; split; eauto|]. rewrite Hdom. naive_solver.
    + intros t j. rewrite map_size_insert_None, lookup_insert by done.
      case_decide; [intros [= <-]; lia|]. intros Ht%Hrange. lia.
    + intros pre t post Heq Hnp.
      apply app_snoc_split in Heq as [(-> & -> & ->)|(post' & -> & ->)].
      * rewrite lookup_insert_eq, Hsize. done.
      * rewrite lookup_insert_ne.
        -- by eapply Hfirst.
        -- intros ->. apply Hni. rewrite elem_of_app. right. by left.
    + rewrite map_size_insert_None by done. done.
    + intros t1 t2 i. rewrite !lookup_insert.
      repeat case_decide; subst; intros H1 H2; simplify_eq; eauto;
        match goal with H : v !! _ = Some _ |- _ => apply Hrange in H; lia end.
Qed.

Lemma first_seen_ids_agree v v' ts more :
  first_seen_ids v ts → first_seen_ids v' (ts ++ more) →
  ∀ t, t ∈ ts → v' !! t = v !! t.
Proof.
  intros Hv Hv' t Hin.
  apply list_elem_of_split_l in Hin as (pre & post & -> & Hni).
  rewrite (fs_first _ _ Hv pre t post) by done.
  rewrite (fs_first _ _ Hv' pre t (post ++ more)); [done| |done].
  by rewrite <- app_assoc.
Qed.

Lemma counter_ok_empty v : counter_ok v ∅ [].
Proof. intros j. by rewrite lookup_empty. Qed.

Lemma count_terms_fold_open (doc : list string) : ∀ v tc ts seen,
  first_seen_ids v (ts ++ seen) → counter_ok v tc seen →
  ∃ v' tc', foldl (count_term false) (v, tc) doc = (v', tc')
            ∧ first_seen_ids v' (ts ++ seen ++ doc)
            ∧ counter_ok v' tc' (seen ++ doc).
Proof.
  induction doc as [|x doc IH]; intros v tc ts seen Hv Hc.
  - exists v, tc. by rewrite !app_nil_r.
  - cbn [foldl].
    pose proof (count_term_first_seen v tc _ x Hv) as Hv1.
    pose proof (count_term_counter_ok false v tc seen x Hc) as Hc1.
    destruct (count_term false (v, tc) x) as [v1 tc1]. simpl in Hv1, Hc1.
    rewrite <- app_assoc in Hv1.
    destruct (IH v1 tc1 ts (seen ++ [x]) Hv1) as (v' & tc' & Hf & Hv' & Hc').
    + apply Hc1. intros _ t Ht. apply (fs_dom _ _ Hv).
      rewrite elem_of_app. by right.
    + exists v', tc'. rewrite <- !app_assoc in Hv', Hc'. done.
Qed.

Lemma count_terms_fold_fixed (doc : list string) : ∀ v tc seen,
  counter_ok v tc seen →
  ∃ tc', foldl (count_term true) (v, tc) doc = (v, tc')
         ∧ counter_ok v tc' (seen ++ doc).
Proof.
  induction doc as [|x doc IH]; intros v tc seen Hc.
  - exists tc. by rewrite !app_nil_r.
  - cbn [foldl].
    pose proof (count_term_counter_ok true v tc seen x Hc) as Hc1.
    assert ((count_term true (v, tc) x).1 = v) as Hv1.
    { unfold count_term. by destruct (v !! x). }
    destruct (count_term true (v, tc) x) as [v1 tc1]. simpl in Hv1, Hc1. subst v1.
    destruct (IH v tc1 (seen ++ [x])) as (tc' & Hf & Hc'); [by apply Hc1|].
    exists tc'. rewrite <- !app_assoc in Hc'. done.
Qed.

Lemma row_ok_agree (v v' : gmap string Z) rows done :
  Forall2 (row_ok v) rows done →
  (∀ t, t ∈ concat done → v' !! t = v !! t) →
  Forall2 (row_ok v') rows done.
Proof.
  induction 1 as [|row d rows done Hrow _ IH]; intros Hagree; constructor.
  - intros j. rewrite Hrow. symmetry. apply tokens_with_id_ext.
    intros t Ht. apply Hagree. simpl. rewrite elem_of_app. by left.
  - apply IH. intros t Ht. apply Hagree. simpl. rewrite elem_of_app. by right.
Qed.

Lemma count_doc_arrays (rows : list (list (Z * Z))) (row : list (Z * Z)) :
  ((concat rows).*2 ++ row.*2 = (concat (rows ++ [row])).*2)
  ∧ ((concat rows).*1 ++ row.*1 = (concat (rows ++ [row])).*1)
  ∧ (offsets_from 0 rows ++ [length ((concat rows).*1 ++ row.*1)]
     = offsets_from 0 (rows ++ [row])).
Proof.
  rewrite concat_app, !fmap_app. simpl. rewrite app_nil_r.
  split; [done|]. split; [done|].
  rewrite offsets_from_snoc, length_app, !length_fmap. done.
Qed.

Lemma count_docs_fold_open (docs : list (list string)) : ∀ v rows done,
  first_seen_ids v (concat done) → Forall2 (row_ok v) rows done →
  ∃ v' rows',
    foldl (count_doc false)
          (v, (concat rows).*2, (concat rows).*1, offsets_from 0 rows) docs
    = (v', (concat rows').*2, (concat rows').*1, offsets_from 0 rows')
    ∧ first_seen_ids v' (concat (done ++ docs))
    ∧ Forall2 (row_ok v') rows' (done ++ docs).
Proof.
  induction docs as [|doc docs IH]; intros v rows done Hv Hrows.
  - exists v, rows. by rewrite app_nil_r.
  - cbn [foldl]. unfold count_doc at 2.
    destruct (count_terms_fold_open doc v ∅ (concat done) [])
      as (v1 & tc1 & -> & Hv1 & Hc1).
    { by rewrite app_nil_r. }
    { apply counter_ok_empty. }
    simpl in Hv1, Hc1.
    destruct (count_doc_arrays rows (map_to_list tc1)) as (-> & -> & ->).
    destruct (IH v1 (rows ++ [map_to_list tc1]) (done ++ [doc]))
      as (v' & rows' & Hf & Hv' & Hrows').
    + rewrite concat_app. simpl. by rewrite app_nil_r.
    + apply Forall2_app.
      * eapply row_ok_agree; [exact Hrows|]. intros t Ht.
        by eapply first_seen_ids_agree.
      * constructor; [|constructor]. intros j. by rewrite row_get_map_to_list.
    + exists v', rows'. rewrite <- app_assoc in Hv', Hrows'. done.
Qed.

Lemma count_docs_fold_fixed (docs : list (list string)) : ∀ (v : gmap string Z) rows done,
  Forall2 (row_ok v) rows done →
  ∃ rows',
    foldl (count_doc true)
          (v, (concat rows).*2, (concat rows).*1, offsets_from 0 rows) docs
    = (v, (concat rows').*2, (concat rows').*1, offsets_from 0 rows')
    ∧ Forall2 (row_ok v) rows' (done ++ docs).
Proof.
  induction docs as [|doc docs IH]; intros v rows done Hrows.
  - exists rows. by rewrite app_nil_r.
  - cbn [foldl]. unfold count_doc at 2.
    destruct (count_terms_fold_fixed doc v ∅ []) as (tc1 & -> & Hc1).
    { apply counter_ok_empty. }
    simpl in Hc1.
    destruct (count_doc_arrays rows (map_to_list tc1)) as (-> & -> & ->).
    destruct (IH v (rows ++ [map_to_list tc1]) (done ++ [doc]))
      as (rows' & Hf & Hrows').
    + apply Forall2_app; [done|].
      constructor; [|constructor]. intros j. by rewrite row_get_map_to_list.
    + exists rows'. rewrite <- app_assoc in Hrows'. done.
Qed.

Lemma get_sort_indices (m : csr_matrix Z) i j :
  get (sort_indices m) i j = get m i j.
Proof.
  unfold get, sort_indices. simpl.
  change [] with (merge_sort (@col_le Z) []) at 1. rewrite map_nth.
  apply row_get_Permutation, merge_sort_Permutation.
Qed.

Lemma rows_get (rows : list (list (Z * Z))) (docs : list (list string)) v n :
  Forall2 (row_ok v) rows docs →
  ∀ i doc j, docs !! i = Some doc → get (CSR rows n) i j = tokens_with_id v j doc.
Proof.
  intros Hrows i doc j Hdoc.
  destruct (Forall2_lookup_r _ _ _ _ _ Hrows Hdoc) as (row & Hrow & Hok).
  unfold get. simpl. rewrite (nth_lookup_Some _ _ _ _ Hrow). apply Hok.
Qed.

Lemma count_terms_open (self : Vectorizer) (docs : list (list string)) :
  ∃ m v, _count_terms self docs false = Ok (m, v)
         ∧ first_seen_ids v (concat docs)
         ∧ n_rows m = length docs ∧ n_cols m = size v
         ∧ ∀ i doc j, docs !! i = Some doc → get m i j = tokens_with_id v j doc.
Proof.
  unfold _count_terms. cbn [mbind result_bind].
  destruct (count_docs_fold_open docs ∅ [] []) as (v & rows & Hf & Hv & Hrows).
  { apply first_seen_ids_empty. }
  { constructor. }
  simpl in Hf, Hv, Hrows. rewrite Hf, csr_of_arrays_rows.
  eexists _, _. split; [done|]. split; [done|].
  split; [|split; [done|]].
  - unfold n_rows, sort_indices. simpl. rewrite length_map.
    by eapply Forall2_length.
  - intros i doc j Hdoc. rewrite get_sort_indices. by eapply rows_get.
Qed.

Lemma count_terms_fixed (self : Vectorizer) (docs : list (list string)) v :
  vocabulary_terms self = Some v →
  ∃ m, _count_terms self docs true = Ok (m, v)
       ∧ n_rows m = length docs ∧ n_cols m = size v
       ∧ ∀ i doc j, docs !! i = Some doc → get m i j = tokens_with_id v j doc.
Proof.
  intros Hself. unfold _count_terms. rewrite Hself. cbn [mbind result_bind].
  destruct (count_docs_fold_fixed docs v [] []) as (rows & Hf & Hrows).
  { constructor. }
  simpl in Hf, Hrows. rewrite Hf, csr_of_arrays_rows.
  eexists. split; [done|].
  split; [|split; [done|]].
  - unfold n_rows, sort_indices. simpl. rewrite length_map.
    by eapply Forall2_length.
  - intros i doc j Hdoc. rewrite get_sort_indices. by eapply rows_get.
Qed.

Lemma count_term_fixed_out_of_vocabulary (v : gmap string Z) tc doc :
  foldl (count_term true) (v, tc) (filter (fun t => is_Some (v !! t)) doc)
  = foldl (count_term true) (v, tc) doc.
Proof.
  revert tc. induction doc as [|x doc IH]; intros tc; [done|].
  rewrite filter_cons. cbn [foldl].
  assert (∃ tc', count_term true (v, tc) x = (v, tc')
                 ∧ (v !! x = None → tc' = tc)) as (tc' & Hstep & Hskip).
  { unfold count_term.
    destruct (v !! x); (eexists; split; [reflexivity|]); [discriminate|done]. }
  destruct (v !! x) as [j|] eqn:Hx.
  - rewrite decide_True by eauto. cbn [foldl]. rewrite Hstep. apply IH.
  - rewrite decide_False by (by intros [? ?]). rewrite Hstep, Hskip by done.
    apply IH.
Qed.

Lemma count_terms_fixed_out_of_vocabulary self v docs :
  vocabulary_terms self = Some v →
  _count_terms self (map (filter (fun t => is_Some (v !! t))) docs) true
  = _count_terms self docs true.
Proof.
  intros Hv. unfold _count_terms. rewrite Hv. cbn [mbind result_bind].
  assert (∀ st, foldl (count_doc true) st
                  (map (filter (fun t => is_Some (v !! t))) docs)
                = foldl (count_doc true) st docs
                ∨ st.1.1.1 ≠ v) as H.
  { induction docs as [|doc docs IH]; intros [[[v0 d] i] p]; [by left|].
    destruct (decide (v0 = v)) as [->|Hne]; [left|by right].
    cbn [map foldl]. unfold count_doc at 2 4.
    rewrite count_term_fixed_out_of_vocabulary.
    destruct (count_terms_fold_fixed doc v ∅ []) as (tc' & -> & _).
    { apply counter_ok_empty. }
    destruct (IH (v, d ++ (map_to_list tc').*2, i ++ (map_to_list tc').*1,
                  p ++ [length (i ++ (map_to_list tc').*1)])) as [->|Hne];
      done. }
  destruct (H (v, [], [], [0%nat])) as [->|Hne]; done.
Qed.

Lemma count_docs_fold_empty (n : nat) : ∀ (v : gmap string Z) d i p,
  foldl (count_doc true) (v, d, i, p) (repeat [] n)
  = (v, d, i, p ++ repeat (length i) n).
Proof.
  induction n as [|n IH]; intros v d i p; simpl.
  - by rewrite app_nil_r.
  - rewrite map_to_list_empty. simpl. rewrite !app_nil_r, IH.
    by rewrite <- app_assoc.
Qed.

Lemma filter_none {A} (P : A → Prop) `{!∀ x, Decision (P x)} (l : list A) :
  (∀ x, x ∈ l → ¬ P x) → filter P l = [].
Proof.
  induction l as [|x l IH]; intros Hl; [done|].
  rewrite filter_cons, decide_False by (apply Hl; by left).
  apply IH. intros y Hy. apply Hl. by right.
Qed.

(** Documents without any in-vocabulary term are counted into a matrix
    without stored entries. *)
Lemma count_terms_no_known_term self v docs :
  vocabulary_terms self = Some v →
  (∀ doc t, doc ∈ docs → t ∈ doc → v !! t = None) →
  ∃ m, _count_terms self docs true = Ok (m, v)
       ∧ nnz m = 0%nat ∧ n_rows m = length docs ∧ n_cols m = size v.
Proof.
  intros Hv Hoov.
  rewrite <- (count_terms_fixed_out_of_vocabulary self v docs Hv).
  assert (map (filter (fun t => is_Some (v !! t))) docs
          = repeat [] (length docs)) as ->.
  { induction docs as [|doc docs IH]; [done|]. simpl. f_equal.
    - apply filter_none. intros t Ht [j Hj].
      rewrite (Hoov doc t) in Hj; [done|by left|done].
    - apply IH. intros doc' t Hd Ht. apply (Hoov doc' t); [by right|done]. }
  unfold _count_terms. rewrite Hv. cbn [mbind result_bind].
  rewrite count_docs_fold_empty. eexists. split; [reflexivity|].
  unfold csr_of_arrays, sort_indices, nnz, n_rows. cbn [mrows n_cols fst snd].
  rewrite length_app, repeat_length. simpl length.
  replace (1 + length docs - 1)%nat with (length docs) by lia.
  rewrite !length_map, length_seq. split; [|split; [lia|done]].
  rewrite <- list_fmap_compose. apply length_zero_iff_nil.
  induction (seq 0 _) as [|i l IH]; [done|].
  cbn [fmap list_fmap concat]. rewrite IH, app_nil_r. cbn [compose].
  unfold slice. by rewrite !drop_nil, !take_nil.
Qed.

(** ** Count matrices are in canonical form *)

(** Unique ids below the size of the vocabulary leave no gap. *)
Lemma ids_unique_range_compact (v : gmap string Z) :
  ids_unique v → (∀ t j, v !! t = Some j → 0 ≤ j < Z.of_nat (size v)) →
  ids_compact v.
Proof.
  intros Hu Hr.
  assert (values_set v = list_to_set (seqZ 0 (Z.of_nat (size v)))) as Heq.
  { apply set_subseteq_size_eq.
    - intros j (t & Ht)%elem_of_values_set. apply elem_of_list_to_set, elem_of_seqZ.
      apply Hr in Ht. lia.
    - rewrite size_list_to_set by apply NoDup_seqZ.
      rewrite length_seqZ, Nat2Z.id. by rewrite (proj2 (values_unique_iff v) Hu). }
  intros j Hj. apply elem_of_values_set. rewrite Heq.
  apply elem_of_list_to_set, elem_of_seqZ. lia.
Qed.

Lemma vocabulary_of_width_size (v : gmap string Z) :
  ids_unique v → (∀ t j, v !! t = Some j → 0 ≤ j < Z.of_nat (size v)) →
  vocabulary_of_width (size v) v.
Proof.
  intros Hu Hr. split; [done|]. split; [done|].
  by apply ids_unique_range_compact.
Qed.

Lemma first_seen_ids_width (v : gmap string Z) ts :
  first_seen_ids v ts → vocabulary_of_width (size v) v.
Proof. intros H. apply vocabulary_of_width_size; apply H. Qed.

Lemma keys_known_weaken (v v' : gmap string Z) keys :
  v ⊆ v' → keys_known v keys → keys_known v' keys.
Proof.
  intros Hsub Hk. eapply Forall_impl; [exact Hk|]. intros j [t Ht]. exists t.
  by eapply lookup_weaken.
Qed.

Lemma count_term_grows fixed_vocab (v : gmap string Z) tc x :
  v ⊆ (count_term fixed_vocab (v, tc) x).1.
Proof.
  unfold count_term. destruct (v !! x) eqn:Hx; [done|].
  destruct fixed_vocab; [done|]. simpl. by apply insert_subseteq.
Qed.

Lemma count_term_keys fixed_vocab (v : gmap string Z) (tc : gmap Z Z) x :
  (∀ j, is_Some (tc !! j) → ∃ t, v !! t = Some j) →
  ∀ j, is_Some ((count_term fixed_vocab (v, tc) x).2 !! j) →
       ∃ t, (count_term fixed_vocab (v, tc) x).1 !! t = Some j.
Proof.
  intros Hk j. pose proof (count_term_grows fixed_vocab v tc x) as Hsub.
  unfold count_term in *. destruct (v !! x) as [jx|] eqn:Hx; simpl in *.
  - unfold incr. rewrite lookup_insert. case_decide; [subst; eauto|]. apply Hk.
  - destruct fixed_vocab; simpl in *; [apply Hk|].
    unfold incr. rewrite lookup_insert. case_decide.
    + subst. intros _. exists x. by rewrite lookup_insert_eq.
    + intros [t Ht]%Hk. exists t. by eapply lookup_weaken.
Qed.

Lemma count_terms_fold_keys fixed_vocab (doc : list string) :
  ∀ (v : gmap string Z) (tc : gmap Z Z),
    (∀ j, is_Some (tc !! j) → ∃ t, v !! t = Some j) →
    v ⊆ (foldl (count_term fixed_vocab) (v, tc) doc).1
    ∧ ∀ j, is_Some ((foldl (count_term fixed_vocab) (v, tc) doc).2 !! j) →
           ∃ t, (foldl (count_term fixed_vocab) (v, tc) doc).1 !! t = Some j.
Proof.
  induction doc as [|x doc IH]; intros v tc Hk; [done|].
  cbn [foldl].
  pose proof (count_term_grows fixed_vocab v tc x) as Hsub.
  pose proof (count_term_keys fixed_vocab v tc x Hk) as Hk1.
  destruct (count_term fixed_vocab (v, tc) x) as [v1 tc1]. simpl in *.
  destruct (IH v1 tc1 Hk1) as [Hsub' Hk']. split; [|done].
  by etrans.
Qed.

Lemma count_docs_fold_canonical fixed_vocab (docs : list (list string)) :
  ∀ (v : gmap string Z) (rows : list (list (Z * Z))),
    Forall (row_canonical v) rows →
    ∃ v' rows',
      foldl (count_doc fixed_vocab)
            (v, (concat rows).*2, (concat rows).*1, offsets_from 0 rows) docs
      = (v', (concat rows').*2, (concat rows').*1, offsets_from 0 rows')
      ∧ v ⊆ v' ∧ Forall (row_canonical v') rows'.
Proof.
  induction docs as [|doc docs IH]; intros v rows Hrows.
  - exists v, rows. done.
  - cbn [foldl]. unfold count_doc at 2.
    destruct (count_terms_fold_keys fixed_vocab doc v ∅) as [Hsub Hk].
    { intros j. rewrite lookup_empty. by intros [? ?]. }
    destruct (foldl (count_term fixed_vocab) (v, ∅) doc) as [v1 tc1].
    simpl in Hsub, Hk.
    destruct (count_doc_arrays rows (map_to_list tc1)) as (-> & -> & ->).
    destruct (IH v1 (rows ++ [map_to_list tc1])) as (v' & rows' & Hf & Hsub' & Hr').
    + apply Forall_app. split.
      * eapply Forall_impl; [exact Hrows|]. intros row [Hnd Hkn].
        split; [done|]. by eapply keys_known_weaken.
      * constructor; [|constructor]. split; [apply NoDup_fst_map_to_list|].
        apply Forall_forall. intros j Hj. apply Hk.
        apply list_elem_of_fmap in Hj as ([j' c] & -> & Hin).
        apply elem_of_map_to_list in Hin. simpl. eauto.
    + exists v', rows'. split; [done|]. split; [by etrans|done].
Qed.

Lemma count_terms_canonical (self : Vectorizer) (docs : list (list string))
  (fixed_vocab : bool) (m : csr_matrix Z) (v : gmap string Z) :
  _count_terms self docs fixed_vocab = Ok (m, v) →
  (∀ t j, v !! t = Some j → 0 ≤ j < Z.of_nat (size v)) →
  indices_in_range m ∧ rows_unique m.
Proof.
  unfold _count_terms.
  destruct (if fixed_vocab then _ else _) as [v0|] eqn:Hv0; [|done].
  cbn [mbind result_bind].
  destruct (count_docs_fold_canonical fixed_vocab docs v0 [])
    as (v' & rows & Hf & _ & Hrows); [constructor|].
  simpl in Hf. rewrite Hf, csr_of_arrays_rows. intros [= <- <-] Hr.
  unfold indices_in_range, rows_unique, indices, sort_indices. cbn [mrows n_cols].
  split.
  - rewrite Forall_fmap, Forall_concat, Forall_fmap.
    eapply Forall_impl; [exact Hrows|]. intros row [_ Hkn]. simpl.
    rewrite merge_sort_Permutation. unfold keys_known in Hkn.
    rewrite Forall_fmap in Hkn. eapply Forall_impl; [exact Hkn|].
    intros e [t Ht]. simpl in *. by apply Hr in Ht.
  - rewrite Forall_fmap. eapply Forall_impl; [exact Hrows|].
    intros row [Hnd _]. simpl. by rewrite merge_sort_Permutation.
Qed.

Lemma row_get_nil j : row_get [] j = 0.
Proof. done. Qed.

Lemma get_nonzero_nnz (m : csr_matrix Z) i j : get m i j ≠ 0 → nnz m ≠ 0%nat.
Proof.
  unfold get, nnz. intros Hget Hnnz. apply Hget.
  apply length_zero_iff_nil in Hnnz.
  destruct (decide (i < length (mrows m))%nat) as [Hi|Hi].
  - destruct (lookup_lt_is_Some_2 _ _ Hi) as [row Hrow].
    rewrite (nth_lookup_Some _ _ _ _ Hrow).
    assert (row = []) as ->; [|done].
    apply list_elem_of_lookup_2 in Hrow.
    apply concat_nil_Forall in Hnnz.
    by apply (proj1 (Forall_forall _ _) Hnnz).
  - rewrite nth_overflow by lia. done.
Qed.

Lemma count_terms_open_canonical (self : Vectorizer) (docs : list (list string)) :
  ∃ m v, _count_terms self docs false = Ok (m, v)
         ∧ indices_in_range m ∧ rows_unique m
         ∧ vocabulary_of_width (n_cols m) v.
Proof.
  destruct (count_terms_open self docs) as (m & v & Hc & Hfs & _ & Hcols & _).
  exists m, v. split; [done|].
  destruct (count_terms_canonical self docs false m v Hc) as [Hr Hu];
    [apply Hfs|].
  split; [done|]. split; [done|]. rewrite Hcols.
  by eapply first_seen_ids_width.
Qed.

Lemma tokens_with_id_pos (v : gmap string Z) t j doc :
  t ∈ doc → v !! t = Some j → 0 < tokens_with_id v j doc.
Proof.
  intros Ht Hv. unfold tokens_with_id.
  assert (t ∈ filter (fun t => v !! t = Some j) doc) as Hin
    by by apply list_elem_of_filter.
  destruct (filter _ doc); [by apply elem_of_nil in Hin|]. simpl. lia.
Qed.

(** * Frequencies and idf weights *)

Lemma bincount_in_range (x : list Z) (n : nat) :
  Forall (fun j => 0 ≤ j < Z.of_nat n) x →
  bincount x n = Ok (map (fun j => count_index (Z.of_nat j) x) (seq 0 n)).
Proof.
  intros Hx. unfold bincount.
  assert (existsb (fun i => i <? 0) x = false) as ->.
  { apply not_true_is_false. intros (i & Hi & Hneg)%existsb_exists.
    rewrite Forall_forall in Hx. apply list_elem_of_In, Hx in Hi. lia. }
  assert (foldr (fun i acc => Nat.max (Z.to_nat (i + 1)) acc) n x = n) as ->; [|done].
  induction Hx as [|i x Hi _ IH]; simpl; [done|]. rewrite IH. lia.
Qed.

Lemma get_doc_freqs_in_range {A} (m : csr_matrix A) :
  nnz m ≠ 0%nat → indices_in_range m →
  get_doc_freqs m
  = Ok (map (fun j => doc_freq m (Z.of_nat j)) (seq 0 (n_cols m))).
Proof.
  intros Hnnz Hr. unfold get_doc_freqs.
  rewrite bool_decide_eq_false_2 by done. by apply bincount_in_range.
Qed.

Lemma indices_csr_map {A B} (f : A → B) (m : csr_matrix A) :
  indices (csr_map f m) = indices m.
Proof.
  unfold indices, csr_map. simpl. rewrite <- concat_map.
  change (map ?g ?l).*1 with (fst <$> (g <$> l)).
  by rewrite <- list_fmap_compose.
Qed.

Lemma nnz_indices {A} (m : csr_matrix A) : nnz m = length (indices m).
Proof. unfold nnz, indices. by rewrite length_fmap. Qed.

Lemma nnz_csr_map {A B} (f : A → B) (m : csr_matrix A) : nnz (csr_map f m) = nnz m.
Proof. by rewrite !nnz_indices, indices_csr_map. Qed.

Lemma n_rows_csr_map {A B} (f : A → B) (m : csr_matrix A) :
  n_rows (csr_map f m) = n_rows m.
Proof. unfold n_rows, csr_map. simpl. by rewrite length_map. Qed.

Lemma doc_freq_csr_map {A B} (f : A → B) (m : csr_matrix A) j :
  doc_freq (csr_map f m) j = doc_freq m j.
Proof. unfold doc_freq. by rewrite indices_csr_map. Qed.

Lemma indices_in_range_csr_map {A B} (f : A → B) (m : csr_matrix A) :
  indices_in_range m → indices_in_range (csr_map f m).
Proof. unfold indices_in_range. by rewrite indices_csr_map. Qed.

Lemma list_lookup_map_seq {A} (f : nat → A) n (k : nat) :
  (k < n)%nat → map f (seq 0 n) !! k = Some (f k).
Proof.
  intros Hk. change (map f (seq 0 n)) with (f <$> seq 0 n).
  rewrite list_lookup_fmap, lookup_seq_lt by done. done.
Qed.

(** [apply_idf_weighting] on a matrix with a stored entry and indices in
    range multiplies every stored value by the idf of its column. *)
Lemma apply_idf_weighting_in_range (m : csr_matrix R) (smooth_idf : bool) :
  nnz m ≠ 0%nat → indices_in_range m →
  apply_idf_weighting (FloatMatrix m) smooth_idf
  = Ok (FloatMatrix
          (CSR (map (map (fun e : Z * R => (e.1, (e.2 * idf m smooth_idf e.1)%R)))
                    (mrows m))
               (n_cols m))).
Proof.
  intros Hnnz Hr. unfold apply_idf_weighting. cbn [astype_float].
  rewrite get_doc_freqs_in_range by done. cbn [mbind result_bind].
  assert (∀ idfs : list R,
            length idfs = n_cols m →
            (∀ j : nat, (j < n_cols m)%nat →
                        idfs !! j = Some (idf m smooth_idf (Z.of_nat j))) →
            dot_diags m idfs
            = Ok (CSR (map (map (fun e : Z * R =>
                                   (e.1, (e.2 * idf m smooth_idf e.1)%R)))
                           (mrows m)) (n_cols m))) as Hdot.
  { intros idfs Hlen Hidf. unfold dot_diags.
    rewrite bool_decide_eq_true_2 by done. do 2 f_equal.
    unfold indices_in_range, indices in Hr.
    rewrite Forall_fmap, Forall_concat in Hr.
    apply map_ext_Forall. eapply Forall_impl; [exact Hr|].
    intros row Hrow. apply map_ext_Forall. eapply Forall_impl; [exact Hrow|].
    intros [j x] Hj. simpl in *. f_equal.
    rewrite (Hidf (Z.to_nat j)) by lia. simpl. by rewrite Z2Nat.id by lia. }
  destruct smooth_idf; cbn [mbind result_bind]; rewrite Hdot; try done.
  - by rewrite !length_map, length_seq.
  - intros j Hj. rewrite <- !list_fmap_compose.
    rewrite list_lookup_map_seq by done. done.
  - by rewrite !length_map, length_seq.
  - intros j Hj. rewrite <- !list_fmap_compose.
    rewrite list_lookup_map_seq by done. done.
Qed.

(** * Weighting *)

Lemma reweight_values_tf self m :
  weighting self = "tf"%string → normalize self = false → sublinear_tf self = false →
  _reweight_values self m = Ok m.
Proof. intros H1 H2 H3. unfold _reweight_values. by rewrite H1, H2, H3. Qed.

Lemma normalize_mat_ok (x : csr_matrix R) :
  n_rows x ≠ 0%nat → n_cols x ≠ 0%nat →
  normalize_mat x = Ok (normalize_rows x).
Proof.
  intros Hr Hc. unfold normalize_mat.
  by rewrite !bool_decide_eq_false_2 by done.
Qed.

Lemma normalize_mat_empty (x : csr_matrix R) :
  n_rows x = 0%nat ∨ n_cols x = 0%nat →
  normalize_mat x = Raise (ValueError EmptyArray).
Proof.
  intros [H|H]; unfold normalize_mat.
  - by rewrite (bool_decide_eq_true_2 _ H).
  - rewrite (bool_decide_eq_true_2 (n_cols x = 0%nat) H).
    by destruct (bool_decide (n_rows x = 0%nat)).
Qed.

Lemma normalize_mat_cases (x : csr_matrix R) :
  (normalize_mat x = Ok (normalize_rows x)
   ∧ n_rows x ≠ 0%nat ∧ n_cols x ≠ 0%nat)
  ∨ (normalize_mat x = Raise (ValueError EmptyArray)
     ∧ (n_rows x = 0%nat ∨ n_cols x = 0%nat)).
Proof.
  destruct (decide (n_rows x = 0%nat)) as [Hr|Hr];
    [right; split; [apply normalize_mat_empty|]; by left|].
  destruct (decide (n_cols x = 0%nat)) as [Hc|Hc];
    [right; split; [apply normalize_mat_empty|]; by right|].
  left. split; [by apply normalize_mat_ok|done].
Qed.

Lemma shape_astype_float (m : matrix) :
  n_rows (astype_float m) = matrix_n_rows m
  ∧ n_cols (astype_float m) = matrix_n_cols m.
Proof.
  destruct m as [m|m]; cbn [astype_float matrix_n_rows matrix_n_cols];
    [|done]. by rewrite n_rows_csr_map.
Qed.

Lemma shape_normalize_rows (x : csr_matrix R) :
  n_rows (normalize_rows x) = n_rows x ∧ n_cols (normalize_rows x) = n_cols x.
Proof. unfold normalize_rows, n_rows. cbn [mrows n_cols]. by rewrite length_map. Qed.

Lemma reweight_values_weigh self m :
  _reweight_values self m
  = (y ← weigh self m;
     if normalize self
     then x ← normalize_mat (astype_float y); Ok (FloatMatrix x)
     else Ok y).
Proof. reflexivity. Qed.

Lemma weigh_not_tfidf self m :
  weighting self ≠ "tfidf"%string →
  ∃ y, weigh self m = Ok y
       ∧ matrix_n_cols y = matrix_n_cols m
       ∧ matrix_n_rows y = matrix_n_rows m.
Proof.
  intros Hw. unfold weigh.
  rewrite (bool_decide_eq_false_2 (weighting self = "tfidf"%string)) by done.
  destruct (bool_decide (weighting self = "binary"%string));
    destruct (sublinear_tf self); destruct m as [m|m];
    cbn; eexists; (split; [reflexivity|]);
    unfold matrix_n_rows, matrix_n_cols, n_rows, astype_float, csr_map;
    cbn [mrows n_cols]; rewrite ?length_map; done.
Qed.

Lemma reweight_values_not_tfidf self m :
  weighting self ≠ "tfidf"%string →
  normalize self = false
  ∨ (matrix_n_rows m ≠ 0%nat ∧ matrix_n_cols m ≠ 0%nat) →
  ∃ m', _reweight_values self m = Ok m'
        ∧ matrix_n_cols m' = matrix_n_cols m
        ∧ matrix_n_rows m' = matrix_n_rows m.
Proof.
  intros Hw Hshape. rewrite reweight_values_weigh.
  destruct (weigh_not_tfidf self m Hw) as (y & -> & Hc & Hr).
  cbn [mbind result_bind]. destruct (normalize self) eqn:Hn; [|by exists y].
  destruct Hshape as [|[Hr0 Hc0]]; [done|].
  destruct (shape_astype_float y) as [Hyr Hyc].
  rewrite normalize_mat_ok by congruence. cbn [mbind result_bind].
  eexists. split; [reflexivity|].
  destruct (shape_normalize_rows (astype_float y)) as [Hnr Hnc].
  cbn [matrix_n_cols matrix_n_rows]. split; congruence.
Qed.

(** With [normalize] set, a matrix without rows or without columns is
    rejected by the validation of [normalize_mat]. *)
Lemma reweight_values_empty self m :
  weighting self ≠ "tfidf"%string → normalize self = true →
  matrix_n_rows m = 0%nat ∨ matrix_n_cols m = 0%nat →
  _reweight_values self m = Raise (ValueError EmptyArray).
Proof.
  intros Hw Hn Hshape. rewrite reweight_values_weigh.
  destruct (weigh_not_tfidf self m Hw) as (y & -> & Hc & Hr).
  cbn [mbind result_bind]. rewrite Hn.
  destruct (shape_astype_float y) as [Hyr Hyc].
  rewrite normalize_mat_empty; [done|].
  destruct Hshape; [left|right]; congruence.
Qed.

Lemma data_csr_map {A B} (f : A → B) (m : csr_matrix A) :
  data (csr_map f m) = map f (data m).
Proof.
  unfold data, csr_map. simpl. rewrite <- concat_map.
  change (map ?g ?l).*2 with (snd <$> (g <$> l)).
  change (map f (concat (mrows m)).*2) with (f <$> (snd <$> concat (mrows m))).
  by rewrite <- !list_fmap_compose.
Qed.

Lemma pattern_csr_map {A B} (f : A → B) (m : csr_matrix A) :
  pattern (csr_map f m) = pattern m.
Proof.
  unfold pattern, csr_map. simpl. rewrite map_map. apply map_ext. intros row.
  rewrite map_map. done.
Qed.

Lemma fill_one_spec (m : matrix) :
  all_ones (fill_one m)
  ∧ matrix_pattern (fill_one m) = matrix_pattern m
  ∧ matrix_n_cols (fill_one m) = matrix_n_cols m
  ∧ matrix_n_rows (fill_one m) = matrix_n_rows m.
Proof.
  destruct m as [m|m]; simpl; rewrite data_csr_map, pattern_csr_map, n_rows_csr_map;
    (split; [|done]); apply Forall_map, Forall_forall; done.
Qed.

(** C2 (amended). Under "binary" weighting [_reweight_values] overwrites
    every stored value with 1, keeping the stored positions and the shape;
    neither the sublinear scaling nor the idf multiplication is applied,
    whatever [sublinear_tf] and [smooth_idf] are. The L2 row normalization
    is not skipped: with [normalize] set the all-ones matrix is handed to
    [normalize_mat], which divides every row by its norm, or raises when
    the matrix has no row or no column. Without [normalize] the all-ones
    matrix is returned, for every input. *)
Theorem reweight_values_binary (self : Vectorizer) (m : matrix) :
  weighting self = "binary"%string →
  _reweight_values self m
  = (if normalize self
     then if bool_decide (matrix_n_rows m = 0%nat)
             || bool_decide (matrix_n_cols m = 0%nat)
          then Raise (ValueError EmptyArray)
          else Ok (FloatMatrix (normalize_rows (astype_float (fill_one m))))
     else Ok (fill_one m))
  ∧ all_ones (fill_one m)
  ∧ matrix_pattern (fill_one m) = matrix_pattern m
  ∧ matrix_n_cols (fill_one m) = matrix_n_cols m
  ∧ matrix_n_rows (fill_one m) = matrix_n_rows m.
Proof.
  intros Hw. split; [|apply fill_one_spec].
  unfold _reweight_values. rewrite Hw. rewrite bool_decide_eq_true_2 by done.
  cbn [mbind result_bind]. destruct (normalize self); [|done].
  unfold normalize_mat.
  destruct (shape_astype_float (fill_one m)) as [-> ->].
  destruct (fill_one_spec m) as (_ & _ & -> & ->).
  by destruct (_ || _).
Qed.

Lemma reweight_values_binary_witness :
  _reweight_values binary_normalized (IntMatrix (CSR [[(0, 3); (2, 5)]] 3))
  = Ok (FloatMatrix (normalize_rows (CSR [[(0, 1%R); (2, 1%R)]] 3))).
Proof.
  apply (reweight_values_binary binary_normalized
           (IntMatrix (CSR [[(0, 3); (2, 5)]] 3))).
  reflexivity.
Defined.

Lemma sqrt_4 : sqrt 4 = 2%R.
Proof. replace 4%R with (2 * 2)%R by lra. apply sqrt_square. lra. Qed.

(** With [normalize] set, "binary" weighting does not leave the stored
    values at 1: a row of four entries comes out with every value 1/2. *)
Lemma binary_weighting_is_normalized :
  ∃ m, _reweight_values binary_normalized
         (IntMatrix (CSR [[(0, 3); (1, 5); (2, 1); (3, 2)]] 4))
       = Ok (FloatMatrix m)
       ∧ data m = [(1 / 2)%R; (1 / 2)%R; (1 / 2)%R; (1 / 2)%R]
       ∧ ¬ all_ones (FloatMatrix m)
       ∧ Ok (FloatMatrix m)
         ≠ Ok (fill_one (IntMatrix (CSR [[(0, 3); (1, 5); (2, 1); (3, 2)]] 4))).
Proof.
  eexists. split; [reflexivity|].
  assert (data (normalize_rows (astype_float (fill_one
            (IntMatrix (CSR [[(0, 3); (1, 5); (2, 1); (3, 2)]] 4)))))
          = [(1 / 2)%R; (1 / 2)%R; (1 / 2)%R; (1 / 2)%R]) as Hdata.
  { unfold normalize_rows, data. cbn [astype_float fill_one csr_map mrows map fst snd].
    unfold normalize_row.
    assert (sum_squares [(0, 1%R); (1, 1%R); (2, 1%R); (3, 1%R)] = 4%R) as ->.
    { unfold sum_squares. simpl. lra. }
    destruct (Req_dec_T 4 0) as [H|_]; [lra|]. simpl. by rewrite sqrt_4. }
  split; [exact Hdata|]. split; [|discriminate].
  unfold all_ones. rewrite Hdata. intros H. apply Forall_cons in H as [H _]. lra.
Qed.

Lemma reweight_values_tfidf_zero self (m : csr_matrix Z) :
  nnz m = 0%nat → weighting self = "tfidf"%string →
  _reweight_values self (IntMatrix m) = Raise (ValueError NoNonZeroEntry).
Proof.
  intros Hnnz Hw. unfold _reweight_values. rewrite Hw.
  rewrite bool_decide_eq_false_2 by done. rewrite bool_decide_eq_true_2 by done.
  unfold apply_idf_weighting, get_doc_freqs.
  destruct (sublinear_tf self); cbn [astype_float];
    rewrite ?nnz_csr_map, Hnnz; done.
Qed.

Lemma nnz_shape {A} (m : csr_matrix A) :
  nnz m ≠ 0%nat → indices_in_range m →
  n_rows m ≠ 0%nat ∧ n_cols m ≠ 0%nat.
Proof.
  unfold nnz, n_rows, indices_in_range, indices. intros Hnnz Hr. split.
  - intros Hrows. apply nil_length_inv in Hrows. by rewrite Hrows in Hnnz.
  - destruct (concat (mrows m)) as [|[j x] l]; [done|].
    apply Forall_cons_1 in Hr as [Hj _]. cbn in Hj. lia.
Qed.

Lemma reweight_values_stored_entry self (m : csr_matrix Z) :
  nnz m ≠ 0%nat → indices_in_range m →
  ∃ m', _reweight_values self (IntMatrix m) = Ok m'
        ∧ matrix_n_cols m' = n_cols m ∧ matrix_n_rows m' = n_rows m.
Proof.
  intros Hnnz Hr. destruct (nnz_shape m Hnnz Hr) as [Hrows Hcols].
  destruct (decide (weighting self = "tfidf"%string)) as [Hw|Hw];
    [|apply (reweight_values_not_tfidf self (IntMatrix m)); [done|by right]].
  rewrite reweight_values_weigh.
  assert (∃ y, weigh self (IntMatrix m) = Ok y
               ∧ matrix_n_cols y = n_cols m ∧ matrix_n_rows y = n_rows m)
    as (y & -> & Hyc & Hyr).
  { unfold weigh. rewrite Hw.
    rewrite bool_decide_eq_false_2 by done. rewrite bool_decide_eq_true_2 by done.
    assert (∀ x : csr_matrix R,
              nnz x ≠ 0%nat → indices_in_range x →
              n_cols x = n_cols m → n_rows x = n_rows m →
              ∃ y, apply_idf_weighting (FloatMatrix x) (smooth_idf self) = Ok y
                   ∧ matrix_n_cols y = n_cols m
                   ∧ matrix_n_rows y = n_rows m) as Hfloat.
    { intros x Hx Hxr Hc Hn. rewrite apply_idf_weighting_in_range by done.
      eexists. split; [reflexivity|].
      unfold matrix_n_rows, matrix_n_cols, n_rows in *.
      cbn [mrows n_cols]. rewrite ?length_map. done. }
    destruct (sublinear_tf self); cbn [astype_float].
    - apply Hfloat.
      + by rewrite !nnz_csr_map.
      + by do 2 apply indices_in_range_csr_map.
      + done.
      + by rewrite !n_rows_csr_map.
    - change (apply_idf_weighting (IntMatrix m) (smooth_idf self))
        with (apply_idf_weighting (FloatMatrix (csr_map IZR m)) (smooth_idf self)).
      apply Hfloat.
      + by rewrite nnz_csr_map.
      + by apply indices_in_range_csr_map.
      + done.
      + by rewrite n_rows_csr_map. }
  cbn [mbind result_bind]. destruct (normalize self); [|by exists y].
  destruct (shape_astype_float y) as [Hr' Hc'].
  rewrite normalize_mat_ok by congruence. cbn [mbind result_bind].
  eexists. split; [reflexivity|].
  destruct (shape_normalize_rows (astype_float y)) as [Hnr Hnc].
  cbn [matrix_n_cols matrix_n_rows]. split; congruence.
Qed.

Section ZeroEntries.
Variable argsort : list Z → list nat.
Variable argsort_float : list R → list nat.


End ZeroEntries.



(** * Fitting and transforming *)

Section CountingPipeline.
Variable argsort : list Z → list nat.
Variable argsort_float : list R → list nat.

Lemma filter_terms_defaults self m v :
  number_is_one (max_df self) = true → number_is_one (min_df self) = true →
  max_n_terms self = None → Qeq_bool (min_ic self) 0 = true →
  _filter_terms argsort argsort_float self m v = Ok (m, v).
Proof.
  intros H1 H2 H3 H4. unfold _filter_terms. rewrite H1, H2, H3, H4.
  by destruct (_fixed_terms self).
Qed.

(** C1. With an open vocabulary, the plain "tf" weighting and no filter,
    [fit_transform] stores as vocabulary the terms of the input, each with
    the number of distinct terms that precede its first occurrence in the
    stream of tokens as id (the next free integer at first sight, not a
    sorted position), and returns the count matrix: one row per document,
    one column per term, entry [(i, j)] the number of occurrences of term
    [j] in document [i]. On [[["a","b","a"],["b","c"]]] the vocabulary is
    [{a:0, b:1, c:2}] and the matrix [[[2,1,0],[0,1,1]]]. *)
Theorem fit_transform_open_vocabulary :
  (∀ self docs,
     _fixed_terms self = false →
     weighting self = "tf"%string → normalize self = false →
     sublinear_tf self = false →
     number_is_one (max_df self) = true → number_is_one (min_df self) = true →
     max_n_terms self = None → Qeq_bool (min_ic self) 0 = true →
     ∃ m v,
       fit_transform argsort argsort_float self docs
       = (set_vocabulary_terms self (Some v), Ok (IntMatrix m))
       ∧ (∀ t, is_Some (v !! t) ↔ t ∈ concat docs)
       ∧ (∀ pre t post, concat docs = pre ++ t :: post → t ∉ pre →
            v !! t = Some (Z.of_nat (size (list_to_set pre : gset string))))
       ∧ n_rows m = length docs ∧ n_cols m = size v
       ∧ (∀ i doc t j, docs !! i = Some doc → v !! t = Some j →
            get m i j = occurrences t doc))
  ∧ (∃ m,
       __init__ "tf" false false true (PyInt 1) (PyFloat 1) 0 None None
       = Ok default_vectorizer
       ∧ fit_transform argsort argsort_float default_vectorizer
           [["a"; "b"; "a"]; ["b"; "c"]]%string
         = (set_vocabulary_terms default_vectorizer
              (Some {["a" := 0; "b" := 1; "c" := 2]}),
            Ok (IntMatrix m))
       ∧ toarray m = [[2; 1; 0]; [0; 1; 1]]).
Proof.
  split.
  - intros self docs Hopen Htf Hnorm Hsub Hmax Hmin Hn Hic.
    destruct (count_terms_open self docs) as (m & v & Hc & Hv & Hr & Hcol & Hget).
    exists m, v. split; [|split; [apply Hv|split; [apply Hv|]]].
    + unfold fit_transform. rewrite Hopen, Hc.
      rewrite filter_terms_defaults by done.
      rewrite reweight_values_tf by done. done.
    + split; [done|]. split; [done|]. intros i doc t j Hdoc Ht.
      rewrite (Hget i doc j Hdoc). apply tokens_with_id_unique; [apply Hv|done].
  - eexists. split; [reflexivity|]. split; [vm_compute; reflexivity|].
    vm_compute. reflexivity.
Qed.

End CountingPipeline.

Lemma fit_transform_open_vocabulary_witness :
  ∃ m v,
    fit_transform stable_argsort stable_argsort_float default_vectorizer
      [["x"; "y"; "x"]]%string
    = (set_vocabulary_terms default_vectorizer (Some v), Ok (IntMatrix m))
    ∧ v !! "y"%string = Some 1 ∧ get m 0 0 = 2.
Proof.
  destruct (proj1 (fit_transform_open_vocabulary stable_argsort stable_argsort_float)
              default_vectorizer [["x"; "y"; "x"]]%string)
    as (m & v & Hf & Hdom & Hfirst & Hr & Hc & Hget); try reflexivity.
  exists m, v. split; [exact Hf|]. split.
  - apply (Hfirst ["x"]%string "y"%string ["x"]%string); [reflexivity|].
    intros H%list_elem_of_singleton. discriminate H.
  - rewrite (Hget 0%nat ["x"; "y"; "x"]%string "x"%string 0); [reflexivity|reflexivity|].
    apply (Hfirst [] "x"%string ["y"; "x"]%string); [reflexivity|].
    apply not_elem_of_nil.
Defined.

Lemma set_vocabulary_terms_same self v :
  vocabulary_terms self = Some v → set_vocabulary_terms self (Some v) = self.
Proof. destruct self. simpl. by intros ->. Qed.

Lemma init_fixed weighting normalize sublinear_tf smooth_idf min_df max_df
  min_ic max_n_terms input self :
  __init__ weighting normalize sublinear_tf smooth_idf min_df max_df min_ic
           max_n_terms (Some input) = Ok self →
  _fixed_terms self = true
  ∧ ∃ v, vocabulary_terms self = Some v ∧ size v ≠ 0%nat.
Proof.
  unfold __init__.
  repeat (match goal with |- context [if ?b then _ else _] => destruct b end;
          [discriminate|]).
  destruct (_validate_vocabulary (Some input)) as [[v is_fixed]|e] eqn:Hv;
    [|discriminate].
  cbn. intros [= <-]. simpl.
  unfold _validate_vocabulary in Hv.
  destruct (match input with VocabMapping _ => _ | VocabIterable _ => _ end)
    as [v'|]; [|discriminate].
  cbn in Hv. case_bool_decide; [discriminate|]. injection Hv as <- <-. eauto.
Qed.

Section FixedVocabulary.
Variable argsort : list Z → list nat.
Variable argsort_float : list R → list nat.

(** C7. On an instance with a fixed vocabulary [v], whatever [min_df],
    [max_df], [min_ic] and [max_n_terms] are, counting returns [v] itself,
    [_filter_terms] returns the counted matrix and [v] untouched, and
    [fit_transform] leaves the instance, vocabulary included, as it was: its
    result is the weighting of the unfiltered counts. *)
Theorem fit_transform_fixed_vocabulary (self : Vectorizer) (v : gmap string Z)
  (docs : list (list string)) :
  _fixed_terms self = true → vocabulary_terms self = Some v →
  ∃ m, _count_terms self docs true = Ok (m, v)
       ∧ _filter_terms argsort argsort_float self m v = Ok (m, v)
       ∧ fit_transform argsort argsort_float self docs
         = (self, _reweight_values self (IntMatrix m)).
Proof.
  intros Hfixed Hv.
  destruct (count_terms_fixed self docs v Hv) as (m & Hc & _).
  exists m. split; [done|]. split.
  - unfold _filter_terms. by rewrite Hfixed.
  - unfold fit_transform. rewrite Hfixed, Hc.
    rewrite !(set_vocabulary_terms_same _ _ Hv).
    unfold _filter_terms. rewrite Hfixed.
    by rewrite !(set_vocabulary_terms_same _ _ Hv).
Qed.

End FixedVocabulary.

Lemma fit_transform_fixed_vocabulary_witness :
  ∃ self m,
    __init__ "tf" false false true (PyInt 2) (PyFloat (1 # 2)) (1 # 2) (Some 1)
             (Some (VocabIterable ["y"; "x"]%string)) = Ok self
    ∧ vocabulary_terms self = Some {["x" := 0; "y" := 1]}
    ∧ fit_transform stable_argsort stable_argsort_float self
        [["x"; "z"]; ["x"]]%string
      = (self, Ok (IntMatrix m))
    ∧ toarray m = [[1; 0]; [1; 0]].
Proof.
  eexists. 
  destruct (fit_transform_fixed_vocabulary stable_argsort stable_argsort_float
              (mkVectorizer "tf" false false true (PyInt 2) (PyFloat (1 # 2))
                 (1 # 2) (Some 1) (Some {["x" := 0; "y" := 1]}) true ∅)
              {["x" := 0; "y" := 1]} [["x"; "z"]; ["x"]]%string eq_refl eq_refl)
    as (m & Hc & _ & Hf).
  exists m. split; [vm_compute; reflexivity|]. split; [reflexivity|].
  split; [exact Hf|].
  vm_compute in Hc. injection Hc as <-. reflexivity.
Defined.

Lemma transform_counts self v docs :
  vocabulary_terms self = Some v → size v ≠ 0%nat →
  ∃ counts,
    _count_terms self docs true = Ok (counts, v)
    ∧ n_rows counts = length docs ∧ n_cols counts = size v
    ∧ (∀ i doc j, docs !! i = Some doc →
                  get counts i j = tokens_with_id v j doc)
    ∧ transform self (map (filter (fun t => is_Some (v !! t))) docs)
      = transform self docs
    ∧ transform self docs = _reweight_values self (IntMatrix counts).
Proof.
  intros Hv Hne.
  destruct (count_terms_fixed self docs v Hv) as (c & Hc & Hr & Hcol & Hget).
  exists c. split; [done|]. split; [done|]. split; [done|]. split; [done|].
  unfold transform, _check_vocabulary.
  rewrite Hv, (count_terms_fixed_out_of_vocabulary _ _ _ Hv), Hc.
  by rewrite bool_decide_eq_false_2 by done.
Qed.

Lemma known_term_nnz (v : gmap string Z) (docs : list (list string))
  (counts : csr_matrix Z) :
  (∀ i doc j, docs !! i = Some doc → get counts i j = tokens_with_id v j doc) →
  (∃ doc t, doc ∈ docs ∧ t ∈ doc ∧ is_Some (v !! t)) →
  nnz counts ≠ 0%nat.
Proof.
  intros Hget (doc & t & Hdoc & Ht & j & Hj).
  apply list_elem_of_lookup_1 in Hdoc as [i Hi].
  apply (get_nonzero_nnz counts i j). rewrite (Hget i doc j Hi).
  pose proof (tokens_with_id_pos v t j doc Ht Hj). lia.
Qed.

(** C5. [transform] on a vocabulary [v] counts the in-vocabulary tokens
    alone (removing the other tokens from the input changes nothing) and,
    when it returns, returns a matrix with [len(v)] columns and one row per
    document; with [{"x":0,"y":1}], [[["x","z"]]] gives [[[1,0]]]. It
    returns under a weighting other than "tfidf" for every input (with
    [normalize] set: every input but the empty sequence), and under "tfidf"
    for every input in which some term of the vocabulary occurs. It does not
    return for every input: under "tfidf" an input without any in-vocabulary
    token, the empty sequence included, makes it raise the [ValueError] of
    [get_doc_freqs], and with [normalize] set the empty sequence makes it
    raise the [ValueError] of [normalize_mat]. *)
Theorem transform_fixed_vocabulary :
  (∀ self v docs,
     vocabulary_terms self = Some v → size v ≠ 0%nat →
     (weighting self ≠ "tfidf"%string
      ∧ (normalize self = false ∨ docs ≠ []))
     ∨ (∀ t j, v !! t = Some j → 0 ≤ j < Z.of_nat (size v))
       ∧ (∃ doc t, doc ∈ docs ∧ t ∈ doc ∧ is_Some (v !! t)) →
     ∃ counts m,
       _count_terms self docs true = Ok (counts, v)
       ∧ (∀ i doc j, docs !! i = Some doc →
            get counts i j = tokens_with_id v j doc)
       ∧ transform self (map (filter (fun t => is_Some (v !! t))) docs)
         = transform self docs
       ∧ transform self docs = Ok m
       ∧ matrix_n_cols m = size v ∧ matrix_n_rows m = length docs)
  ∧ (∀ self v docs,
       vocabulary_terms self = Some v → size v ≠ 0%nat →
       weighting self = "tfidf"%string →
       (∀ doc t, doc ∈ docs → t ∈ doc → v !! t = None) →
       transform self docs = Raise (ValueError NoNonZeroEntry))
  ∧ (∀ self v,
       vocabulary_terms self = Some v → size v ≠ 0%nat →
       weighting self ≠ "tfidf"%string → normalize self = true →
       transform self [] = Raise (ValueError EmptyArray))
  ∧ (∃ self m,
       __init__ "tf" false false true (PyInt 1) (PyFloat 1) 0 None
                (Some (VocabMapping {["x" := 0; "y" := 1]})) = Ok self
       ∧ transform self [["x"; "z"]]%string = Ok (IntMatrix m)
       ∧ toarray m = [[1; 0]]).
Proof.
  split; [|split; [|split]].
  - intros self v docs Hv Hne Hcase.
    destruct (transform_counts self v docs Hv Hne)
      as (c & Hc & Hr & Hcol & Hget & Hdrop & Ht).
    assert (∃ m, _reweight_values self (IntMatrix c) = Ok m
                 ∧ matrix_n_cols m = n_cols c ∧ matrix_n_rows m = n_rows c)
      as (m & Hm & Hmc & Hmr).
    { destruct Hcase as [[Hw Hshape]|[Hrange Hknown]].
      - apply (reweight_values_not_tfidf self (IntMatrix c)); [done|].
        destruct Hshape as [Hn|Hdocs]; [by left|right].
        cbn [matrix_n_rows matrix_n_cols]. rewrite Hr, Hcol.
        split; [|done]. by destruct docs.
      - apply reweight_values_stored_entry.
        + by eapply known_term_nnz.
        + by apply (count_terms_canonical self docs true c v Hc). }
    exists c, m. split; [done|]. split; [done|]. split; [done|].
    split; [congruence|]. split; congruence.
  - intros self v docs Hv Hne Hw Hoov.
    destruct (transform_counts self v docs Hv Hne) as (c & Hc & _ & _ & _ & _ & ->).
    destruct (count_terms_no_known_term self v docs Hv Hoov) as (c' & Hc' & Hnnz & _).
    assert (c' = c) as -> by congruence.
    by apply reweight_values_tfidf_zero.
  - intros self v Hv Hne Hw Hn.
    destruct (transform_counts self v [] Hv Hne) as (c & Hc & Hr & _ & _ & _ & ->).
    apply reweight_values_empty; [done|done|]. by left.
  - eexists _, _. split; [vm_compute; reflexivity|].
    split; vm_compute; reflexivity.
Qed.

(** Under "tfidf" and the vocabulary [{"x":0,"y":1}], [transform] returns no
    matrix for [[["z"]]] nor for the empty sequence of documents; with
    [normalize] set it returns none for the empty sequence under "tf"
    either. *)
Lemma transform_tfidf_without_known_term :
  ∃ self,
    __init__ "tfidf" false false true (PyInt 1) (PyFloat 1) 0 None
             (Some (VocabMapping {["x" := 0; "y" := 1]})) = Ok self
    ∧ transform self [["z"]]%string = Raise (ValueError NoNonZeroEntry)
    ∧ transform self [] = Raise (ValueError NoNonZeroEntry)
    ∧ ¬ (∃ m, transform self [["z"]]%string = Ok m ∧ matrix_n_cols m = 2%nat)
    ∧ ∃ self',
        __init__ "tf" true false true (PyInt 1) (PyFloat 1) 0 None
                 (Some (VocabMapping {["x" := 0; "y" := 1]})) = Ok self'
        ∧ transform self' [] = Raise (ValueError EmptyArray).
Proof.
  eexists. split; [vm_compute; reflexivity|].
  split; [vm_compute; reflexivity|]. split; [vm_compute; reflexivity|].
  split.
  - intros (m & Hm & _). vm_compute in Hm. discriminate.
  - eexists. split; [vm_compute; reflexivity|]. vm_compute. reflexivity.
Qed.

Lemma apply_idf_weighting_counts (m : csr_matrix Z) (smooth_idf : bool) :
  nnz m ≠ 0%nat → indices_in_range m →
  apply_idf_weighting (IntMatrix m) smooth_idf
  = Ok (FloatMatrix (tfidf_of m smooth_idf)).
Proof.
  intros Hnnz Hr.
  change (apply_idf_weighting (IntMatrix m) smooth_idf)
    with (apply_idf_weighting (FloatMatrix (csr_map IZR m)) smooth_idf).
  rewrite apply_idf_weighting_in_range
    by (rewrite ?nnz_csr_map; auto using indices_in_range_csr_map).
  unfold tfidf_of, csr_map. cbn [mrows n_cols]. do 3 f_equal.
  rewrite map_map. apply map_ext. intros row. rewrite map_map.
  apply map_ext. intros [j x]. cbn [fst snd]. do 2 f_equal.
  unfold idf. fold (csr_map IZR m).
  by rewrite n_rows_csr_map, doc_freq_csr_map.
Qed.

Lemma transform_tfidf self v docs counts :
  vocabulary_terms self = Some v → size v ≠ 0%nat →
  weighting self = "tfidf"%string →
  sublinear_tf self = false → normalize self = false →
  _count_terms self docs true = Ok (counts, v) →
  nnz counts ≠ 0%nat → indices_in_range counts →
  transform self docs = Ok (FloatMatrix (tfidf_of counts (smooth_idf self))).
Proof.
  intros Hv Hne Hw Hsub Hnorm Hc Hnnz Hr.
  unfold transform, _check_vocabulary. rewrite Hv, Hc.
  rewrite bool_decide_eq_false_2 by done. cbn [mbind result_bind].
  unfold _reweight_values. rewrite Hw, Hsub, Hnorm.
  rewrite bool_decide_eq_false_2 by done. rewrite bool_decide_eq_true_2 by done.
  by rewrite apply_idf_weighting_counts.
Qed.

Lemma transform_tfidf_known_term self v docs :
  vocabulary_terms self = Some v →
  (∀ t j, v !! t = Some j → 0 ≤ j < Z.of_nat (size v)) →
  weighting self = "tfidf"%string →
  sublinear_tf self = false → normalize self = false →
  (∃ doc t, doc ∈ docs ∧ t ∈ doc ∧ is_Some (v !! t)) →
  ∃ counts,
    _count_terms self docs true = Ok (counts, v)
    ∧ n_rows counts = length docs
    ∧ (∀ i doc j, docs !! i = Some doc →
                  get counts i j = tokens_with_id v j doc)
    ∧ transform self docs
      = Ok (FloatMatrix (tfidf_of counts (smooth_idf self))).
Proof.
  intros Hv Hr Hw Hsub Hnorm (doc & t & Hdoc & Ht & j & Hj).
  destruct (count_terms_fixed self docs v Hv) as (m & Hc & Hn & Hcols & Hget).
  exists m. split; [done|]. split; [done|]. split; [done|].
  apply (transform_tfidf self v docs m); try done.
  - intros ->%map_size_empty_iff. by rewrite lookup_empty in Hj.
  - apply list_elem_of_lookup_1 in Hdoc as [i Hi].
    apply (get_nonzero_nnz m i j). rewrite (Hget i doc j Hi).
    pose proof (tokens_with_id_pos v t j doc Ht Hj). lia.
  - by apply (count_terms_canonical self docs true m v Hc).
Qed.

Lemma ln_3_2_pos : (0 < ln (3 / 2))%R.
Proof. rewrite <- ln_1. apply ln_increasing; lra. Qed.

(** C9. Under "tfidf" weighting (no sublinear scaling, no normalization),
    with a vocabulary whose ids are below its size and an input in which
    some term of the vocabulary occurs, [transform] returns the counts of its
    own input, each multiplied by the idf of its column computed from the
    document frequencies and the number of rows of that same counted matrix;
    the instance holds no frequencies from fitting. With the vocabulary
    [{x:0, y:1}] the single occurrence of "x" in the first document is
    weighted [ln(3/3) + 1] when the input is [[["x"],["x"]]] and
    [ln(3/2) + 1] when it is [[["x"],["y"]]]: two different weights for the
    same term. *)
Theorem transform_idf_from_transformed_input :
  (∀ self v docs,
     vocabulary_terms self = Some v →
     (∀ t j, v !! t = Some j → 0 ≤ j < Z.of_nat (size v)) →
     weighting self = "tfidf"%string →
     sublinear_tf self = false → normalize self = false →
     (∃ doc t, doc ∈ docs ∧ t ∈ doc ∧ is_Some (v !! t)) →
     ∃ counts,
       _count_terms self docs true = Ok (counts, v)
       ∧ n_rows counts = length docs
       ∧ (∀ i doc j, docs !! i = Some doc →
                     get counts i j = tokens_with_id v j doc)
       ∧ transform self docs
         = Ok (FloatMatrix (tfidf_of counts (smooth_idf self))))
  ∧ (∃ m1 m2 w1 w2,
       transform tfidf_xy [["x"]; ["x"]]%string = Ok (FloatMatrix m1)
       ∧ transform tfidf_xy [["x"]; ["y"]]%string = Ok (FloatMatrix m2)
       ∧ mrows m1 !! 0%nat = Some [(0, w1)]
       ∧ mrows m2 !! 0%nat = Some [(0, w2)]
       ∧ w1 = (1 * (ln (3 / 3) + 1))%R
       ∧ w2 = (1 * (ln (3 / 2) + 1))%R
       ∧ w1 ≠ w2).
Proof.
  split; [exact transform_tfidf_known_term|].
  eexists _, _, _, _.
  split.
  { apply (transform_tfidf tfidf_xy {["x" := 0; "y" := 1]} _
             (CSR [[(0, 1)]; [(0, 1)]] 2));
      [reflexivity|by vm_compute|reflexivity|reflexivity|reflexivity
      |by vm_compute|by vm_compute|by repeat constructor]. }
  split.
  { apply (transform_tfidf tfidf_xy {["x" := 0; "y" := 1]} _
             (CSR [[(0, 1)]; [(1, 1)]] 2));
      [reflexivity|by vm_compute|reflexivity|reflexivity|reflexivity
      |by vm_compute|by vm_compute|by repeat constructor]. }
  split; [reflexivity|]. split; [reflexivity|].
  split; [reflexivity|]. split; [reflexivity|].
  cbn [fst snd]. unfold idf, doc_freq. cbn.
  change (IZR (Z.of_nat 2 + 1)) with 3%R.
  change (IZR (count_index 0 [0; 0] + 1)) with 3%R.
  change (IZR (count_index 0 [0; 1] + 1)) with 2%R.
  replace (3 / 3)%R with 1%R by lra. rewrite ln_1.
  pose proof ln_3_2_pos. lra.
Qed.

(** * Filtering by document frequency *)

(** ** Masks, positions and renumbering *)

Lemma where_from_lookup (mask : list bool) : ∀ o (p : nat) c,
  where_from o mask !! p = Some c →
  ∃ i : nat, c = o + Z.of_nat i ∧ mask !! i = Some true
             ∧ ∀ acc, cumsum_from acc mask !! i = Some (acc + Z.of_nat p + 1).
Proof.
  induction mask as [|b mask IH]; intros o p c Hp; [done|].
  destruct b; simpl in Hp.
  - destruct p as [|p]; simpl in Hp.
    + injection Hp as <-. exists 0%nat. split; [lia|]. split; [done|].
      intros acc. simpl. f_equal. lia.
    + apply IH in Hp as (i & -> & Hi & Hc). exists (S i).
      split; [lia|]. split; [done|]. intros acc. simpl. rewrite Hc. f_equal. lia.
  - apply IH in Hp as (i & -> & Hi & Hc). exists (S i).
    split; [lia|]. split; [done|]. intros acc. simpl. by rewrite Hc.
Qed.

Lemma where_from_true (mask : list bool) : ∀ o (i : nat),
  mask !! i = Some true →
  ∃ p : nat, where_from o mask !! p = Some (o + Z.of_nat i)
             ∧ ∀ acc, cumsum_from acc mask !! i = Some (acc + Z.of_nat p + 1).
Proof.
  induction mask as [|b mask IH]; intros o i Hi; [done|].
  destruct i as [|i]; simpl in Hi.
  - injection Hi as ->. exists 0%nat. simpl. split; [f_equal; lia|].
    intros acc. f_equal. lia.
  - destruct (IH (o + 1) i Hi) as (p & Hp & Hc). destruct b; simpl.
    + exists (S p). simpl. rewrite Hp. split; [f_equal; lia|].
      intros acc. rewrite Hc. f_equal. lia.
    + exists p. rewrite Hp. split; [f_equal; lia|]. intros acc. by rewrite Hc.
Qed.

Lemma where_from_increasing (mask : list bool) : ∀ o,
  StronglySorted Z.lt (where_from o mask)
  ∧ Forall (fun c => o ≤ c) (where_from o mask).
Proof.
  induction mask as [|b mask IH]; intros o; [by split; constructor|].
  destruct (IH (o + 1)) as [Hs Hf]. destruct b; simpl.
  - split.
    + constructor; [done|]. eapply Forall_impl; [exact Hf|]. simpl. lia.
    + constructor; [lia|]. eapply Forall_impl; [exact Hf|]. simpl. lia.
  - split; [done|]. eapply Forall_impl; [exact Hf|]. simpl. lia.
Qed.

Lemma np_where_NoDup (mask : list bool) : NoDup (np_where mask).
Proof.
  destruct (where_from_increasing mask 0) as [Hs _]. unfold np_where.
  induction Hs as [|c l _ IH Hc]; constructor; [|done].
  intros Hin. rewrite Forall_forall in Hc. apply Hc in Hin. lia.
Qed.

Lemma elem_of_np_where (mask : list bool) c :
  c ∈ np_where mask ↔ ∃ i : nat, c = Z.of_nat i ∧ mask !! i = Some true.
Proof.
  unfold np_where. split.
  - intros (p & Hp)%list_elem_of_lookup.
    apply where_from_lookup in Hp as (i & -> & Hi & _). eauto.
  - intros (i & -> & Hi). destruct (where_from_true mask 0 i Hi) as (p & Hp & _).
    apply list_elem_of_lookup. exists p. by rewrite Hp.
Qed.

Lemma length_cumsum_from acc mask : length (cumsum_from acc mask) = length mask.
Proof. revert acc. induction mask as [|b mask IH]; intros acc; simpl; [done|]. by rewrite IH. Qed.

Lemma length_new_indices_of mask : length (new_indices_of mask) = length mask.
Proof. unfold new_indices_of. by rewrite length_map, length_cumsum_from. Qed.

(** The new id of a kept column is its position among the kept columns. *)
Lemma new_indices_of_kept (mask : list bool) (i p : nat) :
  mask !! i = Some true →
  (np_where mask !! p = Some (Z.of_nat i)
   ↔ new_indices_of mask !! i = Some (Z.of_nat p)).
Proof.
  intros Hi. destruct (where_from_true mask 0 i Hi) as (p0 & Hp0 & Hc).
  unfold new_indices_of, np_where.
  change (map ?f ?l) with (f <$> l). rewrite list_lookup_fmap, (Hc 0). simpl.
  simpl in Hp0. split.
  - intros Hp. assert (p = p0) as ->; [|f_equal; lia].
    eapply NoDup_lookup; [apply np_where_NoDup|exact Hp|exact Hp0].
  - intros [= H]. assert (p = p0) as -> by lia. done.
Qed.

Lemma np_index_in_range {A} (a : list A) (i : Z) x :
  0 ≤ i → a !! Z.to_nat i = Some x → np_index a i = Ok x.
Proof.
  intros Hi Hx. unfold np_index. pose proof (lookup_lt_Some _ _ _ Hx).
  rewrite (proj2 (Z.ltb_ge i 0)) by lia.
  rewrite (proj2 (Z.leb_le 0 i)) by lia.
  rewrite (proj2 (Z.ltb_lt i _)) by lia. simpl. by rewrite Hx.
Qed.

Lemma reindex_vocabulary_spec (v : gmap string Z) (mask : list bool) :
  (∀ t j, v !! t = Some j → 0 ≤ j < Z.of_nat (length mask)) →
  ∃ v', reindex_vocabulary v mask = Ok v'
        ∧ ∀ t j,
            v' !! t = Some j
            ↔ ∃ i p : nat, j = Z.of_nat p ∧ v !! t = Some (Z.of_nat i)
                           ∧ mask !! i = Some true
                           ∧ np_where mask !! p = Some (Z.of_nat i).
Proof.
  intros Hrange. unfold reindex_vocabulary.
  rewrite bool_decide_eq_true_2.
  2:{ intros t j Ht. apply Hrange in Ht. lia. }
  eexists. split; [reflexivity|]. intros t q'. rewrite lookup_omap.
  destruct (v !! t) as [j|] eqn:Ht; simpl; [|naive_solver].
  destruct (Hrange t j Ht) as [Hj0 Hjn].
  destruct (lookup_lt_is_Some_2 mask (Z.to_nat j)) as [b Hb]; [lia|].
  destruct (lookup_lt_is_Some_2 (new_indices_of mask) (Z.to_nat j)) as [q Hq].
  { rewrite length_new_indices_of. lia. }
  rewrite (np_index_in_range mask j b), (np_index_in_range _ j q) by done.
  destruct b.
  - destruct (where_from_true mask 0 _ Hb) as (p0 & Hp0 & _).
    simpl in Hp0. fold (np_where mask) in Hp0.
    pose proof (proj1 (new_indices_of_kept mask _ p0 Hb) Hp0) as Hq0.
    assert (q = Z.of_nat p0) as -> by congruence.
    split.
    + intros [= <-]. exists (Z.to_nat j), p0.
      split; [done|]. split; [by rewrite Z2Nat.id by lia|]. done.
    + intros (i & p & -> & [= ->] & Hi & Hp). rewrite Nat2Z.id in Hp0.
      f_equal. f_equal. eapply NoDup_lookup; [apply np_where_NoDup|done..].
  - split; [done|]. intros (i & p & _ & [= ->] & Hi & _).
    rewrite Nat2Z.id in Hb. congruence.
Qed.

Lemma reindex_vocabulary_width (v v' : gmap string Z) (mask : list bool) :
  vocabulary_of_width (length mask) v →
  reindex_vocabulary v mask = Ok v' →
  vocabulary_of_width (length (np_where mask)) v'.
Proof.
  intros (Hu & Hr & Hs) Hv'.
  destruct (reindex_vocabulary_spec v mask Hr) as (v'' & Hv'' & Hlook).
  assert (v'' = v') as -> by congruence.
  split; [|split].
  - intros t1 t2 j H1 H2.
    apply Hlook in H1 as (i1 & p1 & -> & Ht1 & _ & Hp1).
    apply Hlook in H2 as (i2 & p2 & Hp & Ht2 & _ & Hp2).
    apply Nat2Z.inj in Hp as ->.
    assert (Z.of_nat i1 = Z.of_nat i2) as Hi by congruence.
    apply Nat2Z.inj in Hi as ->. eauto.
  - intros t j Ht.
    apply Hlook in Ht as (i & p & -> & _ & _ & Hp). apply lookup_lt_Some in Hp. lia.
  - intros j Hj.
    destruct (lookup_lt_is_Some_2 (np_where mask) (Z.to_nat j)) as [c Hc]; [lia|].
    pose proof Hc as Hc'. apply where_from_lookup in Hc' as (i & -> & Hi & _).
    destruct (Hs (Z.of_nat i)) as (t & Ht).
    { apply lookup_lt_Some in Hi. lia. }
    exists t. apply Hlook. exists i, (Z.to_nat j). rewrite Z2Nat.id by lia. done.
Qed.

(** ** Document frequencies of a column slice *)

Lemma count_index_app j (x y : list Z) :
  count_index j (x ++ y) = count_index j x + count_index j y.
Proof. unfold count_index. rewrite filter_app, length_app. lia. Qed.

Lemma count_index_nonneg j (x : list Z) : 0 ≤ count_index j x.
Proof. unfold count_index. lia. Qed.

Lemma count_index_NoDup j (x : list Z) :
  NoDup x → count_index j x = if decide (j ∈ x) then 1 else 0.
Proof.
  unfold count_index. induction 1 as [|c x Hc _ IH]; [done|].
  rewrite filter_cons. destruct (decide (c = j)) as [->|Hne].
  - rewrite decide_True by (by left). simpl length.
    rewrite decide_False in IH by done. lia.
  - rewrite IH. repeat case_decide; try done.
    + exfalso. set_solver.
    + exfalso. set_solver.
Qed.

Lemma indices_cons {A} (row : list (Z * A)) rows n :
  indices (CSR (row :: rows) n) = row.*1 ++ indices (CSR rows n).
Proof. unfold indices. simpl. by rewrite fmap_app. Qed.

Lemma doc_freq_le_n_rows {A} (m : csr_matrix A) j :
  rows_unique m → 0 ≤ doc_freq m j ≤ Z.of_nat (n_rows m).
Proof.
  intros Hu. split; [apply count_index_nonneg|].
  destruct m as [rows n]. unfold rows_unique, doc_freq, n_rows in *. simpl in *.
  induction Hu as [|row rows Hrow _ IH]; [done|].
  rewrite indices_cons, count_index_app, (count_index_NoDup _ _ Hrow).
  simpl length. case_decide; lia.
Qed.

Lemma elem_of_positions (kept : list Z) c (q : Z) :
  q ∈ np_where (map (fun k => bool_decide (k = c)) kept)
  ↔ ∃ p : nat, q = Z.of_nat p ∧ kept !! p = Some c.
Proof.
  rewrite elem_of_np_where. apply exist_proper. intros p.
  change (map ?f ?l) with (f <$> l). rewrite list_lookup_fmap.
  destruct (kept !! p) as [k|]; simpl; [|naive_solver].
  split; intros [-> H]; (split; [done|]).
  - injection H as H. apply bool_decide_eq_true in H. by subst.
  - injection H as ->. by rewrite bool_decide_eq_true_2.
Qed.

Lemma count_index_cons j c (x : list Z) :
  count_index j (c :: x) = (if decide (c = j) then 1 else 0) + count_index j x.
Proof. unfold count_index. rewrite filter_cons. case_decide; simpl length; lia. Qed.

Lemma count_index_column_index_row {A} (row : list (Z * A)) (kept : list Z)
  (p : nat) c :
  kept !! p = Some c →
  count_index (Z.of_nat p)
    (flat_map (fun e : Z * A =>
                 map (fun q => (q, e.2))
                     (np_where (map (fun k => bool_decide (k = e.1)) kept)))
              row).*1
  = count_index c row.*1.
Proof.
  intros Hp. induction row as [|[c' x] row IH]; [done|].
  cbn [flat_map fst snd]. rewrite fmap_app, count_index_app, IH.
  cbn [fmap list_fmap fst]. rewrite count_index_cons. f_equal.
  change (list_fmap _ _ fst (map ?f ?l)) with (fst <$> (f <$> l)).
  rewrite <- list_fmap_compose, list_fmap_id.
  rewrite count_index_NoDup by apply np_where_NoDup.
  destruct (decide (c' = c)) as [->|Hne].
  - rewrite decide_True; [done|]. apply elem_of_positions. eauto.
  - rewrite decide_False; [done|].
    intros (p' & Hp' & Hk)%elem_of_positions.
    apply Nat2Z.inj in Hp' as <-. congruence.
Qed.

Lemma doc_freq_column_index {A} (m : csr_matrix A) (kept : list Z) (p : nat) c :
  kept !! p = Some c →
  doc_freq (column_index m kept) (Z.of_nat p) = doc_freq m c.
Proof.
  intros Hp. destruct m as [rows n]. unfold doc_freq, column_index.
  cbn [mrows n_cols]. induction rows as [|row rows IH]; [done|].
  cbn [map]. rewrite !indices_cons, !count_index_app, IH. f_equal.
  by apply count_index_column_index_row.
Qed.

Lemma n_rows_column_index {A} (m : csr_matrix A) kept :
  n_rows (column_index m kept) = n_rows m.
Proof. unfold n_rows, column_index. simpl. by rewrite length_map. Qed.

(** ** The masks of [filter_terms_by_df] *)

Lemma zip_with_andb_repeat_true (l : list bool) :
  zip_with andb (repeat true (length l)) l = l.
Proof. induction l as [|b l IH]; [done|]. simpl. by rewrite IH. Qed.

Lemma zip_with_map_seq {A B C} (f : A → B → C) (g : nat → A) (h : nat → B) s n :
  zip_with f (map g (seq s n)) (map h (seq s n))
  = map (fun j => f (g j) (h j)) (seq s n).
Proof. revert s. induction n as [|n IH]; intros s; [done|]. simpl. by rewrite IH. Qed.

Lemma repeat_map_seq {A} (x : A) n s : repeat x n = map (fun _ => x) (seq s n).
Proof. revert s. induction n as [|n IH]; intros s; [done|]. simpl. by rewrite (IH (S s)). Qed.

Lemma mask_and_same_length (mask cond : list bool) :
  length cond = length mask → mask_and mask cond = Ok (zip_with andb mask cond).
Proof. intros H. unfold mask_and. by rewrite bool_decide_eq_true_2. Qed.

Lemma length_df_mask {A} (m : csr_matrix A) a b : length (df_mask m a b) = n_cols m.
Proof. unfold df_mask. by rewrite length_map, length_seq. Qed.

Lemma length_top_mask order mask k : length (top_mask order mask k) = length mask.
Proof. unfold top_mask. by rewrite length_map, length_seq. Qed.

Lemma length_final_df_mask argsort m a b k :
  length (final_df_mask argsort m a b k) = n_cols m.
Proof.
  unfold final_df_mask. destruct k as [k|]; [|apply length_df_mask].
  destruct (k <? _); rewrite ?length_top_mask; apply length_df_mask.
Qed.

Section FilterByDf.
Variable argsort : list Z → list nat.

(** The five ways through [filter_terms_by_df]. *)
Lemma filter_terms_by_df_cases (m : csr_matrix Z) (v : gmap string Z)
  (max_df min_df : number) (k : option Z) :
  let max_doc_count := doc_count max_df (n_rows m) in
  let min_doc_count := doc_count min_df (n_rows m) in
  filter_terms_by_df argsort m v max_df min_df k
  = if number_is_one max_df && number_is_one min_df && bool_decide (k = None)
    then Ok (m, v)
    else if number_neg max_df || number_neg min_df
            || match k with Some k => k <? 0 | None => false end
    then Raise (ValueError InvalidFilterBounds)
    else if max_doc_count <? min_doc_count
    then Raise (ValueError InvalidFilterBounds)
    else if bool_decide (nnz m = 0%nat)
    then Raise (ValueError NoNonZeroEntry)
    else if bool_decide (indices_in_range m)
    then compactify m v (final_df_mask argsort m max_doc_count min_doc_count k)
    else filter_terms_by_df argsort m v max_df min_df k.
Proof.
  intros maxc minc. unfold filter_terms_by_df. fold maxc minc.
  destruct (_ && _); [done|]. destruct (_ || _); [done|].
  destruct (maxc <? minc); [done|].
  case_bool_decide as Hnnz.
  { unfold get_doc_freqs. by rewrite bool_decide_eq_true_2. }
  case_bool_decide as Hrange; [|done].
  rewrite get_doc_freqs_in_range by done. cbn [mbind result_bind].
  assert (∀ f : Z → bool,
            mask_and (repeat true (n_cols m))
              (map f (map (fun j => doc_freq m (Z.of_nat j)) (seq 0 (n_cols m))))
            = Ok (map (fun j => f (doc_freq m (Z.of_nat j))) (seq 0 (n_cols m))))
    as Hfirst.
  { intros f. rewrite mask_and_same_length
      by (by rewrite repeat_length, !length_map, length_seq).
    rewrite map_map.
    rewrite <- (length_seq (n_cols m) 0) at 1.
    rewrite <- (length_map (fun j => f (doc_freq m (Z.of_nat j)))).
    by rewrite zip_with_andb_repeat_true. }
  assert (∀ (g : nat → bool) (f : Z → bool),
            mask_and (map g (seq 0 (n_cols m)))
              (map f (map (fun j => doc_freq m (Z.of_nat j)) (seq 0 (n_cols m))))
            = Ok (map (fun j => g j && f (doc_freq m (Z.of_nat j)))
                      (seq 0 (n_cols m)))) as Hsecond.
  { intros g f. rewrite mask_and_same_length by (by rewrite !length_map).
    by rewrite map_map, zip_with_map_seq. }
  pose proof (repeat_map_seq true (n_cols m) 0) as Hrep.
  assert ((if maxc <? Z.of_nat (n_rows m)
           then mask_and (repeat true (n_cols m))
                  (map (fun df => df <=? maxc)
                     (map (fun j => doc_freq m (Z.of_nat j)) (seq 0 (n_cols m))))
           else Ok (repeat true (n_cols m)))
          = Ok (map (fun j => if maxc <? Z.of_nat (n_rows m)
                              then doc_freq m (Z.of_nat j) <=? maxc else true)
                    (seq 0 (n_cols m)))) as ->.
  { destruct (maxc <? _); [apply Hfirst|by rewrite Hrep]. }
  cbn [mbind result_bind].
  assert ((if 1 <? minc
           then mask_and (map (fun j => if maxc <? Z.of_nat (n_rows m)
                              then doc_freq m (Z.of_nat j) <=? maxc else true)
                    (seq 0 (n_cols m)))
                  (map (fun df => minc <=? df)
                     (map (fun j => doc_freq m (Z.of_nat j)) (seq 0 (n_cols m))))
           else Ok (map (fun j => if maxc <? Z.of_nat (n_rows m)
                              then doc_freq m (Z.of_nat j) <=? maxc else true)
                    (seq 0 (n_cols m))))
          = Ok (df_mask m maxc minc)) as ->.
  { unfold df_mask, survives_df. destruct (1 <? minc).
    - apply Hsecond.
    - f_equal. apply map_ext. intros j. by rewrite andb_true_r. }
  cbn [mbind result_bind]. unfold final_df_mask, get_term_freqs.
  rewrite (bool_decide_eq_false_2 (nnz m = 0%nat)) by done.
  destruct k as [k|]; [|done]. by destruct (k <? _).
Qed.

End FilterByDf.


Lemma length_boolean_index {A} (a : list A) : ∀ (mask : list bool) o,
  length a = length mask →
  length (boolean_index a mask) = length (where_from o mask).
Proof.
  unfold boolean_index.
  induction a as [|x a IH]; intros [|b mask] o Hlen; try done.
  simpl in Hlen. cbn [zip zip_with]. destruct b.
  - rewrite filter_cons_True by done. simpl. f_equal. apply IH. lia.
  - rewrite filter_cons_False by done. simpl. apply IH. lia.
Qed.



Lemma top_mask_lookup order mask k (j : nat) :
  top_mask order mask k !! j = Some true
  ↔ (j < length mask)%nat
    ∧ ∃ p, p ∈ take (Z.to_nat k) (reverse order)
           ∧ nth p (np_where mask) 0 = Z.of_nat j.
Proof.
  unfold top_mask. change (map ?f (seq 0 ?n)) with (f <$> seq 0 n).
  rewrite list_lookup_fmap. destruct (decide (j < length mask)%nat) as [Hj|Hj].
  - rewrite lookup_seq_lt by done. simpl. split.
    + intros [= H]. apply bool_decide_eq_true in H. split; [done|].
      apply list_elem_of_fmap in H as (p & Hp & Hin). eauto.
    + intros [_ (p & Hin & Hp)]. f_equal. apply bool_decide_eq_true.
      apply list_elem_of_fmap. eauto.
  - rewrite lookup_seq_ge by lia. simpl. split; [done|]. intros [? _]. lia.
Qed.

Section FilterByDfBounds.
Variable argsort : list Z → list nat.
Hypothesis argsort_perm : ∀ l, argsort l ≡ₚ seq 0 (length l).



End FilterByDfBounds.


Lemma compactify_spec {A} (m : csr_matrix A) (v : gmap string Z) (mask : list bool) :
  vocabulary_of_width (length mask) v →
  (np_where mask = [] ∧ compactify m v mask = Raise (ValueError NoTermsRemain))
  ∨ (np_where mask ≠ []
     ∧ ∃ v', reindex_vocabulary v mask = Ok v'
             ∧ compactify m v mask = Ok (column_index m (np_where mask), v')
             ∧ vocabulary_of_width (length (np_where mask)) v').
Proof.
  intros Hv. pose proof Hv as (_ & Hr & _).
  destruct (reindex_vocabulary_spec v mask Hr) as (v' & Hv' & _).
  unfold compactify. rewrite Hv'. cbn [mbind result_bind].
  destruct (np_where mask) as [|c kept] eqn:Hk.
  - left. done.
  - right. split; [done|]. exists v'. split; [done|]. split; [done|].
    rewrite <- Hk. by eapply reindex_vocabulary_width.
Qed.


(** ** Binary64 rounding *)














(** The floats of the literals [0.1] and [0.5], and two products: [0.1 * 3]
    is not [0.3], and [0.6 * 5] is [3.0]. *)
Lemma float64_round_examples :
  Qred (float64_round (1 # 10)) = 3602879701896397 # 36028797018963968
  ∧ Qred (float64_round (1 # 2)) = 1 # 2
  ∧ Qred (float64_mul_int (float64_round (1 # 10)) 3)
    = 1351079888211149 # 4503599627370496
  ∧ Qred (float64_round (3 # 10)) = 5404319552844595 # 18014398509481984
  ∧ Qred (float64_mul_int (float64_round (6 # 10)) 5) = 3 # 1.
Proof. repeat split; vm_compute; reflexivity. Qed.



(** ** The stable argsort *)

Lemma insert_by_Permutation {A} (le : A → A → bool) x (l : list (nat * A)) :
  insert_by le x l ≡ₚ x :: l.
Proof.
  induction l as [|y l IH]; [done|]. simpl. destruct (le x.2 y.2); [done|].
  rewrite IH. apply Permutation_swap.
Qed.

Lemma insertion_sort_Permutation {A} (le : A → A → bool) (l : list (nat * A)) :
  foldr (insert_by le) [] l ≡ₚ l.
Proof.
  induction l as [|x l IH]; [done|]. simpl.
  by rewrite insert_by_Permutation, IH.
Qed.

Lemma fst_imap_pair {A} (a : list A) : ∀ o,
  (imap (fun i => pair (o + i)%nat) a).*1 = seq o (length a).
Proof.
  induction a as [|x a IH]; intros o; [done|].
  rewrite imap_cons. simpl. rewrite Nat.add_0_r. f_equal.
  rewrite <- (IH (S o)). f_equal. apply imap_ext. intros i y _. simpl.
  f_equal. lia.
Qed.

Lemma stable_argsort_by_Permutation {A} (le : A → A → bool) (a : list A) :
  stable_argsort_by le a ≡ₚ seq 0 (length a).
Proof.
  unfold stable_argsort_by. rewrite insertion_sort_Permutation.
  by rewrite <- (fst_imap_pair a 0).
Qed.


Section FilterByDfTheorem.
Variable argsort : list Z → list nat.
Hypothesis argsort_perm : ∀ l, argsort l ≡ₚ seq 0 (length l).


End FilterByDfTheorem.

(** Settle a decidable goal about concrete data by evaluation. *)
Ltac decide_by_evaluation :=
  match goal with
  | |- ?P => apply (proj1 (bool_decide_eq_true P)); vm_compute; reflexivity
  end.

Lemma vocabulary_abc_width :
  vocabulary_of_width 3 {["a" := 0; "b" := 1; "c" := 2]}.
Proof.
  split; [|split].
  - apply values_NoDup_iff. decide_by_evaluation.
  - assert (map_Forall (fun (_ : string) j => 0 ≤ j < Z.of_nat 3)
              ({["a" := 0; "b" := 1; "c" := 2]} : gmap string Z)) as H
      by decide_by_evaluation.
    intros t j Ht. exact (H t j Ht).
  - intros j Hj. simpl in Hj.
    assert (j = 0 ∨ j = 1 ∨ j = 2) as [->|[->| ->]] by lia;
      [by exists "a"%string|by exists "b"%string|by exists "c"%string].
Qed.








(** ** Keeping the [max_n_terms] most frequent columns *)


Lemma StronglySorted_lt_lookup (l : list Z) (i j : nat) a b :
  StronglySorted Z.lt l → l !! i = Some a → l !! j = Some b →
  (i < j)%nat → a < b.
Proof.
  intros Hs. revert i j. induction Hs as [|x l _ IH Hx]; intros i j Hi Hj Hij.
  - done.
  - destruct j as [|j]; [lia|]. destruct i as [|i]; simpl in *.
    + injection Hi as ->. rewrite Forall_forall in Hx.
      apply Hx. by eapply list_elem_of_lookup_2.
    + eapply IH; [done..|lia].
Qed.

Lemma StronglySorted_lt_lookup_iff (l : list Z) (i j : nat) a b :
  StronglySorted Z.lt l → l !! i = Some a → l !! j = Some b →
  ((i < j)%nat ↔ a < b).
Proof.
  intros Hs Hi Hj. split; [by eapply StronglySorted_lt_lookup|].
  intros Hab. destruct (Nat.lt_trichotomy i j) as [H|[->|H]]; [done| |].
  - assert (a = b) by congruence. lia.
  - pose proof (StronglySorted_lt_lookup l j i b a Hs Hj Hi H). lia.
Qed.





Section TopTerms.
Variable argsort : list Z → list nat.
Variable before : list Z → relation nat.
Hypothesis argsort_perm : ∀ l, argsort l ≡ₚ seq 0 (length l).
Hypothesis argsort_sorted : ∀ l, StronglySorted (before l) (argsort l).



End TopTerms.




(** * The vocabulary seen from outside *)

Lemma dom_invert_vocabulary (v : gmap string Z) :
  ids_unique v → dom (invert_vocabulary v) = values_set v.
Proof.
  intros Hu. apply set_eq. intros j. rewrite elem_of_dom, elem_of_values_set.
  split.
  - intros [t Ht]. exists t. by apply invert_vocabulary_lookup.
  - intros [t Ht]. exists t. by apply invert_vocabulary_lookup.
Qed.

Lemma size_invert_vocabulary (v : gmap string Z) :
  ids_unique v → size (invert_vocabulary v) = size v.
Proof.
  intros Hu. rewrite <- size_dom, dom_invert_vocabulary by done.
  by apply values_unique_iff.
Qed.

(** Reading [id_to_term] on a vocabulary without repeated ids gives its
    inverse: as many entries, [id_to_term[vocabulary[t]] = t] and
    [vocabulary[id_to_term[j]] = j]. The read leaves the vocabulary alone and
    a second read returns the same mapping. *)
Theorem id_to_term_inverse (self : Vectorizer) (v : gmap string Z) :
  vocabulary_terms self = Some v → ids_unique v →
  ∃ m, (id_to_term self).2 = Ok m
       ∧ size m = size v
       ∧ (∀ t j, v !! t = Some j ↔ m !! j = Some t)
       ∧ vocabulary_terms (id_to_term self).1 = Some v
       ∧ (id_to_term (id_to_term self).1).2 = Ok m.
Proof.
  intros Hv Hu. exists (invert_vocabulary v).
  unfold id_to_term. rewrite !py_ne_len_vocabulary, Hv. cbn.
  rewrite ?py_ne_len_vocabulary, ?Hv. cbn.
  split; [done|]. split; [by apply size_invert_vocabulary|].
  split; [|done]. intros t j. symmetry. by apply invert_vocabulary_lookup.
Qed.

Lemma vocabulary_of_width_check (n : nat) (v : gmap string Z) :
  size (values_set v) = size v → size v = n →
  bool_decide (map_Forall (fun (_ : string) j => 0 ≤ j < Z.of_nat n) v) = true →
  vocabulary_of_width n v.
Proof.
  intros Hu <- Hr. apply bool_decide_eq_true in Hr.
  apply vocabulary_of_width_size; [by apply values_unique_iff|].
  intros t j Ht. exact (Hr t j Ht).
Qed.

Lemma id_to_term_inverse_witness :
  ∃ m, (id_to_term
          (mkVectorizer "tf" false false true (PyInt 1) (PyFloat 1) 0 None
             (Some {["a" := 0; "b" := 1]}) true ∅)).2 = Ok m
       ∧ m !! 0 = Some "a"%string ∧ m !! 1 = Some "b"%string.
Proof.
  destruct (id_to_term_inverse
              (mkVectorizer "tf" false false true (PyInt 1) (PyFloat 1) 0 None
                 (Some {["a" := 0; "b" := 1]}) true ∅)
              {["a" := 0; "b" := 1]})
    as (m & Hm & _ & Hl & _).
  - reflexivity.
  - apply values_unique_iff. vm_compute. reflexivity.
  - exists m. split; [done|]. split; apply Hl; reflexivity.
Defined.

Instance id_le_total : Total id_le.
Proof. intros x y. unfold id_le. lia. Qed.

Instance id_le_trans : Transitive id_le.
Proof. intros x y z. unfold id_le. lia. Qed.

Lemma StronglySorted_seqZ (m n : Z) : StronglySorted Z.le (seqZ m n).
Proof.
  destruct (decide (0 ≤ n)) as [Hn|Hn]; [|rewrite seqZ_nil by lia; constructor].
  revert m. pattern n. apply natlike_ind; [|clear n Hn|exact Hn].
  - intros m. rewrite seqZ_nil by lia. constructor.
  - intros n Hn IH m. rewrite seqZ_cons by lia.
    replace (Z.pred (Z.succ n)) with n by lia.
    constructor; [apply IH|]. apply Forall_forall. intros x Hx.
    apply elem_of_seqZ in Hx. lia.
Qed.

(** The ids of a vocabulary that numbers [n] columns, in ascending order,
    are [0, 1, ..., n-1]. *)
Lemma items_by_id_ids (n : nat) (v : gmap string Z) :
  vocabulary_of_width n v → (items_by_id v).*2 = seqZ 0 (Z.of_nat n).
Proof.
  intros (Hu & Hr & Hs). apply (StronglySorted_unique Z.le).
  - apply (StronglySorted_fmap snd id_le).
    + intros x y Hxy. exact Hxy.
    + apply StronglySorted_merge_sort; apply _.
  - apply StronglySorted_seqZ.
  - unfold items_by_id. rewrite merge_sort_Permutation.
    apply NoDup_Permutation.
    + by apply values_NoDup_iff.
    + apply NoDup_seqZ.
    + intros j. rewrite elem_of_seqZ, list_elem_of_fmap. split.
      * intros ([t i] & -> & Hin). apply elem_of_map_to_list in Hin.
        apply Hr in Hin. simpl. lia.
      * intros Hj. destruct (Hs j) as [t Ht]; [lia|].
        exists (t, j). split; [done|]. by apply elem_of_map_to_list.
Qed.

Lemma items_by_id_lookup (n : nat) (v : gmap string Z) (j : nat) t :
  vocabulary_of_width n v →
  (items_by_id v).*1 !! j = Some t ↔ v !! t = Some (Z.of_nat j).
Proof.
  intros Hv. pose proof (items_by_id_ids n v Hv) as Hids.
  destruct Hv as (Hu & Hr & Hs).
  assert (∀ t' i, (items_by_id v) !! j = Some (t', i) →
                  i = Z.of_nat j ∧ v !! t' = Some i) as Hat.
  { intros t' i Hl. split.
    - assert ((items_by_id v).*2 !! j = Some i) as Hi
        by (by rewrite list_lookup_fmap, Hl).
      rewrite Hids in Hi. apply lookup_seqZ in Hi. lia.
    - apply list_elem_of_lookup_2 in Hl. unfold items_by_id in Hl.
      rewrite merge_sort_Permutation in Hl. by apply elem_of_map_to_list. }
  rewrite list_lookup_fmap. split.
  - destruct (items_by_id v !! j) as [[t' i]|] eqn:Hl; [|done].
    intros [= <-]. destruct (Hat t' i eq_refl) as [-> Ht]. done.
  - intros Ht. pose proof (Hr t _ Ht) as Hj.
    destruct (lookup_lt_is_Some_2 (items_by_id v) j) as [[t' i] Hl].
    { rewrite <- (length_fmap snd), Hids, length_seqZ. lia. }
    rewrite Hl. simpl. destruct (Hat t' i Hl) as [-> Ht'].
    f_equal. by eapply Hu.
Qed.

(** [terms_list] on an instance whose vocabulary numbers its terms
    [0 .. n-1] lists the [n] terms in column order: [terms_list[j]] is the
    term of id [j], which is also [id_to_term[j]]. Without a vocabulary, or
    with an empty one, the read raises the errors of [_check_vocabulary]. *)
Theorem terms_list_in_column_order :
  (∀ self v,
     vocabulary_terms self = Some v → size v ≠ 0%nat →
     vocabulary_of_width (size v) v →
     ∃ l, terms_list self = Ok l
          ∧ length l = size v
          ∧ (∀ (j : nat) t, l !! j = Some t ↔ v !! t = Some (Z.of_nat j))
          ∧ (∀ (j : nat) t,
               l !! j = Some t ↔ invert_vocabulary v !! Z.of_nat j = Some t))
  ∧ (∀ self, vocabulary_terms self = None →
             terms_list self = Raise (ValueError VocabularyNotFit))
  ∧ (∀ self, vocabulary_terms self = Some ∅ →
             terms_list self = Raise (ValueError EmptyVocabulary)).
Proof.
  split; [|split].
  - intros self v Hv Hne Hw. exists (items_by_id v).*1.
    unfold terms_list, _check_vocabulary. rewrite Hv.
    rewrite bool_decide_eq_false_2 by done. cbn.
    split; [done|]. split; [|split].
    + rewrite length_fmap, <- (length_fmap snd (items_by_id v)),
        (items_by_id_ids _ _ Hw), length_seqZ. lia.
    + intros j t. by apply (items_by_id_lookup (size v)).
    + intros j t. rewrite (items_by_id_lookup (size v)) by done.
      symmetry. apply invert_vocabulary_lookup. apply Hw.
  - intros self Hv. unfold terms_list, _check_vocabulary. by rewrite Hv.
  - intros self Hv. unfold terms_list, _check_vocabulary. by rewrite Hv.
Qed.


(** * Counting in closed form *)

Lemma count_term_fixed_vocabulary (v : gmap string Z) tc x :
  (count_term true (v, tc) x).1 = v.
Proof. unfold count_term. by destruct (v !! x). Qed.

Lemma count_terms_fold_fixed_vocabulary (doc : list string) :
  ∀ (v : gmap string Z) tc, (foldl (count_term true) (v, tc) doc).1 = v.
Proof.
  induction doc as [|x doc IH]; intros v tc; [done|]. cbn [foldl].
  pose proof (count_term_fixed_vocabulary v tc x) as Hv.
  destruct (count_term true (v, tc) x) as [v1 tc1]. simpl in Hv. subst v1.
  apply IH.
Qed.

Lemma count_docs_fold_fixed_rows (docs : list (list string)) :
  ∀ (v : gmap string Z) (rows : list (list (Z * Z))),
    foldl (count_doc true)
          (v, (concat rows).*2, (concat rows).*1, offsets_from 0 rows) docs
    = (v, (concat (rows ++ map (fun doc => map_to_list (term_counter_of v doc)) docs)).*2,
          (concat (rows ++ map (fun doc => map_to_list (term_counter_of v doc)) docs)).*1,
          offsets_from 0 (rows ++ map (fun doc => map_to_list (term_counter_of v doc)) docs)).
Proof.
  induction docs as [|doc docs IH]; intros v rows.
  - simpl. by rewrite app_nil_r.
  - cbn [foldl map]. unfold count_doc at 2.
    pose proof (count_terms_fold_fixed_vocabulary doc v ∅) as Hv.
    unfold term_counter_of at 1 2 3.
    destruct (foldl (count_term true) (v, ∅) doc) as [v1 tc1] eqn:Hf.
    simpl in Hv. subst v1.
    destruct (count_doc_arrays rows (map_to_list tc1)) as (-> & -> & ->).
    rewrite IH. unfold term_counter_of at 4 5 6. rewrite Hf. cbn [snd].
    by rewrite <- !app_assoc.
Qed.

(** Counting under a fixed vocabulary, in closed form. *)
Lemma count_terms_fixed_closed (self : Vectorizer) (docs : list (list string)) v :
  vocabulary_terms self = Some v →
  _count_terms self docs true = Ok (count_matrix v docs, v).
Proof.
  intros Hv. unfold _count_terms. rewrite Hv. cbn [mbind result_bind].
  pose proof (count_docs_fold_fixed_rows docs v []) as Hf. simpl in Hf.
  rewrite Hf, csr_of_arrays_rows. unfold count_matrix, count_row, sort_indices.
  cbn [mrows n_cols]. by rewrite map_map.
Qed.

(** ** The open vocabulary counts like its final state *)

Lemma count_terms_fold_grows fixed_vocab (doc : list string) :
  ∀ (v : gmap string Z) tc, v ⊆ (foldl (count_term fixed_vocab) (v, tc) doc).1.
Proof.
  induction doc as [|x doc IH]; intros v tc; [done|]. cbn [foldl].
  pose proof (count_term_grows fixed_vocab v tc x) as Hsub.
  destruct (count_term fixed_vocab (v, tc) x) as [v1 tc1]. simpl in Hsub.
  etrans; [exact Hsub|apply IH].
Qed.

Lemma count_doc_grows fixed_vocab (v : gmap string Z) d i p doc :
  v ⊆ (count_doc fixed_vocab (v, d, i, p) doc).1.1.1.
Proof.
  unfold count_doc.
  pose proof (count_terms_fold_grows fixed_vocab doc v ∅) as Hsub.
  by destruct (foldl (count_term fixed_vocab) (v, ∅) doc) as [v1 tc1].
Qed.

Lemma count_docs_fold_grows fixed_vocab (docs : list (list string)) :
  ∀ (v : gmap string Z) d i p,
    v ⊆ (foldl (count_doc fixed_vocab) (v, d, i, p) docs).1.1.1.
Proof.
  induction docs as [|doc docs IH]; intros v d i p; [done|]. cbn [foldl].
  pose proof (count_doc_grows fixed_vocab v d i p doc) as Hsub.
  destruct (count_doc fixed_vocab (v, d, i, p) doc) as [[[v1 d1] i1] p1].
  simpl in Hsub. etrans; [exact Hsub|apply IH].
Qed.

Lemma count_term_as_fixed (v vf : gmap string Z) tc x :
  (count_term false (v, tc) x).1 ⊆ vf →
  count_term true (vf, tc) x = (vf, (count_term false (v, tc) x).2).
Proof.
  unfold count_term. destruct (v !! x) as [j|] eqn:Hx; simpl; intros Hsub.
  - by rewrite (lookup_weaken _ _ _ _ Hx Hsub).
  - by rewrite (lookup_weaken _ vf x (Z.of_nat (size v))
                  (lookup_insert_eq v x _) Hsub).
Qed.

Lemma count_terms_fold_as_fixed (doc : list string) :
  ∀ (v vf : gmap string Z) tc,
    (foldl (count_term false) (v, tc) doc).1 ⊆ vf →
    foldl (count_term true) (vf, tc) doc
    = (vf, (foldl (count_term false) (v, tc) doc).2).
Proof.
  induction doc as [|x doc IH]; intros v vf tc Hsub; [done|].
  cbn [foldl] in *.
  pose proof (count_term_as_fixed v vf tc x) as Hx.
  pose proof (count_terms_fold_grows false doc
                (count_term false (v, tc) x).1 (count_term false (v, tc) x).2)
    as Hgrow.
  destruct (count_term false (v, tc) x) as [v1 tc1]. cbn [fst snd] in Hx, Hgrow.
  rewrite Hx by (etrans; [exact Hgrow|exact Hsub]).
  by apply IH.
Qed.

Lemma count_docs_fold_as_fixed (docs : list (list string)) :
  ∀ (v vf : gmap string Z) d i p,
    (foldl (count_doc false) (v, d, i, p) docs).1.1.1 ⊆ vf →
    foldl (count_doc true) (vf, d, i, p) docs
    = (vf, (foldl (count_doc false) (v, d, i, p) docs).1.1.2,
           (foldl (count_doc false) (v, d, i, p) docs).1.2,
           (foldl (count_doc false) (v, d, i, p) docs).2).
Proof.
  induction docs as [|doc docs IH]; intros v vf d i p Hsub; [done|].
  cbn [foldl] in *.
  pose proof (count_docs_fold_grows false docs) as Hgrow.
  unfold count_doc at 2. unfold count_doc at 2 in Hsub.
  unfold count_doc at 3 5 7.
  pose proof (count_terms_fold_as_fixed doc v vf ∅) as Hdoc.
  destruct (foldl (count_term false) (v, ∅) doc) as [v1 tc1]. cbn [fst snd] in Hdoc.
  rewrite Hdoc.
  2:{ etrans; [apply (Hgrow v1)|exact Hsub]. }
  by apply IH.
Qed.

(** What [_count_terms] returns with an open vocabulary is what it returns
    when that vocabulary is given to it as fixed. *)
Lemma count_terms_open_closed (self : Vectorizer) (docs : list (list string)) m v :
  _count_terms self docs false = Ok (m, v) → m = count_matrix v docs.
Proof.
  intros Hopen.
  pose proof (count_terms_fixed_closed (set_vocabulary_terms self (Some v)) docs v
                eq_refl) as Hfixed.
  remember (count_matrix v docs) as cm eqn:Hcm. clear Hcm.
  unfold _count_terms in Hopen, Hfixed. cbn [mbind result_bind] in Hopen.
  cbn [set_vocabulary_terms vocabulary_terms mbind result_bind] in Hfixed.
  pose proof (count_docs_fold_as_fixed docs ∅ v [] [] [0%nat]) as Hfold.
  destruct (foldl (count_doc false) (∅, [], [], [0%nat]) docs)
    as [[[v1 d1] i1] p1]. simpl in Hfold.
  injection Hopen as Hm ->. rewrite Hfold in Hfixed by done.
  injection Hfixed as Hf. rewrite <- Hm, <- Hf. reflexivity.
Qed.

(** ** What a counter stores *)

Lemma tokens_with_id_cons v j x doc :
  tokens_with_id v j (x :: doc)
  = (if decide (v !! x = Some j) then 1 else 0) + tokens_with_id v j doc.
Proof.
  unfold tokens_with_id. rewrite filter_cons. case_decide; simpl length; lia.
Qed.

Lemma tokens_with_id_nonneg v j doc : 0 ≤ tokens_with_id v j doc.
Proof. unfold tokens_with_id. lia. Qed.

Lemma count_terms_fold_lookup (doc : list string) : ∀ (v : gmap string Z) tc j,
  (foldl (count_term true) (v, tc) doc).2 !! j
  = if decide (tokens_with_id v j doc = 0) then tc !! j
    else Some (default 0 (tc !! j) + tokens_with_id v j doc).
Proof.
  induction doc as [|x doc IH]; intros v tc j.
  - by rewrite decide_True.
  - cbn [foldl]. rewrite tokens_with_id_cons.
    pose proof (tokens_with_id_nonneg v j doc) as Hn.
    unfold count_term at 2. destruct (v !! x) as [jx|] eqn:Hx.
    + rewrite IH. unfold incr. rewrite lookup_insert.
      destruct (decide (jx = j)) as [->|Hne].
      * rewrite (decide_True (P := Some j = Some j)) by done.
        rewrite (decide_False (P := 1 + _ = 0)) by lia.
        case_decide as H0; simpl; f_equal; lia.
      * rewrite (decide_False (P := Some jx = Some j)) by congruence.
        simpl. done.
    + rewrite IH. rewrite (decide_False (P := None = Some j)) by done. done.
Qed.

(** The counter of a document stores, for an id, the number of tokens of
    that id, and nothing for an id without token. *)
Lemma term_counter_of_lookup (v : gmap string Z) doc j :
  term_counter_of v doc !! j
  = if decide (tokens_with_id v j doc = 0) then None
    else Some (tokens_with_id v j doc).
Proof.
  unfold term_counter_of. rewrite count_terms_fold_lookup, lookup_empty.
  case_decide; [done|]. simpl. done.
Qed.

Lemma tokens_with_id_Permutation v j doc doc' :
  doc ≡ₚ doc' → tokens_with_id v j doc = tokens_with_id v j doc'.
Proof. intros H. unfold tokens_with_id. by rewrite H. Qed.

Lemma term_counter_of_Permutation v doc doc' :
  doc ≡ₚ doc' → term_counter_of v doc = term_counter_of v doc'.
Proof.
  intros H. apply map_eq. intros j. rewrite !term_counter_of_lookup.
  by rewrite (tokens_with_id_Permutation v j doc doc' H).
Qed.

Lemma elem_of_count_row (v : gmap string Z) doc j c :
  (j, c) ∈ count_row v doc ↔ c = tokens_with_id v j doc ∧ 0 < c.
Proof.
  unfold count_row. rewrite merge_sort_Permutation, elem_of_map_to_list.
  rewrite term_counter_of_lookup.
  pose proof (tokens_with_id_nonneg v j doc). case_decide; split.
  - done.
  - intros [-> ?]. lia.
  - intros [= <-]. split; [done|lia].
  - intros [-> ?]. done.
Qed.

Lemma count_row_NoDup (v : gmap string Z) doc : NoDup (count_row v doc).*1.
Proof.
  unfold count_row. rewrite merge_sort_Permutation. apply NoDup_fst_map_to_list.
Qed.

Lemma elem_of_count_row_keys (v : gmap string Z) doc j :
  j ∈ (count_row v doc).*1 ↔ 0 < tokens_with_id v j doc.
Proof.
  rewrite list_elem_of_fmap. split.
  - intros ([j' c] & -> & Hin). apply elem_of_count_row in Hin. simpl. lia.
  - intros Hpos. exists (j, tokens_with_id v j doc). split; [done|].
    by apply elem_of_count_row.
Qed.

Lemma row_get_count_row (v : gmap string Z) doc j :
  row_get (count_row v doc) j = tokens_with_id v j doc.
Proof.
  unfold count_row.
  rewrite (row_get_Permutation _ (map_to_list (term_counter_of v doc)))
    by apply merge_sort_Permutation.
  rewrite row_get_map_to_list, term_counter_of_lookup. by case_decide.
Qed.


(** * Column slices of count matrices *)

Lemma vocabulary_of_width_size_eq (n : nat) (v : gmap string Z) :
  vocabulary_of_width n v → size v = n.
Proof.
  intros (Hu & Hr & Hs).
  assert (values_set v = list_to_set (seqZ 0 (Z.of_nat n))) as Heq.
  { apply set_eq. intros j.
    rewrite elem_of_values_set, elem_of_list_to_set, elem_of_seqZ. split.
    - intros [t Ht]. apply Hr in Ht. lia.
    - intros Hj. apply Hs. lia. }
  rewrite <- (proj2 (values_unique_iff v) Hu), Heq.
  rewrite size_list_to_set by apply NoDup_seqZ.
  rewrite length_seqZ. lia.
Qed.

Lemma mrows_column_index {A} (m : csr_matrix A) (kept : list Z) :
  mrows (column_index m kept) = map (fun row => column_index_row row kept) (mrows m).
Proof. done. Qed.

Lemma elem_of_column_index_row {A} (row : list (Z * A)) (kept : list Z) q x :
  (q, x) ∈ column_index_row row kept
  ↔ ∃ (p : nat) c, q = Z.of_nat p ∧ kept !! p = Some c ∧ (c, x) ∈ row.
Proof.
  unfold column_index_row. rewrite list_elem_of_In, in_flat_map. split.
  - intros ([c y] & He & Hin). apply list_elem_of_In in He, Hin.
    cbn [fst snd] in Hin.
    apply list_elem_of_fmap in Hin as (q' & [= -> ->] & Hq).
    apply elem_of_positions in Hq as (p & -> & Hp). eauto.
  - intros (p & c & -> & Hp & Hin). exists (c, x).
    split; [by apply list_elem_of_In|]. apply list_elem_of_In.
    cbn [fst snd]. apply list_elem_of_fmap. exists (Z.of_nat p). split; [done|].
    apply elem_of_positions. eauto.
Qed.

Instance col_le_total {A} : Total (@col_le A).
Proof. intros x y. unfold col_le. lia. Qed.

Instance col_le_trans {A} : Transitive (@col_le A).
Proof. intros x y z. unfold col_le. lia. Qed.

Lemma column_index_row_sorted {A} (row : list (Z * A)) (kept : list Z) :
  StronglySorted Z.lt kept → StronglySorted col_le row →
  StronglySorted col_le (column_index_row row kept).
Proof.
  intros Hkept. induction 1 as [|e row Hrow IH He]; [constructor|].
  change (column_index_row (e :: row) kept)
    with (map (fun p => (p, e.2))
              (np_where (map (fun c => bool_decide (c = e.1)) kept))
          ++ column_index_row row kept).
  apply StronglySorted_app_2; [| |exact IH].
  - intros [q1 x1] [q2 x2] H1 H2.
    apply list_elem_of_fmap in H1 as (q & [= -> ->] & Hq).
    apply elem_of_positions in Hq as (p1 & -> & Hp1).
    apply elem_of_column_index_row in H2 as (p2 & c & -> & Hp2 & Hin).
    rewrite Forall_forall in He. specialize (He _ Hin).
    unfold col_le in *. cbn [fst] in *.
    destruct (decide (p1 ≤ p2)%nat) as [|Hlt]; [lia|].
    assert (c < e.1); [|lia].
    eapply (StronglySorted_lt_lookup kept p2 p1); [done..|lia].
  - apply (StronglySorted_fmap (fun p => (p, e.2)) Z.lt).
    + intros a b Hab. unfold col_le. simpl. lia.
    + apply where_from_increasing.
Qed.

Lemma count_row_sorted (v : gmap string Z) doc :
  StronglySorted col_le (count_row v doc).
Proof. apply StronglySorted_merge_sort; apply _. Qed.

Lemma NoDup_fst_NoDup {A} (l : list (Z * A)) : NoDup l.*1 → NoDup l.
Proof. apply NoDup_fmap_1. Qed.

Lemma column_index_row_NoDup {A} (row : list (Z * A)) (kept : list Z) :
  NoDup row.*1 → NoDup (column_index_row row kept).*1.
Proof.
  induction row as [|e row IH]; intros Hnd; [constructor|].
  apply NoDup_cons in Hnd as [He Hnd].
  change (column_index_row (e :: row) kept)
    with (map (fun p => (p, e.2))
              (np_where (map (fun c => bool_decide (c = e.1)) kept))
          ++ column_index_row row kept).
  rewrite fmap_app. apply NoDup_app. split; [|split; [|by apply IH]].
  - change (map ?f ?l) with (f <$> l). rewrite <- list_fmap_compose.
    rewrite list_fmap_id. apply np_where_NoDup.
  - intros q H1 H2.
    change (map ?f ?l) with (f <$> l) in H1.
    rewrite <- list_fmap_compose, list_fmap_id in H1.
    apply elem_of_positions in H1 as (p1 & -> & Hp1).
    apply list_elem_of_fmap in H2 as ([q x] & Hq & Hin). simpl in Hq. subst q.
    apply elem_of_column_index_row in Hin as (p2 & c & Hp & Hp2 & Hin).
    apply Nat2Z.inj in Hp as <-. apply He.
    apply list_elem_of_fmap. exists (c, x). split; [|done]. simpl. congruence.
Qed.

(** Slicing the row of a document by the kept columns gives its row under
    the renumbered vocabulary. *)
Lemma column_index_count_row (v v' : gmap string Z) (mask : list bool) doc :
  vocabulary_of_width (length mask) v →
  reindex_vocabulary v mask = Ok v' →
  column_index_row (count_row v doc) (np_where mask) = count_row v' doc.
Proof.
  intros Hv Hv'. pose proof Hv as (Hu & Hr & Hs).
  destruct (reindex_vocabulary_spec v mask Hr) as (v'' & Hv'' & Hlook).
  assert (v'' = v') as -> by congruence. clear Hv''.
  assert (∀ (p : nat) i, np_where mask !! p = Some i →
            tokens_with_id v' (Z.of_nat p) doc = tokens_with_id v i doc) as Htok.
  { intros p i Hp. unfold tokens_with_id. do 2 f_equal.
    apply list_filter_iff. intros t. rewrite Hlook. split.
    - intros (i' & p' & Hpp & Ht & _ & Hp'). apply Nat2Z.inj in Hpp as <-.
      congruence.
    - intros Ht. pose proof Hp as Hp'.
      apply where_from_lookup in Hp' as (i' & -> & Hi' & _).
      exists i', p. done. }
  assert (∀ q x, (q, x) ∈ column_index_row (count_row v doc) (np_where mask)
                 ↔ (q, x) ∈ count_row v' doc) as Hmem.
  { intros q x. rewrite elem_of_column_index_row, elem_of_count_row. split.
    - intros (p & c & -> & Hp & Hin). apply elem_of_count_row in Hin as [-> Hpos].
      by rewrite (Htok p c Hp).
    - intros [-> Hpos].
      assert (∃ t, v' !! t = Some q) as [t Ht].
      { unfold tokens_with_id in Hpos.
        destruct (filter _ doc) as [|t l] eqn:Hf; [simpl in Hpos; lia|].
        exists t.
        assert (t ∈ filter (fun t => v' !! t = Some q) doc) as Hin
          by (rewrite Hf; by left).
        by apply list_elem_of_filter in Hin as [Hin _]. }
      apply Hlook in Ht as (i & p & -> & _ & _ & Hp).
      exists p, (Z.of_nat i). split; [done|]. split; [done|].
      apply elem_of_count_row. by rewrite <- (Htok p _ Hp). }
  apply (StronglySorted_unique_strong col_le).
  - intros [q1 x1] [q2 x2] H1 H2 H12 H21. unfold col_le in *. cbn [fst] in *.
    assert (q1 = q2) as -> by lia.
    apply Hmem, elem_of_count_row in H1 as [-> _].
    apply elem_of_count_row in H2 as [-> _]. done.
  - apply column_index_row_sorted; [apply where_from_increasing|].
    apply count_row_sorted.
  - apply count_row_sorted.
  - apply NoDup_Permutation; [| |by intros [q x]].
    + apply NoDup_fst_NoDup, column_index_row_NoDup, count_row_NoDup.
    + apply NoDup_fst_NoDup, count_row_NoDup.
Qed.


(** * The information-content filter *)

Lemma get_information_content_in_range {A} (m : csr_matrix A) :
  nnz m ≠ 0%nat → indices_in_range m →
  get_information_content m
  = Ok (map (fun j => ic_of m (Z.of_nat j)) (seq 0 (n_cols m))).
Proof.
  intros Hnnz Hr. unfold get_information_content, get_doc_freqs_normalized.
  rewrite get_doc_freqs_in_range by done. cbn [mbind result_bind].
  by rewrite !map_map.
Qed.

Lemma length_ic_mask {A} (m : csr_matrix A) min_ic :
  length (ic_mask m min_ic) = n_cols m.
Proof. unfold ic_mask. by rewrite length_map, length_seq. Qed.

Lemma length_final_ic_mask {A} argsort_float (m : csr_matrix A) min_ic k :
  length (final_ic_mask argsort_float m min_ic k) = n_cols m.
Proof.
  unfold final_ic_mask. destruct k as [k|]; [|apply length_ic_mask].
  destruct (k <? _); rewrite ?length_top_mask; apply length_ic_mask.
Qed.

(** The ways through [filter_terms_by_ic] on a matrix whose stored indices
    are columns of the matrix. *)
Lemma filter_terms_by_ic_cases (argsort_float : list R → list nat)
  (m : csr_matrix Z) (v : gmap string Z) (min_ic : Q) (k : option Z) :
  indices_in_range m →
  filter_terms_by_ic argsort_float m v min_ic k
  = if Qeq_bool min_ic 0 && bool_decide (k = None)
    then Ok (m, v)
    else if Qlt_bool min_ic 0 || Qlt_bool 1 min_ic
    then Raise (ValueError InvalidFilterBounds)
    else if match k with Some k => k <? 0 | None => false end
    then Raise (ValueError InvalidFilterBounds)
    else if bool_decide (nnz m = 0%nat)
    then Raise (ValueError NoNonZeroEntry)
    else compactify m v (final_ic_mask argsort_float m min_ic k).
Proof.
  intros Hr. unfold filter_terms_by_ic.
  destruct (_ && _); [done|]. destruct (_ || _); [done|].
  destruct (match k with Some _ => _ | None => _ end) eqn:Hk; [done|].
  case_bool_decide as Hnnz.
  { unfold get_information_content, get_doc_freqs_normalized, get_doc_freqs.
    by rewrite bool_decide_eq_true_2. }
  rewrite get_information_content_in_range by done. cbn [mbind result_bind].
  assert ((if Qlt_bool 0 min_ic
           then mask_and (repeat true (n_cols m))
                  (map (fun ic => bool_decide (Q2R min_ic <= ic)%R)
                     (map (fun j => ic_of m (Z.of_nat j)) (seq 0 (n_cols m))))
           else Ok (repeat true (n_cols m)))
          = Ok (ic_mask m min_ic)) as ->.
  { unfold ic_mask, survives_ic. destruct (Qlt_bool 0 min_ic).
    - rewrite mask_and_same_length
        by (by rewrite repeat_length, !length_map, length_seq).
      rewrite map_map.
      rewrite <- (zip_with_andb_repeat_true
                    (map (fun j => bool_decide (Q2R min_ic <= ic_of m (Z.of_nat j))%R)
                         (seq 0 (n_cols m)))) at 2.
      by rewrite length_map, length_seq.
    - f_equal. apply (repeat_map_seq true (n_cols m) 0). }
  cbn [mbind result_bind]. unfold final_ic_mask.
  destruct k as [k|]; [|done]. by destruct (k <? mask_sum _).
Qed.

(** * Column slices keep the counts *)

Lemma row_get_app (r1 r2 : list (Z * Z)) j :
  row_get (r1 ++ r2) j = row_get r1 j + row_get r2 j.
Proof.
  unfold row_get. induction r1 as [|e r1 IH]; [done|]. simpl.
  rewrite IH. case_bool_decide; lia.
Qed.

Lemma row_get_positions (positions : list Z) (x : Z) (q : Z) :
  NoDup positions →
  row_get (map (fun p => (p, x)) positions) q
  = if decide (q ∈ positions) then x else 0.
Proof.
  induction 1 as [|p positions Hp _ IH]; [done|].
  cbn [map]. change (?e :: ?l) with ([e] ++ l) at 1. rewrite row_get_app, IH.
  unfold row_get at 1. cbn [foldr fst snd].
  destruct (decide (p = q)) as [->|Hne].
  - rewrite bool_decide_eq_true_2 by done.
    rewrite (decide_True (P := q ∈ q :: positions)) by (by left).
    rewrite decide_False by done. lia.
  - rewrite bool_decide_eq_false_2 by done.
    destruct (decide (q ∈ positions)) as [Hin|Hnin].
    + rewrite decide_True by (by right). lia.
    + rewrite decide_False; [lia|]. intros [?|?]%elem_of_cons; congruence.
Qed.

Lemma row_get_column_index_row (row : list (Z * Z)) (kept : list Z) (p : nat) c :
  kept !! p = Some c →
  row_get (column_index_row row kept) (Z.of_nat p) = row_get row c.
Proof.
  intros Hp. induction row as [|e row IH]; [done|].
  change (column_index_row (e :: row) kept)
    with (map (fun p => (p, e.2))
              (np_where (map (fun c => bool_decide (c = e.1)) kept))
          ++ column_index_row row kept).
  rewrite row_get_app, IH, row_get_positions by apply np_where_NoDup.
  change (e :: row) with ([e] ++ row). rewrite row_get_app. f_equal.
  unfold row_get. cbn [foldr].
  destruct (decide (e.1 = c)) as [He|He].
  - rewrite bool_decide_eq_true_2 by done.
    rewrite decide_True; [lia|]. apply elem_of_positions. exists p. by rewrite He.
  - rewrite bool_decide_eq_false_2 by done.
    rewrite decide_False; [done|].
    intros (p' & Hp' & Hk)%elem_of_positions.
    apply Nat2Z.inj in Hp' as <-. congruence.
Qed.

Lemma get_column_index (m : csr_matrix Z) (kept : list Z) (i p : nat) c :
  kept !! p = Some c →
  get (column_index m kept) i (Z.of_nat p) = get m i c.
Proof.
  intros Hp. unfold get. rewrite mrows_column_index.
  change [] with (column_index_row (@nil (Z * Z)) kept) at 1.
  rewrite (map_nth (fun row => column_index_row row kept)).
  by apply row_get_column_index_row.
Qed.

Lemma elem_of_concat {A} (ls : list (list A)) (x : A) :
  x ∈ concat ls ↔ ∃ l, l ∈ ls ∧ x ∈ l.
Proof.
  rewrite list_elem_of_In, in_concat. apply exist_proper. intros l.
  by rewrite !list_elem_of_In.
Qed.

Lemma column_index_canonical {A} (m : csr_matrix A) (kept : list Z) :
  rows_unique m → canonical (column_index m kept).
Proof.
  intros Hu. split.
  - unfold indices_in_range, indices. rewrite mrows_column_index.
    apply Forall_forall. intros q Hq.
    apply list_elem_of_fmap in Hq as ([q' x] & -> & Hin).
    apply elem_of_concat in Hin as (row' & Hrow' & Hin).
    apply list_elem_of_fmap in Hrow' as (row & -> & _).
    apply elem_of_column_index_row in Hin as (p & c & -> & Hp & _).
    apply lookup_lt_Some in Hp. simpl. lia.
  - unfold rows_unique in *. rewrite mrows_column_index, Forall_fmap.
    eapply Forall_impl; [exact Hu|]. intros row Hrow.
    by apply column_index_row_NoDup.
Qed.

Lemma column_slice_of_refl (m : csr_matrix Z) (v : gmap string Z) :
  canonical m → vocabulary_of_width (n_cols m) v → column_slice_of m v m v.
Proof.
  intros Hm Hv. split; [done|]. split; [done|]. split; [done|]. split.
  - intros t j Ht. by exists j.
  - intros t u i' j' i j Hi' Hj' Hi Hj.
    assert (i' = i) as -> by congruence. assert (j' = j) as -> by congruence.
    done.
Qed.

Lemma column_slice_of_trans (m1 m2 m3 : csr_matrix Z) (v1 v2 v3 : gmap string Z) :
  column_slice_of m1 v1 m2 v2 → column_slice_of m2 v2 m3 v3 →
  column_slice_of m1 v1 m3 v3.
Proof.
  intros (Hn12 & Hc2 & Hv2 & Hg12 & Ho12) (Hn23 & Hc3 & Hv3 & Hg23 & Ho23).
  split; [congruence|]. split; [done|]. split; [done|]. split.
  - intros t j3 Ht3. destruct (Hg23 t j3 Ht3) as (j2 & Ht2 & Hget23).
    destruct (Hg12 t j2 Ht2) as (j1 & Ht1 & Hget12).
    exists j1. split; [done|]. intros i. by rewrite Hget23, Hget12.
  - intros t u i3 j3 i1 j1 Ht3 Hu3 Ht1 Hu1.
    destruct (Hg23 t i3 Ht3) as (i2 & Ht2 & _).
    destruct (Hg23 u j3 Hu3) as (j2 & Hu2 & _).
    rewrite (Ho23 t u i3 j3 i2 j2) by done. by apply (Ho12 t u).
Qed.

(** The last lines of both filters select columns. *)
Lemma compactify_slice (m : csr_matrix Z) (v : gmap string Z) (mask : list bool)
  m' v' :
  canonical m → vocabulary_of_width (n_cols m) v → length mask = n_cols m →
  compactify m v mask = Ok (m', v') →
  column_slice_of m v m' v' ∧ n_cols m' ≠ 0%nat
  ∧ n_cols m' = length (np_where mask)
  ∧ reindex_vocabulary v mask = Ok v'.
Proof.
  intros [Hr Hu] Hv Hlen Hc. rewrite <- Hlen in Hv.
  destruct (compactify_spec m v mask Hv) as [[_ Hraise]|(Hne & v'' & Hv'' & Hok & Hw)];
    [congruence|].
  rewrite Hok in Hc. injection Hc as <- <-.
  pose proof Hv as (_ & Hrange & _).
  destruct (reindex_vocabulary_spec v mask Hrange) as (v3 & Hv3 & Hlook).
  assert (v3 = v'') as -> by congruence.
  split; [|split; [|split]]; [|by destruct (np_where mask)|done|done].
  split; [apply n_rows_column_index|]. split; [by apply column_index_canonical|].
  split; [done|]. split.
  - intros t j' Ht. apply Hlook in Ht as (i & p & -> & Ht & _ & Hp).
    exists (Z.of_nat i). split; [done|]. intros r. by apply get_column_index.
  - intros t u i' j' i j Ht' Hu' Ht Hu0.
    apply Hlook in Ht' as (a & pa & -> & Hta & _ & Hpa).
    apply Hlook in Hu' as (b & pb & -> & Hub & _ & Hpb).
    assert (i = Z.of_nat a) as -> by congruence.
    assert (j = Z.of_nat b) as -> by congruence.
    destruct (where_from_increasing mask 0) as [Hs _].
    rewrite <- (StronglySorted_lt_lookup_iff _ pa pb _ _ Hs Hpa Hpb). lia.
Qed.

Lemma filter_terms_by_df_slice (argsort : list Z → list nat) (m : csr_matrix Z)
  (v : gmap string Z) max_df min_df k m' v' :
  canonical m → vocabulary_of_width (n_cols m) v →
  filter_terms_by_df argsort m v max_df min_df k = Ok (m', v') →
  column_slice_of m v m' v'.
Proof.
  intros Hm Hv. rewrite filter_terms_by_df_cases.
  destruct (_ && _).
  { intros [= <- <-]. by apply column_slice_of_refl. }
  destruct (_ || _); [done|]. destruct (_ <? _); [done|].
  case_bool_decide; [done|].
  rewrite bool_decide_eq_true_2 by apply Hm.
  intros Hc. eapply compactify_slice; [done..| |exact Hc].
  apply length_final_df_mask.
Qed.

Lemma filter_terms_by_ic_slice (argsort_float : list R → list nat)
  (m : csr_matrix Z) (v : gmap string Z) min_ic k m' v' :
  canonical m → vocabulary_of_width (n_cols m) v →
  filter_terms_by_ic argsort_float m v min_ic k = Ok (m', v') →
  column_slice_of m v m' v'.
Proof.
  intros Hm Hv. rewrite filter_terms_by_ic_cases by apply Hm.
  destruct (_ && _).
  { intros [= <- <-]. by apply column_slice_of_refl. }
  destruct (_ || _); [done|].
  destruct (match k with Some _ => _ | None => _ end); [done|].
  case_bool_decide; [done|].
  intros Hc. eapply compactify_slice; [done..| |exact Hc].
  apply length_final_ic_mask.
Qed.

Lemma filter_terms_slice (argsort : list Z → list nat)
  (argsort_float : list R → list nat) (self : Vectorizer)
  (m : csr_matrix Z) (v : gmap string Z) m' v' :
  canonical m → vocabulary_of_width (n_cols m) v →
  _filter_terms argsort argsort_float self m v = Ok (m', v') →
  column_slice_of m v m' v'.
Proof.
  intros Hm Hv. unfold _filter_terms.
  destruct (_fixed_terms self).
  { intros [= <- <-]. by apply column_slice_of_refl. }
  destruct (_ || _).
  - destruct (filter_terms_by_df argsort m v _ _ _) as [[m1 v1]|e] eqn:Hdf;
      [|done].
    cbn [mbind result_bind].
    pose proof (filter_terms_by_df_slice _ _ _ _ _ _ _ _ Hm Hv Hdf) as H1.
    destruct (negb _).
    + intros Hic. eapply column_slice_of_trans; [exact H1|].
      destruct H1 as (_ & Hc1 & Hv1 & _).
      by eapply filter_terms_by_ic_slice.
    + by intros [= <- <-].
  - cbn [mbind result_bind]. destruct (negb _).
    + by apply filter_terms_by_ic_slice.
    + intros [= <- <-]. by apply column_slice_of_refl.
Qed.


(** * Numbers of the weighting engine *)

Lemma ln_le_pred (y : R) : (0 < y → ln y <= y - 1)%R.
Proof.
  intros Hy. pose proof (exp_ineq1_le (ln y)) as H.
  rewrite exp_ln in H by done. lra.
Qed.

Lemma ln_2_pos : (0 < ln 2)%R.
Proof. rewrite <- ln_1. apply ln_increasing; lra. Qed.

Lemma ln_neg_below_1 (p : R) : (0 < p < 1 → ln p < 0)%R.
Proof. intros [H0 H1]. rewrite <- ln_1. by apply ln_increasing. Qed.

(** [p * ln p >= p * (- ln 2) + p - 1/2]: the tangent bound at [1/2]. *)
Lemma entropy_term_bound (p : R) :
  (0 < p → - p * ln p <= p * ln 2 + (1 / 2 - p))%R.
Proof.
  intros Hp.
  pose proof (ln_le_pred (/ (2 * p))) as H.
  assert (0 < / (2 * p))%R as Hinv by (apply Rinv_0_lt_compat; lra).
  specialize (H Hinv).
  rewrite ln_Rinv, ln_mult in H by lra.
  assert (p * (- (ln 2 + ln p)) <= p * (/ (2 * p) - 1))%R as H'
    by (apply Rmult_le_compat_l; lra).
  replace (p * (/ (2 * p) - 1))%R with (1 / 2 - p)%R in H' by (field; lra).
  lra.
Qed.

Lemma information_content_inside (p : R) :
  (0 < p < 1)%R →
  information_content p = (- p * log2 p - (1 - p) * log2 (1 - p))%R.
Proof.
  intros Hp. unfold information_content.
  destruct (Rle_dec p 0); [lra|]. destruct (Rle_dec 1 p); [lra|]. done.
Qed.

Lemma information_content_bounds (p : R) :
  (0 <= information_content p <= 1)%R.
Proof.
  unfold information_content.
  destruct (Rle_dec p 0); [lra|]. destruct (Rle_dec 1 p); [lra|].
  assert (0 < p < 1)%R as Hp by lra.
  pose proof ln_2_pos as H2.
  pose proof (ln_neg_below_1 p Hp) as Hlp.
  pose proof (ln_neg_below_1 (1 - p) ltac:(lra)) as Hlq.
  pose proof (entropy_term_bound p ltac:(lra)) as Hbp.
  pose proof (entropy_term_bound (1 - p) ltac:(lra)) as Hbq.
  unfold log2.
  replace (- p * (ln p / ln 2) - (1 - p) * (ln (1 - p) / ln 2))%R
    with ((- p * ln p + - (1 - p) * ln (1 - p)) / ln 2)%R by (field; lra).
  split.
  - apply Rmult_le_pos; [|left; by apply Rinv_0_lt_compat].
    assert (0 <= - p * ln p)%R by nra.
    assert (0 <= - (1 - p) * ln (1 - p))%R by nra. lra.
  - apply (Rmult_le_reg_r (ln 2)); [done|].
    replace ((- p * ln p + - (1 - p) * ln (1 - p)) / ln 2 * ln 2)%R
      with (- p * ln p + - (1 - p) * ln (1 - p))%R by (field; lra).
    lra.
Qed.

Lemma information_content_half : information_content (1 / 2) = 1%R.
Proof.
  rewrite information_content_inside by lra. unfold log2.
  replace (1 - 1 / 2)%R with (/ 2)%R by lra.
  replace (1 / 2)%R with (/ 2)%R by lra.
  rewrite ln_Rinv by lra. pose proof ln_2_pos. field. lra.
Qed.

Lemma information_content_symmetric (p : R) :
  information_content (1 - p) = information_content p.
Proof.
  unfold information_content.
  destruct (Rle_dec (1 - p) 0), (Rle_dec p 0), (Rle_dec 1 (1 - p)), (Rle_dec 1 p);
    try lra.
  replace (1 - (1 - p))%R with p by lra. lra.
Qed.

(** Every value [get_information_content] returns lies in [0, 1], whatever
    the matrix; there is one value per column when the stored indices are
    columns of the matrix. A column stored in every row, or in none, has
    information content 0; a column stored in exactly half of the rows has
    information content 1; a column stored in [k] rows has the information
    content of a column stored in all but [k] rows. *)
Theorem information_content_in_unit_interval {A} (m : csr_matrix A) (ics : list R) :
  get_information_content m = Ok ics →
  Forall (fun ic => 0 <= ic <= 1)%R ics
  ∧ (indices_in_range m →
     ics = map (fun j => ic_of m (Z.of_nat j)) (seq 0 (n_cols m)))
  ∧ (∀ j, doc_freq m j = 0 ∨ doc_freq m j = Z.of_nat (n_rows m) → ic_of m j = 0%R)
  ∧ (∀ j, 2 * doc_freq m j = Z.of_nat (n_rows m) → ic_of m j = 1%R)
  ∧ (∀ j k, doc_freq m j + doc_freq m k = Z.of_nat (n_rows m) →
            ic_of m j = ic_of m k).
Proof.
  intros Hics.
  assert (nnz m ≠ 0%nat) as Hnnz.
  { intros H0. unfold get_information_content, get_doc_freqs_normalized,
      get_doc_freqs in Hics. by rewrite bool_decide_eq_true_2 in Hics. }
  assert (n_rows m ≠ 0%nat) as Hrows.
  { intros H0. apply Hnnz. unfold nnz, n_rows in *.
    apply length_zero_iff_nil in H0. by rewrite H0. }
  assert (0 < INR (n_rows m))%R as Hn by (apply lt_0_INR; lia).
  split; [|split; [|split; [|split]]].
  - unfold get_information_content in Hics.
    destruct (get_doc_freqs_normalized m) as [dfs|]; [|done].
    injection Hics as <-. apply Forall_forall. intros ic Hic.
    apply list_elem_of_fmap in Hic as (p & -> & _).
    apply information_content_bounds.
  - intros Hr. rewrite get_information_content_in_range in Hics by done.
    by injection Hics.
  - intros j [H0|Hall]; unfold ic_of, information_content.
    + rewrite H0. destruct (Rle_dec _ 0) as [|Hno]; [done|].
      exfalso. apply Hno. unfold Rdiv. lra.
    + rewrite Hall, <- INR_IZR_INZ.
      destruct (Rle_dec _ 0); [done|]. destruct (Rle_dec 1 _) as [|Hno]; [done|].
      exfalso. apply Hno. right. field. lra.
  - intros j Hhalf. unfold ic_of.
    replace (IZR (doc_freq m j) / INR (n_rows m))%R with (1 / 2)%R;
      [apply information_content_half|].
    rewrite INR_IZR_INZ, <- Hhalf, mult_IZR.
    assert (IZR (doc_freq m j) ≠ 0%R) as Hne.
    { intros H0. rewrite INR_IZR_INZ, <- Hhalf, mult_IZR, H0 in Hn. lra. }
    field. done.
  - intros j k Hsum. unfold ic_of.
    rewrite <- (information_content_symmetric (IZR (doc_freq m k) / _)).
    f_equal. rewrite INR_IZR_INZ, <- Hsum, plus_IZR.
    assert (IZR (doc_freq m j + doc_freq m k) ≠ 0%R) as Hne.
    { rewrite Hsum, <- INR_IZR_INZ. lra. }
    rewrite plus_IZR in Hne. field. done.
Qed.

Lemma information_content_in_unit_interval_witness :
  Forall (fun ic => 0 <= ic <= 1)%R
    (map (fun j => ic_of (CSR [[(0, 1)]; [(0, 1); (1, 2)]] 2) (Z.of_nat j))
         (seq 0 2)).
Proof.
  apply (information_content_in_unit_interval
           (CSR [[(0, 1)]; [(0, 1); (1, 2)]] 2)).
  apply (get_information_content_in_range (CSR [[(0, 1)]; [(0, 1); (1, 2)]] 2)).
  - vm_compute. lia.
  - repeat constructor; vm_compute; congruence.
Defined.

Lemma ln_nonneg (x : R) : (1 <= x → 0 <= ln x)%R.
Proof.
  intros [Hlt|<-]; [|rewrite ln_1; lra].
  left. rewrite <- ln_1. apply ln_increasing; lra.
Qed.

Lemma doc_freq_nonneg {A} (m : csr_matrix A) j : 0 ≤ doc_freq m j.
Proof. apply count_index_nonneg. Qed.

Lemma doc_freq_stored {A} (m : csr_matrix A) j : j ∈ indices m → 1 ≤ doc_freq m j.
Proof.
  intros Hj. unfold doc_freq, count_index.
  assert (j ∈ filter (fun i => i = j) (indices m)) as Hin
    by (by apply list_elem_of_filter).
  destruct (filter _ (indices m)); [by apply elem_of_nil in Hin|]. simpl. lia.
Qed.

(** The idf of a stored column is at least 1, and exactly 1 for a column
    stored in every row. *)
Lemma idf_ge_1 {A} (m : csr_matrix A) (smooth_idf : bool) j :
  rows_unique m → j ∈ indices m →
  (1 <= idf m smooth_idf j)%R
  ∧ (doc_freq m j = Z.of_nat (n_rows m) → idf m smooth_idf j = 1%R).
Proof.
  intros Hu Hj. pose proof (doc_freq_le_n_rows m j Hu) as Hle.
  pose proof (doc_freq_stored m j Hj) as Hge.
  unfold idf. destruct smooth_idf.
  - split.
    + assert (0 <= ln (IZR (Z.of_nat (n_rows m) + 1) / IZR (doc_freq m j + 1)))%R;
        [|lra].
      apply ln_nonneg.
      apply (Rmult_le_reg_r (IZR (doc_freq m j + 1))); [apply IZR_lt; lia|].
      replace (IZR (Z.of_nat (n_rows m) + 1) / IZR (doc_freq m j + 1)
               * IZR (doc_freq m j + 1))%R
        with (IZR (Z.of_nat (n_rows m) + 1)).
      * rewrite Rmult_1_l. apply IZR_le. lia.
      * field. apply not_0_IZR. lia.
    + intros ->. replace (_ / _)%R with 1%R; [rewrite ln_1; lra|].
      field. apply not_0_IZR. lia.
  - split.
    + assert (0 <= ln (IZR (Z.of_nat (n_rows m)) / IZR (doc_freq m j)))%R; [|lra].
      apply ln_nonneg.
      apply (Rmult_le_reg_r (IZR (doc_freq m j))); [apply IZR_lt; lia|].
      replace (IZR (Z.of_nat (n_rows m)) / IZR (doc_freq m j)
               * IZR (doc_freq m j))%R
        with (IZR (Z.of_nat (n_rows m))).
      * rewrite Rmult_1_l. apply IZR_le. lia.
      * field. apply not_0_IZR. lia.
    + intros Heq. rewrite Heq. replace (_ / _)%R with 1%R; [rewrite ln_1; lra|].
      field. apply not_0_IZR. lia.
Qed.

(** On a count matrix in canonical form with at least one stored entry,
    [apply_idf_weighting] multiplies every stored count by the idf of its
    column, which is at least 1: no non-negative count gets smaller, and the
    counts of a column stored in every row stay as they are. The stored
    positions and the shape are kept. *)
Theorem idf_weighting_never_lowers_counts (m : csr_matrix Z) (smooth_idf : bool) :
  canonical m → nnz m ≠ 0%nat →
  apply_idf_weighting (IntMatrix m) smooth_idf
  = Ok (FloatMatrix (tfidf_of m smooth_idf))
  ∧ pattern (tfidf_of m smooth_idf) = pattern m
  ∧ n_cols (tfidf_of m smooth_idf) = n_cols m
  ∧ (∀ row e, row ∈ mrows m → e ∈ row →
       (1 <= idf m smooth_idf e.1)%R
       ∧ (0 ≤ e.2 → (IZR e.2 <= IZR e.2 * idf m smooth_idf e.1)%R)
       ∧ (doc_freq m e.1 = Z.of_nat (n_rows m) →
          (IZR e.2 * idf m smooth_idf e.1)%R = IZR e.2)).
Proof.
  intros [Hr Hu] Hnnz. split; [by apply apply_idf_weighting_counts|].
  split; [|split; [done|]].
  - unfold pattern, tfidf_of. cbn [mrows]. rewrite map_map. apply map_ext.
    intros row. by rewrite map_map.
  - intros row e Hrow He.
    assert (e.1 ∈ indices m) as Hin.
    { unfold indices. apply list_elem_of_fmap. exists e. split; [done|].
      apply elem_of_concat. eauto. }
    destruct (idf_ge_1 m smooth_idf e.1 Hu Hin) as [Hge Heq].
    split; [done|]. split.
    + intros Hpos. apply IZR_le in Hpos. nra.
    + intros Hall. rewrite (Heq Hall). lra.
Qed.

Lemma idf_weighting_never_lowers_counts_witness :
  apply_idf_weighting (IntMatrix (CSR [[(0, 2)]; [(0, 1); (1, 3)]] 2)) true
  = Ok (FloatMatrix (tfidf_of (CSR [[(0, 2)]; [(0, 1); (1, 3)]] 2) true)).
Proof.
  apply (idf_weighting_never_lowers_counts (CSR [[(0, 2)]; [(0, 1); (1, 3)]] 2) true).
  - split; repeat constructor; vm_compute; try congruence.
    all: set_solver.
  - vm_compute. lia.
Defined.

(** ** Row normalization *)

Lemma sum_squares_nonneg (row : list (Z * R)) : (0 <= sum_squares row)%R.
Proof.
  unfold sum_squares. induction row as [|e row IH]; simpl; [lra|]. nra.
Qed.

Lemma sum_squares_zero (row : list (Z * R)) :
  sum_squares row = 0%R → Forall (fun e => e.2 = 0%R) row.
Proof.
  induction row as [|e row IH]; [constructor|].
  unfold sum_squares. cbn [foldr]. fold (sum_squares row). intros H.
  pose proof (sum_squares_nonneg row).
  assert (e.2 * e.2 = 0)%R as He by nra.
  constructor; [nra|]. apply IH. nra.
Qed.

Lemma sum_squares_scale (row : list (Z * R)) (c : R) :
  c ≠ 0%R →
  sum_squares (map (fun e : Z * R => (e.1, (e.2 / c)%R)) row)
  = (sum_squares row / (c * c))%R.
Proof.
  intros Hc. induction row as [|e row IH].
  - unfold sum_squares. simpl. field. done.
  - unfold sum_squares in *. cbn [map foldr snd]. rewrite IH. field. done.
Qed.

Lemma normalize_row_unit (row : list (Z * R)) :
  (normalize_row row = row ∧ Forall (fun e => e.2 = 0%R) row)
  ∨ sum_squares (normalize_row row) = 1%R.
Proof.
  unfold normalize_row. pose proof (sum_squares_nonneg row) as Hs.
  destruct (Req_dec_T (sum_squares row) 0) as [H0|Hne].
  - left. split; [done|]. by apply sum_squares_zero.
  - right. assert (0 < sqrt (sum_squares row))%R as Hsq by (apply sqrt_lt_R0; lra).
    rewrite sum_squares_scale by lra. rewrite sqrt_sqrt by done. field. done.
Qed.

Lemma normalize_row_idempotent (row : list (Z * R)) :
  normalize_row (normalize_row row) = normalize_row row.
Proof.
  destruct (normalize_row_unit row) as [[Heq _]|H1]; [by rewrite !Heq|].
  unfold normalize_row at 1. rewrite H1.
  destruct (Req_dec_T 1 0) as [|_]; [lra|]. rewrite sqrt_1.
  clear H1. induction (normalize_row row) as [|[j x] l IH]; [done|].
  cbn [map fst snd]. rewrite IH. do 2 f_equal. field.
Qed.

(** With [normalize] set, whatever the weighting, the matrix that
    [_reweight_values] returns is a float matrix in which every row either
    holds only zeros (and is left as it was) or has Euclidean norm 1;
    normalizing it once more returns it unchanged. *)
Theorem normalized_rows_have_unit_norm (self : Vectorizer) (m m' : matrix) :
  normalize self = true → _reweight_values self m = Ok m' →
  ∃ x, m' = FloatMatrix x
       ∧ Forall (fun row => Forall (fun e => e.2 = 0%R) row
                            ∨ sum_squares row = 1%R) (mrows x)
       ∧ normalize_mat x = Ok x.
Proof.
  intros Hn. rewrite reweight_values_weigh, Hn.
  destruct (weigh self m) as [y|]; [|done].
  cbn [mbind result_bind].
  destruct (normalize_mat_cases (astype_float y))
    as [(-> & Hr & Hc)|[-> _]]; [|done].
  cbn [mbind result_bind]. intros [= <-]. eexists. split; [reflexivity|].
  split.
  - unfold normalize_rows. cbn [mrows]. apply Forall_forall. intros row Hrow.
    apply list_elem_of_fmap in Hrow as (row0 & -> & _).
    destruct (normalize_row_unit row0) as [[-> H0]|H1]; [by left|by right].
  - destruct (shape_normalize_rows (astype_float y)) as [Hnr Hnc].
    rewrite normalize_mat_ok by congruence. f_equal.
    unfold normalize_rows. cbn [mrows n_cols]. f_equal.
    rewrite map_map. apply map_ext. intros row.
    apply normalize_row_idempotent.
Qed.

Lemma normalized_rows_have_unit_norm_witness :
  ∃ x, FloatMatrix (normalize_rows (CSR [[(0, 1%R); (2, 1%R)]] 3)) = FloatMatrix x
       ∧ Forall (fun row => Forall (fun e => e.2 = 0%R) row
                            ∨ sum_squares row = 1%R) (mrows x)
       ∧ normalize_mat x = Ok x.
Proof.
  apply (normalized_rows_have_unit_norm binary_normalized
           (IntMatrix (CSR [[(0, 3); (2, 5)]] 3))); reflexivity.
Defined.


(** * The pipeline on count matrices *)

Lemma count_matrix_canonical (v : gmap string Z) (docs : list (list string)) :
  (∀ t j, v !! t = Some j → 0 ≤ j < Z.of_nat (size v)) →
  canonical (count_matrix v docs).
Proof.
  intros Hr. split.
  - unfold indices_in_range, indices, count_matrix. cbn [mrows n_cols].
    apply Forall_forall. intros j Hj.
    apply list_elem_of_fmap in Hj as ([j' c] & -> & Hin).
    apply elem_of_concat in Hin as (row & Hrow & Hin).
    apply list_elem_of_fmap in Hrow as (doc & -> & _).
    apply elem_of_count_row in Hin as [-> Hpos]. cbn [fst].
    unfold tokens_with_id in Hpos.
    destruct (filter _ doc) as [|t l] eqn:Hf; [simpl in Hpos; lia|].
    assert (t ∈ filter (fun t => v !! t = Some j') doc) as Hin
      by (rewrite Hf; by left).
    apply list_elem_of_filter in Hin as [Hin _]. by apply Hr in Hin.
  - unfold rows_unique, count_matrix. cbn [mrows]. rewrite Forall_fmap.
    apply Forall_forall. intros doc _. apply count_row_NoDup.
Qed.

Lemma get_count_matrix (v : gmap string Z) (docs : list (list string)) i doc j :
  docs !! i = Some doc → get (count_matrix v docs) i j = tokens_with_id v j doc.
Proof.
  intros Hdoc. unfold get, count_matrix. cbn [mrows].
  erewrite nth_lookup_Some; [apply row_get_count_row|].
  change (map ?f ?l) with (f <$> l). by rewrite list_lookup_fmap, Hdoc.
Qed.

Lemma n_rows_count_matrix (v : gmap string Z) (docs : list (list string)) :
  n_rows (count_matrix v docs) = length docs.
Proof. unfold n_rows, count_matrix. cbn [mrows]. by rewrite length_map. Qed.

(** Selecting columns of a count matrix gives the count matrix of the
    renumbered vocabulary. *)
Lemma compactify_count_matrix (v : gmap string Z) (docs : list (list string))
  (mask : list bool) m' v' :
  vocabulary_of_width (size v) v → length mask = size v →
  compactify (count_matrix v docs) v mask = Ok (m', v') →
  m' = count_matrix v' docs ∧ vocabulary_of_width (size v') v' ∧ size v' ≠ 0%nat.
Proof.
  intros Hv Hlen Hc.
  destruct (compactify_slice (count_matrix v docs) v mask m' v')
    as ((_ & _ & Hv' & _) & Hne & Hcols & Hre); [| | |done|].
  { apply count_matrix_canonical, Hv. }
  { done. }
  { done. }
  pose proof (vocabulary_of_width_size_eq _ _ Hv') as Hsize.
  rewrite <- Hsize in Hv'. split; [|split; [done|congruence]].
  rewrite <- Hlen in Hv.
  destruct (compactify_spec (count_matrix v docs) v mask Hv)
    as [[_ Hraise]|(_ & v'' & Hv'' & Hok & _)]; [congruence|].
  assert (v'' = v') as -> by congruence.
  rewrite Hok in Hc. injection Hc as <-.
  unfold count_matrix, column_index. cbn [mrows n_cols]. f_equal.
  - rewrite map_map. apply map_ext. intros doc.
    by apply (column_index_count_row v v' mask doc).
  - rewrite Hsize. symmetry. exact Hcols.
Qed.

Section CountMatrixFilters.
Variable argsort : list Z → list nat.
Variable argsort_float : list R → list nat.

Lemma filter_terms_by_df_count_matrix (v : gmap string Z)
  (docs : list (list string)) max_df min_df k m' v' :
  vocabulary_of_width (size v) v →
  filter_terms_by_df argsort (count_matrix v docs) v max_df min_df k = Ok (m', v') →
  m' = count_matrix v' docs ∧ vocabulary_of_width (size v') v'
  ∧ (v' = v ∨ size v' ≠ 0%nat).
Proof.
  intros Hv. rewrite filter_terms_by_df_cases.
  destruct (_ && _); [intros [= <- <-]; eauto|].
  destruct (_ || _); [done|]. destruct (_ <? _); [done|].
  case_bool_decide; [done|].
  rewrite bool_decide_eq_true_2 by (apply count_matrix_canonical, Hv).
  intros Hc. apply compactify_count_matrix in Hc as (-> & Hv' & Hne); [eauto|done|].
  apply length_final_df_mask.
Qed.

Lemma filter_terms_by_ic_count_matrix (v : gmap string Z)
  (docs : list (list string)) min_ic k m' v' :
  vocabulary_of_width (size v) v →
  filter_terms_by_ic argsort_float (count_matrix v docs) v min_ic k = Ok (m', v') →
  m' = count_matrix v' docs ∧ vocabulary_of_width (size v') v'
  ∧ (v' = v ∨ size v' ≠ 0%nat).
Proof.
  intros Hv.
  rewrite filter_terms_by_ic_cases by (apply count_matrix_canonical, Hv).
  destruct (_ && _); [intros [= <- <-]; eauto|].
  destruct (_ || _); [done|].
  destruct (match k with Some _ => _ | None => _ end); [done|].
  case_bool_decide; [done|].
  intros Hc. apply compactify_count_matrix in Hc as (-> & Hv' & Hne); [eauto|done|].
  apply length_final_ic_mask.
Qed.

Lemma filter_terms_count_matrix (self : Vectorizer) (v : gmap string Z)
  (docs : list (list string)) m' v' :
  vocabulary_of_width (size v) v →
  _filter_terms argsort argsort_float self (count_matrix v docs) v = Ok (m', v') →
  m' = count_matrix v' docs ∧ vocabulary_of_width (size v') v'
  ∧ (v' = v ∨ size v' ≠ 0%nat).
Proof.
  intros Hv. unfold _filter_terms.
  destruct (_fixed_terms self); [intros [= <- <-]; eauto|].
  destruct (_ || _).
  - destruct (filter_terms_by_df argsort _ v _ _ _) as [[m1 v1]|e] eqn:Hdf;
      [|done].
    cbn [mbind result_bind].
    apply filter_terms_by_df_count_matrix in Hdf as (-> & Hv1 & Hne1); [|done].
    destruct (negb _); [|intros [= <- <-]; eauto].
    intros Hic.
    apply filter_terms_by_ic_count_matrix in Hic as (-> & Hv2 & Hne2); [|done].
    split; [done|]. split; [done|].
    destruct Hne2 as [->|?]; [done|by right].
  - cbn [mbind result_bind]. destruct (negb _); [|intros [= <- <-]; eauto].
    by apply filter_terms_by_ic_count_matrix.
Qed.

End CountMatrixFilters.

Lemma count_terms_closed (self : Vectorizer) (docs : list (list string))
  (fixed_vocab : bool) m v :
  _count_terms self docs fixed_vocab = Ok (m, v) → m = count_matrix v docs.
Proof.
  destruct fixed_vocab; [|apply count_terms_open_closed].
  destruct (vocabulary_terms self) as [v0|] eqn:Hv.
  - rewrite (count_terms_fixed_closed self docs v0 Hv). by intros [= <- <-].
  - unfold _count_terms. by rewrite Hv.
Qed.

Section FitThenTransform.
Variable argsort : list Z → list nat.
Variable argsort_float : list R → list nat.

(** When [fit_transform] returns a matrix and leaves a vocabulary that is
    not empty, [transform] on the same documents returns that same matrix:
    with an open vocabulary (whatever the filters dropped) as with a fixed
    one, and under every weighting. *)
Theorem transform_after_fit_transform (self self' : Vectorizer)
  (docs : list (list string)) (r : matrix) :
  fit_transform argsort argsort_float self docs = (self', Ok r) →
  (∀ v', vocabulary_terms self' = Some v' → size v' ≠ 0%nat) →
  transform self' docs = Ok r.
Proof.
  unfold fit_transform. intros Hfit Hne.
  destruct (_count_terms self docs (_fixed_terms self)) as [[m v]|e] eqn:Hc;
    [|by injection Hfit].
  pose proof (count_terms_closed _ _ _ _ _ Hc) as ->.
  assert (vocabulary_of_width (size v) v ∨ _fixed_terms self = true) as Hv.
  { destruct (_fixed_terms self); [by right|left].
    destruct (count_terms_open self docs) as (m0 & v0 & Hc0 & Hfs & _).
    assert (v0 = v) as -> by congruence. by eapply first_seen_ids_width. }
  destruct (_filter_terms argsort argsort_float _ (count_matrix v docs) v)
    as [[m' v']|e] eqn:Hf; [|by injection Hfit].
  assert (m' = count_matrix v' docs) as ->.
  { destruct Hv as [Hv|Hfixed].
    - by apply filter_terms_count_matrix in Hf as (-> & _).
    - unfold _filter_terms in Hf. cbn [_fixed_terms set_vocabulary_terms] in Hf.
      rewrite Hfixed in Hf. by injection Hf as <- <-. }
  injection Hfit as <- <-.
  set (self2 := set_vocabulary_terms (set_vocabulary_terms self (Some v)) (Some v'))
    in *.
  unfold transform, _check_vocabulary.
  change (vocabulary_terms self2) with (Some v'). cbv beta iota.
  rewrite bool_decide_eq_false_2 by (by apply Hne). cbn [mbind result_bind].
  by rewrite (count_terms_fixed_closed self2 docs v' eq_refl).
Qed.

(** Fitting an open vocabulary on documents without any token leaves the
    empty vocabulary, whatever the configuration and whether or not the call
    raised; every later [transform] then raises "vocabulary is empty". *)
Theorem fit_without_tokens (self : Vectorizer) (docs : list (list string)) :
  _fixed_terms self = false → Forall (fun doc => doc = []) docs →
  vocabulary_terms (fit_transform argsort argsort_float self docs).1 = Some ∅
  ∧ ∀ docs',
      transform (fit_transform argsort argsort_float self docs).1 docs'
      = Raise (ValueError EmptyVocabulary).
Proof.
  intros Hopen Hdocs.
  assert (vocabulary_terms (fit_transform argsort argsort_float self docs).1
          = Some ∅) as Hv.
  { unfold fit_transform. rewrite Hopen.
    destruct (count_terms_open self docs) as (m & v & Hc & Hfs & _).
    rewrite Hc.
    assert (v = ∅) as ->.
    { apply map_empty. intros t. apply eq_None_not_Some. intros Ht.
      apply (fs_dom _ _ Hfs) in Ht.
      apply elem_of_concat in Ht as (doc & Hdoc & Ht).
      rewrite Forall_forall in Hdocs. rewrite (Hdocs doc Hdoc) in Ht.
      by apply elem_of_nil in Ht. }
    pose proof (count_terms_closed _ _ _ _ _ Hc) as ->.
    destruct (_filter_terms argsort argsort_float _ (count_matrix ∅ docs) ∅)
      as [[m' v']|e] eqn:Hf; [|done].
    cbn [fst vocabulary_terms set_vocabulary_terms]. f_equal.
    apply filter_terms_slice in Hf as (_ & _ & _ & Hterms & _).
    - apply map_empty. intros t. apply eq_None_not_Some. intros [j Ht].
      destruct (Hterms t j Ht) as (j0 & Hj0 & _). by rewrite lookup_empty in Hj0.
    - apply count_matrix_canonical. intros t j. by rewrite lookup_empty.
    - split; [|split].
      + intros t1 t2 i. by rewrite lookup_empty.
      + intros t j. by rewrite lookup_empty.
      + intros j. cbn [count_matrix n_cols]. rewrite map_size_empty. simpl. lia. }
  split; [done|]. intros docs'. unfold transform, _check_vocabulary.
  by rewrite Hv.
Qed.

End FitThenTransform.

Lemma transform_after_fit_transform_witness :
  ∃ self' r,
    fit_transform stable_argsort stable_argsort_float
      (mkVectorizer "binary" false false true (PyInt 2) (PyFloat 1) 0 None
         None false ∅)
      [["a"; "b"; "a"]; ["b"; "c"]]%string = (self', Ok r)
    ∧ vocabulary_terms self' = Some {["b" := 0]}
    ∧ transform self' [["a"; "b"; "a"]; ["b"; "c"]]%string = Ok r.
Proof.
  eexists _, _. split; [vm_compute; reflexivity|]. split; [reflexivity|].
  apply (transform_after_fit_transform stable_argsort stable_argsort_float
           (mkVectorizer "binary" false false true (PyInt 2) (PyFloat 1) 0 None
              None false ∅)).
  - vm_compute. reflexivity.
  - intros v' [= <-]. vm_compute. lia.
Defined.

Lemma fit_without_tokens_witness :
  transform
    (fit_transform stable_argsort stable_argsort_float default_vectorizer [[]; []]).1
    [["a"]]%string
  = Raise (ValueError EmptyVocabulary).
Proof.
  apply (fit_without_tokens stable_argsort stable_argsort_float
           default_vectorizer [[]; []]); [reflexivity|].
  by repeat constructor.
Defined.


(** * What [transform] depends on *)

Lemma transform_closed (self : Vectorizer) (v : gmap string Z)
  (docs : list (list string)) :
  vocabulary_terms self = Some v → size v ≠ 0%nat →
  transform self docs = _reweight_values self (IntMatrix (count_matrix v docs)).
Proof.
  intros Hv Hne. unfold transform, _check_vocabulary. rewrite Hv.
  rewrite bool_decide_eq_false_2 by done. cbn [mbind result_bind].
  by rewrite (count_terms_fixed_closed self docs v Hv).
Qed.

(** [transform] sees a document as a bag of words: reordering the tokens
    inside the documents changes nothing in what it returns or raises,
    under every weighting and for every instance. *)
Theorem transform_bag_of_words (self : Vectorizer) (docs docs' : list (list string)) :
  Forall2 Permutation docs docs' → transform self docs = transform self docs'.
Proof.
  intros Hperm. unfold transform.
  destruct (_check_vocabulary self) as [[]|e] eqn:Hcheck; [|done].
  cbn [mbind result_bind].
  destruct (vocabulary_terms self) as [v|] eqn:Hv.
  - rewrite !(count_terms_fixed_closed self _ v Hv). do 3 f_equal.
    unfold count_matrix. f_equal.
    induction Hperm as [|doc doc' docs docs' Hd _ IH]; [done|].
    cbn [map]. rewrite IH. f_equal. unfold count_row.
    by rewrite (term_counter_of_Permutation v doc doc' Hd).
  - unfold _check_vocabulary in Hcheck. by rewrite Hv in Hcheck.
Qed.

Lemma transform_bag_of_words_witness :
  transform tfidf_xy [["x"; "y"; "x"]; ["y"]]%string
  = transform tfidf_xy [["y"; "x"; "x"]; ["y"]]%string.
Proof.
  apply (transform_bag_of_words tfidf_xy).
  constructor; [|by constructor].
  apply perm_swap.
Defined.

Lemma reweight_values_vstack (self : Vectorizer) (x y : csr_matrix Z) :
  weighting self ≠ "tfidf"%string → n_cols x = n_cols y →
  normalize self = false
  ∨ (n_rows x ≠ 0%nat ∧ n_rows y ≠ 0%nat ∧ n_cols x ≠ 0%nat) →
  ∃ m1 m2, _reweight_values self (IntMatrix x) = Ok m1
           ∧ _reweight_values self (IntMatrix y) = Ok m2
           ∧ _reweight_values self
               (IntMatrix (CSR (mrows x ++ mrows y) (n_cols x)))
             = Ok (vstack m1 m2).
Proof.
  intros Hw Hcols Hshape. unfold _reweight_values.
  rewrite (bool_decide_eq_false_2 (weighting self = "tfidf"%string)) by done.
  destruct (normalize self) eqn:Hn.
  - destruct Hshape as [|(Hx & Hy & Hc)]; [done|].
    assert (n_cols y ≠ 0%nat) as Hc' by congruence.
    destruct (bool_decide (weighting self = "binary"%string));
      destruct (sublinear_tf self);
      cbn [mbind result_bind fill_one astype_float];
      rewrite !normalize_mat_ok
        by (unfold n_rows, csr_map in *; cbn [mrows n_cols] in *;
            rewrite ?length_map, ?length_app; lia);
      cbn [mbind result_bind];
      eexists _, _; (split; [reflexivity|]); (split; [reflexivity|]);
      unfold vstack, normalize_rows, csr_map, astype_float, matrix_n_cols;
      cbn [mrows n_cols]; rewrite ?map_app; reflexivity.
  - destruct (bool_decide (weighting self = "binary"%string));
      destruct (sublinear_tf self);
      cbn [mbind result_bind fill_one astype_float];
      eexists _, _; (split; [reflexivity|]); (split; [reflexivity|]);
      unfold vstack, csr_map, astype_float, matrix_n_cols;
      cbn [mrows n_cols]; rewrite ?map_app; reflexivity.
Qed.

(** Under a weighting other than "tfidf", [transform] works document by
    document: transforming a batch gives the rows of its first part on top
    of the rows of the rest. With [normalize] set this holds for parts that
    are not empty: [transform] raises on the empty sequence then, while an
    empty part adds nothing to a batch. *)
Theorem transform_row_by_row (self : Vectorizer) (v : gmap string Z)
  (docs1 docs2 : list (list string)) :
  vocabulary_terms self = Some v → size v ≠ 0%nat →
  weighting self ≠ "tfidf"%string →
  (normalize self = false ∨ (docs1 ≠ [] ∧ docs2 ≠ []) →
   ∃ m1 m2, transform self docs1 = Ok m1
            ∧ transform self docs2 = Ok m2
            ∧ transform self (docs1 ++ docs2) = Ok (vstack m1 m2))
  ∧ (normalize self = true →
     transform self [] = Raise (ValueError EmptyArray)
     ∧ transform self ([] ++ docs2) = transform self docs2).
Proof.
  intros Hv Hne Hw. split.
  - intros Hshape. rewrite !(transform_closed self v) by done.
    destruct (reweight_values_vstack self (count_matrix v docs1)
                (count_matrix v docs2) Hw eq_refl) as (m1 & m2 & H1 & H2 & H12).
    { destruct Hshape as [Hn|[Hd1 Hd2]]; [by left|right].
      unfold n_rows, count_matrix. cbn [mrows n_cols]. rewrite !length_map.
      split; [by destruct docs1|]. split; [by destruct docs2|done]. }
    exists m1, m2. split; [done|]. split; [done|].
    rewrite <- H12. unfold count_matrix. cbn [mrows n_cols]. by rewrite map_app.
  - intros Hn. split; [|done].
    rewrite (transform_closed self v) by done.
    apply reweight_values_empty; [done|done|]. by left.
Qed.

Lemma transform_row_by_row_witness :
  ∃ m1 m2,
    transform binary_xy [["x"; "x"]]%string = Ok m1
    ∧ transform binary_xy [["y"; "z"]]%string = Ok m2
    ∧ transform binary_xy [["x"; "x"]; ["y"; "z"]]%string = Ok (vstack m1 m2).
Proof.
  apply (transform_row_by_row binary_xy {["x" := 0; "y" := 1]}
           [["x"; "x"]]%string [["y"; "z"]]%string).
  - reflexivity.
  - vm_compute. lia.
  - vm_compute. congruence.
  - right. split; discriminate.
Defined.

(** * Frequencies of a counted matrix *)

Lemma doc_freq_count_matrix (v : gmap string Z) (docs : list (list string)) j :
  doc_freq (count_matrix v docs) j = docs_with_id v j docs.
Proof.
  unfold doc_freq, docs_with_id, count_matrix.
  induction docs as [|doc docs IH]; [done|].
  cbn [map]. rewrite indices_cons, count_index_app.
  fold (indices (CSR (map (count_row v) docs) (size v))). rewrite IH.
  rewrite count_index_NoDup by apply count_row_NoDup.
  rewrite filter_cons.
  destruct (decide (0 < tokens_with_id v j doc)) as [Hpos|Hzero].
  - rewrite decide_True by (by apply elem_of_count_row_keys). simpl length. lia.
  - rewrite decide_False by (by rewrite elem_of_count_row_keys). lia.
Qed.

Lemma tokens_with_id_app v j doc1 doc2 :
  tokens_with_id v j (doc1 ++ doc2)
  = tokens_with_id v j doc1 + tokens_with_id v j doc2.
Proof. unfold tokens_with_id. rewrite filter_app, length_app. lia. Qed.

Lemma term_freq_count_matrix (v : gmap string Z) (docs : list (list string)) j :
  term_freq (count_matrix v docs) j = tokens_with_id v j (concat docs).
Proof.
  unfold term_freq, count_matrix. cbn [mrows].
  induction docs as [|doc docs IH]; [done|].
  cbn [map foldr concat]. rewrite IH, row_get_count_row, tokens_with_id_app. done.
Qed.

Lemma docs_with_id_le_tokens (v : gmap string Z) j (docs : list (list string)) :
  docs_with_id v j docs ≤ tokens_with_id v j (concat docs)
  ∧ docs_with_id v j docs ≤ Z.of_nat (length docs).
Proof.
  unfold docs_with_id. induction docs as [|doc docs [IH1 IH2]]; [done|].
  cbn [concat]. rewrite tokens_with_id_app, filter_cons.
  pose proof (tokens_with_id_nonneg v j doc).
  case_decide; simpl length; lia.
Qed.

(** The frequencies of the matrix that [_count_terms] returns, when it
    stores an entry and the ids of the vocabulary are below its size:
    [get_doc_freqs] gives for each column the number of documents that hold a
    token of that id, [get_term_freqs] the number of such tokens in all
    documents together; a document frequency is at most the term frequency
    and at most the number of documents. *)
Theorem frequencies_of_counts (self : Vectorizer) (docs : list (list string))
  (fixed_vocab : bool) (m : csr_matrix Z) (v : gmap string Z) :
  _count_terms self docs fixed_vocab = Ok (m, v) →
  (∀ t j, v !! t = Some j → 0 ≤ j < Z.of_nat (size v)) →
  nnz m ≠ 0%nat →
  get_doc_freqs m
  = Ok (map (fun j => docs_with_id v (Z.of_nat j) docs) (seq 0 (size v)))
  ∧ get_term_freqs m
    = Ok (map (fun j => tokens_with_id v (Z.of_nat j) (concat docs))
              (seq 0 (size v)))
  ∧ ∀ j, docs_with_id v j docs ≤ tokens_with_id v j (concat docs)
         ∧ docs_with_id v j docs ≤ Z.of_nat (length docs).
Proof.
  intros Hc Hr Hnnz. pose proof (count_terms_closed _ _ _ _ _ Hc) as ->.
  split; [|split; [|intros j; apply docs_with_id_le_tokens]].
  - rewrite get_doc_freqs_in_range by (done || by apply count_matrix_canonical).
    f_equal. apply map_ext. intros j. apply doc_freq_count_matrix.
  - unfold get_term_freqs. rewrite bool_decide_eq_false_2 by done.
    f_equal. unfold column_sums. apply map_ext. intros j.
    apply term_freq_count_matrix.
Qed.

Lemma frequencies_of_counts_witness :
  get_doc_freqs (count_matrix {["a" := 0; "b" := 1]} [["a"; "b"; "a"]; ["a"]]%string)
  = Ok [2; 1]
  ∧ get_term_freqs
      (count_matrix {["a" := 0; "b" := 1]} [["a"; "b"; "a"]; ["a"]]%string)
    = Ok [3; 1].
Proof.
  destruct (frequencies_of_counts
              (mkVectorizer "tf" false false true (PyInt 1) (PyFloat 1) 0 None
                 (Some {["a" := 0; "b" := 1]}) true ∅)
              [["a"; "b"; "a"]; ["a"]]%string true
              (count_matrix {["a" := 0; "b" := 1]} [["a"; "b"; "a"]; ["a"]]%string)
              {["a" := 0; "b" := 1]}) as (Hdf & Htf & _).
  - by apply count_terms_fixed_closed.
  - assert (map_Forall (fun (_ : string) j => 0 ≤ j < Z.of_nat 2)
              ({["a" := 0; "b" := 1]} : gmap string Z)) as H
      by decide_by_evaluation.
    intros t j Ht. exact (H t j Ht).
  - vm_compute. lia.
  - split; [rewrite Hdf|rewrite Htf]; vm_compute; reflexivity.
Defined.


(** * Relative term frequencies *)

Lemma Rsum_scaled (n : R) (l : list Z) :
  n ≠ 0%R → (Rsum (map (fun a => IZR a / n) l) * n = IZR (Zsum l))%R.
Proof.
  intros Hn. induction l as [|a l IH]; cbn [map Rsum Zsum foldr].
  - lra.
  - fold (Rsum (map (fun a => (IZR a / n)%R) l)). fold (Zsum l).
    rewrite plus_IZR, <- IH. field. exact Hn.
Qed.

(** A token counts for exactly one id below [n] when it is in the
    vocabulary, for none otherwise. *)
Lemma Zsum_ids_of_token (v : gmap string Z) (t : string) (o n : nat) :
  Zsum (map (fun j => if decide (v !! t = Some (Z.of_nat j)) then 1 else 0)
            (seq o n))
  = match v !! t with
    | Some i => if decide (Z.of_nat o ≤ i < Z.of_nat (o + n)) then 1 else 0
    | None => 0
    end.
Proof.
  revert o. induction n as [|n IH]; intros o.
  - cbn. destruct (v !! t) as [i|]; [|done]. by rewrite decide_False by lia.
  - cbn [seq map Zsum foldr]. fold (Zsum (map (fun j =>
      if decide (v !! t = Some (Z.of_nat j)) then 1 else 0) (seq (S o) n))).
    rewrite IH. destruct (v !! t) as [i|]; [|by rewrite decide_False].
    destruct (decide (i = Z.of_nat o)) as [->|Hne].
    + rewrite decide_True by done. rewrite decide_False by lia.
      by rewrite decide_True by lia.
    + rewrite decide_False by congruence.
      destruct (decide (Z.of_nat (S o) ≤ i < Z.of_nat (S o + n))).
      * by rewrite decide_True by lia.
      * by rewrite decide_False by lia.
Qed.

Lemma Zsum_tokens_with_id (v : gmap string Z) (doc : list string) :
  (∀ t j, v !! t = Some j → 0 ≤ j < Z.of_nat (size v)) →
  Zsum (map (fun j => tokens_with_id v (Z.of_nat j) doc) (seq 0 (size v)))
  = known_tokens v doc.
Proof.
  intros Hr.
  assert (∀ l (f g : nat → Z),
            Zsum (map (fun j => f j + g j) l)
            = Zsum (map f l) + Zsum (map g l)) as Hadd.
  { induction l as [|x l IHl]; intros f g; cbn; [done|].
    fold (Zsum (map (fun j => f j + g j) l)). fold (Zsum (map f l)).
    fold (Zsum (map g l)). rewrite IHl. lia. }
  unfold known_tokens. induction doc as [|t doc IH].
  - cbn [filter list_filter length]. clear.
    induction (seq 0 (size v)) as [|x l IHl]; [done|].
    cbn [map Zsum foldr]. fold (Zsum (map (fun j =>
      tokens_with_id v (Z.of_nat j) []) l)). by rewrite IHl.
  - rewrite filter_cons.
    transitivity
      (Zsum (map (fun j => (if decide (v !! t = Some (Z.of_nat j)) then 1 else 0)
                           + tokens_with_id v (Z.of_nat j) doc)
                 (seq 0 (size v)))).
    { f_equal. apply map_ext. intros j. unfold tokens_with_id.
      rewrite filter_cons. case_decide; cbn [length]; lia. }
    rewrite Hadd, IH, Zsum_ids_of_token.
    destruct (v !! t) as [i|] eqn:Ht.
    + rewrite decide_True by (apply (Hr t i Ht)).
      rewrite decide_True by done. cbn [length]. lia.
    + rewrite decide_False by (by intros [? ?]). lia.
Qed.

(** The relative term frequencies (the default of [get_term_freqs]) of the
    matrix that [_count_terms] returns, when it stores an entry and the ids
    of the vocabulary are below its size: the count of each column divided
    by the number of columns. They add up to the number of counted tokens
    divided by the number of columns, not to one. *)
Theorem relative_term_freqs_divide_by_columns (self : Vectorizer)
  (docs : list (list string)) (fixed_vocab : bool) (m : csr_matrix Z)
  (v : gmap string Z) :
  _count_terms self docs fixed_vocab = Ok (m, v) →
  (∀ t j, v !! t = Some j → 0 ≤ j < Z.of_nat (size v)) →
  nnz m ≠ 0%nat →
  ∃ tfs,
    get_term_freqs_normalized m = Ok tfs
    ∧ length tfs = size v
    ∧ (∀ j : nat, (j < size v)%nat →
         tfs !! j = Some (IZR (tokens_with_id v (Z.of_nat j) (concat docs))
                          / INR (size v))%R)
    ∧ (Rsum tfs * INR (size v) = IZR (known_tokens v (concat docs)))%R
    ∧ (0 < size v)%nat.
Proof.
  intros Hc Hr Hnnz. pose proof (count_terms_closed _ _ _ _ _ Hc) as ->.
  assert (0 < size v)%nat as Hpos.
  { destruct (count_matrix_canonical v docs Hr) as [Hin _].
    unfold indices_in_range, indices in Hin. unfold nnz in Hnnz.
    destruct (concat (mrows (count_matrix v docs))) as [|[j c] l]; [done|].
    apply Forall_cons_1 in Hin as [Hj _]. cbn in Hj. lia. }
  unfold get_term_freqs_normalized, get_term_freqs.
  rewrite bool_decide_eq_false_2 by done. cbn [mbind result_bind].
  eexists. split; [done|].
  unfold column_sums. cbn [n_cols count_matrix].
  split; [by rewrite !length_map, length_seq|]. split; [|split; [|done]].
  - intros j Hj. change (map ?f ?l) with (f <$> l).
    rewrite !list_lookup_fmap, lookup_seq_lt by done.
    cbv [fmap option_fmap option_map]. cbn [Nat.add].
    by rewrite term_freq_count_matrix.
  - rewrite Rsum_scaled by (apply not_0_INR; lia). f_equal.
    rewrite <- (Zsum_tokens_with_id v (concat docs) Hr). f_equal.
    apply map_ext. intros j. apply term_freq_count_matrix.
Qed.

Lemma relative_term_freqs_divide_by_columns_witness :
  ∃ tfs,
    get_term_freqs_normalized
      (count_matrix {["a" := 0; "b" := 1]} [["a"; "b"; "a"]; ["a"]]%string)
    = Ok tfs
    ∧ (Rsum tfs * INR 2 = 4)%R.
Proof.
  destruct (relative_term_freqs_divide_by_columns
              (mkVectorizer "tf" false false true (PyInt 1) (PyFloat 1) 0 None
                 (Some {["a" := 0; "b" := 1]}) true ∅)
              [["a"; "b"; "a"]; ["a"]]%string true
              (count_matrix {["a" := 0; "b" := 1]} [["a"; "b"; "a"]; ["a"]]%string)
              {["a" := 0; "b" := 1]})
    as (tfs & Htfs & _ & _ & Hsum & _).
  - by apply count_terms_fixed_closed.
  - assert (map_Forall (fun (_ : string) j => 0 ≤ j < Z.of_nat 2)
              ({["a" := 0; "b" := 1]} : gmap string Z)) as H
      by decide_by_evaluation.
    intros t j Ht. exact (H t j Ht).
  - vm_compute. lia.
  - exists tfs. split; [exact Htfs|].
    replace (size ({["a" := 0; "b" := 1]} : gmap string Z)) with 2%nat in Hsum
      by (vm_compute; reflexivity).
    rewrite Hsum. f_equal.
Defined.


(** * The filters as functions on any matrix *)

Lemma canonical_example :
  canonical (CSR [[(0, 2); (1, 1)]; [(1, 1); (2, 1)]] 3 : csr_matrix Z).
Proof.
  split.
  - unfold indices_in_range. decide_by_evaluation.
  - unfold rows_unique. decide_by_evaluation.
Qed.

Section FiltersOnMatrices.
Variable argsort : list Z → list nat.
Variable argsort_float : list R → list nat.

(** On a matrix in canonical form with a vocabulary that numbers its
    columns, whatever [filter_terms_by_df], [filter_terms_by_ic] and
    [_filter_terms] return is a selection of columns: the rows are kept, the
    new vocabulary numbers the columns of the new matrix [0 .. n-1], its
    terms are terms of the old vocabulary in the same order of ids, and the
    column of a kept term holds the values it held before. The result is in
    canonical form again. *)
Theorem filters_select_columns (m : csr_matrix Z) (v : gmap string Z) :
  canonical m → vocabulary_of_width (n_cols m) v →
  (∀ max_df min_df k m' v',
     filter_terms_by_df argsort m v max_df min_df k = Ok (m', v') →
     column_slice_of m v m' v')
  ∧ (∀ min_ic k m' v',
       filter_terms_by_ic argsort_float m v min_ic k = Ok (m', v') →
       column_slice_of m v m' v')
  ∧ (∀ self m' v',
       _filter_terms argsort argsort_float self m v = Ok (m', v') →
       column_slice_of m v m' v').
Proof.
  intros Hm Hv. split; [|split].
  - intros max_df min_df k m' v'. by apply filter_terms_by_df_slice.
  - intros min_ic k m' v'. by apply filter_terms_by_ic_slice.
  - intros self m' v'. by apply filter_terms_slice.
Qed.



End FiltersOnMatrices.

Lemma filters_select_columns_witness :
  column_slice_of
    (CSR [[(0, 2); (1, 1)]; [(1, 1); (2, 1)]] 3)
    {["a" := 0; "b" := 1; "c" := 2]}
    (CSR [[(0, 1)]; [(0, 1)]] 1) {["b" := 0]}.
Proof.
  destruct (filters_select_columns stable_argsort stable_argsort_float
              (CSR [[(0, 2); (1, 1)]; [(1, 1); (2, 1)]] 3)
              {["a" := 0; "b" := 1; "c" := 2]}) as (Hdf & _).
  - exact canonical_example.
  - exact vocabulary_abc_width.
  - apply (Hdf (PyFloat 1) (PyInt 2) None). vm_compute. reflexivity.
Defined.


(** * The bound of the information-content filter *)

Lemma top_mask_subset_order (order : list nat) (mask : list bool) k (j : nat) :
  order ≡ₚ seq 0 (length (np_where mask)) →
  top_mask order mask k !! j = Some true → mask !! j = Some true.
Proof.
  intros Hperm (Hj & p & Hin & Hp)%top_mask_lookup.
  apply elem_of_take in Hin as (i & Hi & _).
  apply list_elem_of_lookup_2 in Hi. rewrite elem_of_reverse, Hperm in Hi.
  apply elem_of_seq in Hi as [_ Hi]. simpl in Hi.
  destruct (lookup_lt_is_Some_2 (np_where mask) p Hi) as [c Hc].
  rewrite (nth_lookup_Some _ _ _ _ Hc) in Hp. subst c.
  apply list_elem_of_lookup_2, elem_of_np_where in Hc as (i' & Hi' & Hm).
  apply Nat2Z.inj in Hi' as <-. done.
Qed.

Lemma ic_of_column_index {A} (m : csr_matrix A) (kept : list Z) (p : nat) c :
  kept !! p = Some c → ic_of (column_index m kept) (Z.of_nat p) = ic_of m c.
Proof.
  intros Hp. unfold ic_of.
  by rewrite (doc_freq_column_index m kept p c Hp), n_rows_column_index.
Qed.

Lemma ic_of_bounds {A} (m : csr_matrix A) j : (0 <= ic_of m j <= 1)%R.
Proof. apply information_content_bounds. Qed.

Section FilterByIc.
Variable argsort_float : list R → list nat.
Hypothesis argsort_float_perm : ∀ l, argsort_float l ≡ₚ seq 0 (length l).

Lemma final_ic_mask_survives {A} (m : csr_matrix A) min_ic k (j : nat) :
  final_ic_mask argsort_float m min_ic k !! j = Some true →
  survives_ic m min_ic (Z.of_nat j) = true.
Proof.
  intros H.
  assert (ic_mask m min_ic !! j = Some true) as Hic.
  { unfold final_ic_mask in H. destruct k as [k|]; [|done].
    destruct (k <? _); [|done].
    eapply top_mask_subset_order; [|exact H].
    rewrite argsort_float_perm.
    rewrite (length_boolean_index _ (ic_mask m min_ic) 0); [done|].
    by rewrite length_map, length_seq, length_ic_mask. }
  unfold ic_mask in Hic. change (map ?f ?l) with (f <$> l) in Hic.
  rewrite list_lookup_fmap in Hic.
  destruct (seq 0 (n_cols m) !! j) as [j'|] eqn:Hj; [|done].
  apply lookup_seq in Hj as [-> _]. simpl in Hic. congruence.
Qed.

(** When [filter_terms_by_ic] with a positive [min_ic] returns, [min_ic]
    was at most 1 and the result has at least one column; every column of
    the result is the column of a term of the new vocabulary, and its
    information content, at least [min_ic] and at most 1, is the
    information content that the column of that same term had in the
    input. *)
Theorem filter_terms_by_ic_bound (m : csr_matrix Z) (v : gmap string Z)
  (min_ic : Q) (k : option Z) (m' : csr_matrix Z) (v' : gmap string Z) :
  canonical m → vocabulary_of_width (n_cols m) v →
  Qlt_bool 0 min_ic = true →
  filter_terms_by_ic argsort_float m v min_ic k = Ok (m', v') →
  Qle_bool min_ic 1 = true
  ∧ n_cols m' ≠ 0%nat
  ∧ (∀ j : nat, (j < n_cols m')%nat →
       (Q2R min_ic <= ic_of m' (Z.of_nat j) <= 1)%R
       ∧ ∃ t c, v' !! t = Some (Z.of_nat j) ∧ v !! t = Some c
                ∧ ic_of m' (Z.of_nat j) = ic_of m c)
  ∧ (∀ t j', v' !! t = Some j' →
       ∃ c, v !! t = Some c ∧ ic_of m' j' = ic_of m c
            ∧ (Q2R min_ic <= ic_of m c <= 1)%R).
Proof.
  intros Hm Hv Hpos. rewrite filter_terms_by_ic_cases by apply Hm.
  assert (Qeq_bool min_ic 0 = false) as Hne.
  { apply not_true_is_false. intros H0%Qeq_bool_iff.
    unfold Qlt_bool in Hpos. apply negb_true_iff in Hpos.
    rewrite H0 in Hpos. done. }
  rewrite Hne. cbn [andb].
  destruct (Qlt_bool min_ic 0 || Qlt_bool 1 min_ic) eqn:Hout; [done|].
  destruct (match k with Some _ => _ | None => _ end); [done|].
  case_bool_decide; [done|]. intros Hc.
  split.
  { apply orb_false_iff in Hout as [_ H1]. unfold Qlt_bool in H1.
    by apply negb_false_iff in H1. }
  set (mask := final_ic_mask argsort_float m min_ic k) in *.
  assert (length mask = n_cols m) as Hlen by apply length_final_ic_mask.
  rewrite <- Hlen in Hv.
  destruct (compactify_spec m v mask Hv)
    as [[_ Hraise]|(Hkept & v'' & Hre & Hok & _)]; [congruence|].
  rewrite Hok in Hc. injection Hc as <- <-.
  pose proof Hv as (_ & Hrange & Hall).
  destruct (reindex_vocabulary_spec v mask Hrange) as (v3 & Hv3 & Hlook).
  assert (v3 = v'') as -> by congruence.
  assert (∀ (p i : nat), np_where mask !! p = Some (Z.of_nat i) →
            (Q2R min_ic <= ic_of m (Z.of_nat i) <= 1)%R) as Hkeep.
  { intros p i Hp. split; [|apply ic_of_bounds].
    apply list_elem_of_lookup_2, elem_of_np_where in Hp as (i' & Hi' & Hi).
    apply Nat2Z.inj in Hi' as <-.
    apply final_ic_mask_survives in Hi. unfold survives_ic in Hi.
    rewrite Hpos in Hi. by apply bool_decide_eq_true in Hi. }
  split; [cbn [column_index n_cols]; by destruct (np_where mask)|].
  split.
  - intros j Hj. cbn [column_index n_cols] in Hj.
    destruct (lookup_lt_is_Some_2 (np_where mask) j Hj) as [c Hc].
    rewrite (ic_of_column_index m _ j c Hc).
    pose proof Hc as Hc'.
    apply list_elem_of_lookup_2, elem_of_np_where in Hc' as (i & -> & Hi).
    split; [by apply (Hkeep j i)|].
    destruct (Hall (Z.of_nat i)) as [t Ht].
    { apply lookup_lt_Some in Hi. lia. }
    exists t, (Z.of_nat i). split; [|done].
    apply Hlook. by exists i, j.
  - intros t j' Ht. apply Hlook in Ht as (i & p & -> & Ht & _ & Hp).
    exists (Z.of_nat i). split; [done|].
    split; [by apply ic_of_column_index|by apply (Hkeep p i)].
Qed.

End FilterByIc.

Lemma stable_argsort_float_Permutation (l : list R) :
  stable_argsort_float l ≡ₚ seq 0 (length l).
Proof. apply stable_argsort_by_Permutation. Qed.

(** Two documents, "a" in both and "b" in the first: "a" tells nothing
    (information content 0), "b" everything (1); [min_ic = 1/2] keeps "b". *)
Lemma filter_terms_by_ic_example :
  filter_terms_by_ic stable_argsort_float
    (CSR [[(0, 1); (1, 1)]; [(0, 1)]] 2) {["a" := 0; "b" := 1]} (1 # 2) None
  = Ok (CSR [[(0, 1)]; []] 1, {["b" := 0]}).
Proof.
  rewrite filter_terms_by_ic_cases by (unfold indices_in_range; decide_by_evaluation).
  cbn [Qeq_bool andb Qlt_bool orb negb Qle_bool].
  change (Qeq_bool (1 # 2) 0) with false. cbn [andb].
  change (Qlt_bool (1 # 2) 0 || Qlt_bool 1 (1 # 2)) with false. cbv iota.
  rewrite bool_decide_eq_false_2 by (vm_compute; lia).
  assert (final_ic_mask stable_argsort_float
            (CSR [[(0, 1); (1, 1)]; [(0, 1)]] 2 : csr_matrix Z) (1 # 2) None
          = [false; true]) as ->; [|vm_compute; reflexivity].
  unfold final_ic_mask, ic_mask, survives_ic. cbn [n_cols seq map].
  change (Qlt_bool 0 (1 # 2)) with true. cbv iota.
  assert (Q2R (1 # 2) = (1 / 2)%R) as -> by (unfold Q2R; simpl; lra).
  assert (ic_of (CSR [[(0, 1); (1, 1)]; [(0, 1)]] 2 : csr_matrix Z) (Z.of_nat 0)
          = 0%R) as ->.
  { unfold ic_of. change (doc_freq _ _) with 2. change (n_rows _) with 2%nat.
    unfold information_content. simpl INR.
    destruct (Rle_dec (2 / (1 + 1)) 0); [done|].
    destruct (Rle_dec 1 (2 / (1 + 1))) as [|Hno]; [done|]. exfalso. lra. }
  assert (ic_of (CSR [[(0, 1); (1, 1)]; [(0, 1)]] 2 : csr_matrix Z) (Z.of_nat 1)
          = 1%R) as ->.
  { unfold ic_of. change (doc_freq _ _) with 1. change (n_rows _) with 2%nat.
    simpl INR. replace (1 / (1 + 1))%R with (1 / 2)%R by lra.
    apply information_content_half. }
  rewrite bool_decide_eq_false_2 by lra. rewrite bool_decide_eq_true_2 by lra.
  done.
Qed.

Lemma filter_terms_by_ic_bound_witness :
  let m' : csr_matrix Z := CSR [[(0, 1)]; []] 1 in
  (Q2R (1 # 2) <= ic_of m' (Z.of_nat 0) <= 1)%R.
Proof.
  destruct (filter_terms_by_ic_bound stable_argsort_float
              stable_argsort_float_Permutation
              (CSR [[(0, 1); (1, 1)]; [(0, 1)]] 2) {["a" := 0; "b" := 1]}
              (1 # 2) None (CSR [[(0, 1)]; []] 1) {["b" := 0]})
    as (_ & _ & Hcols & _).
  - split; [unfold indices_in_range|unfold rows_unique]; decide_by_evaluation.
  - apply vocabulary_of_width_check; vm_compute; reflexivity.
  - reflexivity.
  - exact filter_terms_by_ic_example.
  - apply (Hcols 0%nat). simpl. lia.
Defined.


(** * The invariant of an instance *)

Lemma ids_compact_range (v : gmap string Z) :
  ids_unique v → ids_compact v →
  ∀ t j, v !! t = Some j → 0 ≤ j < Z.of_nat (size v).
Proof.
  intros Hu Hc t j Ht.
  assert (values_set v = list_to_set (seqZ 0 (Z.of_nat (size v)))) as Heq.
  { symmetry. apply set_subseteq_size_eq.
    - intros i Hi. apply elem_of_list_to_set, elem_of_seqZ in Hi.
      apply elem_of_values_set, Hc. lia.
    - rewrite size_list_to_set by apply NoDup_seqZ.
      rewrite length_seqZ, Nat2Z.id. by rewrite (proj2 (values_unique_iff v) Hu). }
  assert (j ∈ values_set v) as Hj by (apply elem_of_values_set; eauto).
  rewrite Heq in Hj. apply elem_of_list_to_set, elem_of_seqZ in Hj. lia.
Qed.

Lemma validate_vocabulary_valid (input : vocabulary_input) r :
  _validate_vocabulary (Some input) = Ok r →
  ∃ v, r = (Some v, true) ∧ vocabulary_of_width (size v) v ∧ size v ≠ 0%nat.
Proof.
  destruct input as [m|terms].
  - destruct (validate_mapping_cases m) as [(Hu & Hc & Hne & ->)|[_ ->]]; [|done].
    intros [= <-]. exists m. split; [done|]. split; [|done].
    split; [done|]. split; [by apply ids_compact_range|exact Hc].
  - destruct (validate_iterable_cases terms)
      as [(Hnd & Hne & v & -> & Hsize & Hlook)|[_ ->]]; [|done].
    intros [= <-]. exists v. split; [done|].
    pose proof (sorted_Permutation terms) as Hp.
    split; [|rewrite Hsize; by destruct terms].
    apply vocabulary_of_width_size.
    + intros t1 t2 j (k1 & H1 & ->)%Hlook (k2 & H2 & Hk)%Hlook.
      apply Nat2Z.inj in Hk as <-. congruence.
    + intros t j (k & Hk & ->)%Hlook. apply lookup_lt_Some in Hk.
      rewrite Hp in Hk. lia.
Qed.

Lemma init_valid weighting normalize sublinear_tf smooth_idf min_df max_df
  min_ic max_n_terms vocabulary self :
  __init__ weighting normalize sublinear_tf smooth_idf min_df max_df min_ic
           max_n_terms vocabulary = Ok self →
  vocabulary_valid self
  ∧ id_to_term_ self = ∅
  ∧ (match vocabulary with
     | Some _ => _fixed_terms self = true
                 ∧ ∃ v, vocabulary_terms self = Some v ∧ size v ≠ 0%nat
     | None => _fixed_terms self = false ∧ vocabulary_terms self = None
     end).
Proof.
  unfold __init__.
  repeat (match goal with |- context [if ?b then _ else _] => destruct b end;
          [discriminate|]).
  destruct vocabulary as [input|].
  - destruct (_validate_vocabulary (Some input)) as [r|e] eqn:Hv; [|discriminate].
    apply validate_vocabulary_valid in Hv as (v & -> & Hw & Hne).
    cbn. intros [= <-]. unfold vocabulary_valid. cbn.
    split; [done|]. split; [done|]. split; [done|]. by exists v.
  - cbn. intros [= <-]. unfold vocabulary_valid. by cbn.
Qed.

Section Invariant.
Variable argsort : list Z → list nat.
Variable argsort_float : list R → list nat.

Lemma fit_transform_valid (self : Vectorizer) (docs : list (list string)) :
  vocabulary_valid self →
  vocabulary_valid (fit_transform argsort argsort_float self docs).1.
Proof.
  intros Hvalid. unfold fit_transform.
  destruct (_count_terms self docs (_fixed_terms self)) as [[m v]|e] eqn:Hc;
    [|done].
  pose proof (count_terms_closed _ _ _ _ _ Hc) as ->.
  assert (vocabulary_of_width (size v) v) as Hv.
  { destruct (_fixed_terms self) eqn:Hfixed.
    - unfold vocabulary_valid in Hvalid.
      destruct (vocabulary_terms self) as [v0|] eqn:Hv0.
      + rewrite (count_terms_fixed_closed self docs v0 Hv0) in Hc.
        assert (v0 = v) as -> by congruence. done.
      + unfold _count_terms in Hc. by rewrite Hv0 in Hc.
    - destruct (count_terms_open self docs) as (m0 & v0 & Hc0 & Hfs & _).
      assert (v0 = v) as -> by congruence. by eapply first_seen_ids_width. }
  destruct (_filter_terms argsort argsort_float _ (count_matrix v docs) v)
    as [[m' v']|e] eqn:Hf.
  - apply filter_terms_count_matrix in Hf as (_ & Hv' & _); done.
  - done.
Qed.

(** The vocabulary of an instance always numbers its terms
    [0 .. len(vocabulary) - 1], each id once: [__init__] accepts no other
    vocabulary (and no empty one), and [fit_transform], [fit] and a read of
    [id_to_term] keep it so -- after counting, after either filter, and also
    when the call raises half way. [__init__] leaves the cache empty and the
    instance fixed exactly when it was given a vocabulary. *)
Theorem vocabulary_stays_valid :
  (∀ weighting normalize sublinear_tf smooth_idf min_df max_df min_ic
     max_n_terms vocabulary self,
     __init__ weighting normalize sublinear_tf smooth_idf min_df max_df min_ic
              max_n_terms vocabulary = Ok self →
     vocabulary_valid self
     ∧ id_to_term_ self = ∅
     ∧ (match vocabulary with
        | Some _ => _fixed_terms self = true
                    ∧ ∃ v, vocabulary_terms self = Some v ∧ size v ≠ 0%nat
        | None => _fixed_terms self = false ∧ vocabulary_terms self = None
        end))
  ∧ (∀ self docs,
       vocabulary_valid self →
       vocabulary_valid (fit_transform argsort argsort_float self docs).1
       ∧ vocabulary_valid (fit argsort argsort_float self docs).1)
  ∧ (∀ self, vocabulary_valid self → vocabulary_valid (id_to_term self).1).
Proof.
  split; [|split].
  - intros w n s i mi ma ic k voc self H.
    exact (init_valid w n s i mi ma ic k voc self H).
  - intros self docs Hvalid.
    pose proof (fit_transform_valid self docs Hvalid) as H.
    split; [done|]. unfold fit.
    by destruct (fit_transform argsort argsort_float self docs).
  - intros self Hvalid. unfold id_to_term. rewrite py_ne_len_vocabulary.
    unfold vocabulary_valid in *.
    destruct (vocabulary_terms self) as [v|] eqn:Hv; cbn; rewrite ?Hv; done.
Qed.

End Invariant.


(** * Counting by groups *)

(** ** Summing the triples of a row *)

Lemma coo_add_other (g i : Z) (l : list (Z * Z)) (acc : gmap Z Z) :
  g ≠ i → foldl (coo_add i) acc (map (fun e : Z * Z => (g, e.1, e.2)) l) = acc.
Proof.
  intros Hne. induction l as [|e l IH]; [done|].
  cbn [map foldl]. unfold coo_add at 2.
  rewrite bool_decide_eq_false_2 by done. apply IH.
Qed.

Lemma coo_add_same (i : Z) (l : list (Z * Z)) : ∀ (acc : gmap Z Z) c,
  NoDup l.*1 →
  foldl (coo_add i) acc (map (fun e : Z * Z => (i, e.1, e.2)) l) !! c
  = match (list_to_map l : gmap Z Z) !! c with
    | Some d => Some (default 0 (acc !! c) + d)
    | None => acc !! c
    end.
Proof.
  induction l as [|[c0 d0] l IH]; intros acc c Hnd; [done|].
  rewrite fmap_cons in Hnd. apply NoDup_cons in Hnd as [Hc0 Hnd].
  cbn [map foldl fst snd]. unfold coo_add at 2.
  rewrite bool_decide_eq_true_2 by done. rewrite IH by done.
  cbn [list_to_map foldr fst snd]. 
  destruct (decide (c = c0)) as [->|Hne].
  - rewrite lookup_insert_eq.
    rewrite (not_elem_of_list_to_map_1 (M := gmap Z) l c0 Hc0).
    by rewrite lookup_insert_eq.
  - by rewrite !lookup_insert_ne by done.
Qed.

Lemma term_counter_of_app (v : gmap string Z) (doc1 doc2 : list string) c :
  term_counter_of v (doc1 ++ doc2) !! c
  = match term_counter_of v doc2 !! c with
    | Some d => Some (default 0 (term_counter_of v doc1 !! c) + d)
    | None => term_counter_of v doc1 !! c
    end.
Proof.
  rewrite !term_counter_of_lookup, tokens_with_id_app.
  pose proof (tokens_with_id_nonneg v c doc1).
  pose proof (tokens_with_id_nonneg v c doc2).
  repeat case_decide; simpl; try lia; try done; f_equal; lia.
Qed.

(** ** The triples collected under fixed vocabularies *)

Lemma coo_group_ids (g : Z) (l : list (Z * Z)) :
  (map (fun e : Z * Z => (g, e.1, e.2)) l).*1.*1 = repeat g (length l)
  ∧ (map (fun e : Z * Z => (g, e.1, e.2)) l).*1.*2 = l.*1
  ∧ (map (fun e : Z * Z => (g, e.1, e.2)) l).*2 = l.*2.
Proof.
  induction l as [|e l (IH1 & IH2 & IH3)]; [done|].
  cbn [map length repeat]. rewrite !fmap_cons, IH1, IH2, IH3. done.
Qed.

Lemma lookup_grp_fixed (vg : gmap string Z) (grp : string) :
  GroupVectorizer.lookup_grp true vg grp
  = match vg !! grp with Some g => Some (g, vg) | None => None end.
Proof. unfold GroupVectorizer.lookup_grp. by destruct (vg !! grp). Qed.

Lemma count_grps_fold_fixed (pairs : list (string * list string)) :
  ∀ (vt vg : gmap string Z) (entries : list (Z * Z * Z)),
    foldl (GroupVectorizer.count_grp true true)
          (vt, vg, entries.*2, entries.*1.*2, entries.*1.*1) pairs
    = (vt, vg, (entries ++ coo_of_pairs vt vg pairs).*2,
       (entries ++ coo_of_pairs vt vg pairs).*1.*2,
       (entries ++ coo_of_pairs vt vg pairs).*1.*1).
Proof.
  induction pairs as [|[grp doc] pairs IH]; intros vt vg entries.
  - simpl. by rewrite app_nil_r.
  - cbn [foldl]. unfold GroupVectorizer.count_grp at 2.
    rewrite lookup_grp_fixed.
    change (coo_of_pairs vt vg ((grp, doc) :: pairs))
      with (match vg !! grp with
            | Some g => map (fun e : Z * Z => (g, e.1, e.2))
                            (map_to_list (term_counter_of vt doc))
            | None => []
            end ++ coo_of_pairs vt vg pairs).
    destruct (vg !! grp) as [g|].
    + pose proof (count_terms_fold_fixed_vocabulary doc vt ∅) as Hvt.
      unfold term_counter_of.
      destruct (foldl (count_term true) (vt, ∅) doc) as [vt1 tc] eqn:Hf.
      simpl in Hvt. subst vt1. cbn [snd].
      destruct (coo_group_ids g (map_to_list tc)) as (H1 & H2 & H3).
      rewrite <- H1, <- H2, <- H3, <- !fmap_app, IH.
      by rewrite <- !app_assoc.
    + apply IH.
Qed.

Lemma zip_fst_snd_triples (entries : list (Z * Z * Z)) :
  zip (zip entries.*1.*1 entries.*1.*2) entries.*2 = entries.
Proof. by rewrite !zip_fst_snd. Qed.

(** ** The rows of the summed triples *)

Lemma docs_of_group_cons (vg : gmap string Z) grp doc pairs g :
  docs_of_group vg ((grp, doc) :: pairs) g
  = (if decide (vg !! grp = Some g) then doc else [])
    ++ docs_of_group vg pairs g.
Proof.
  unfold docs_of_group. rewrite filter_cons. cbn [fst].
  by destruct (decide (vg !! grp = Some g)).
Qed.

Lemma coo_row_of_pairs (vt vg : gmap string Z)
  (pairs : list (string * list string)) (g : Z) :
  ∀ (done : list string),
    foldl (coo_add g) (term_counter_of vt done) (coo_of_pairs vt vg pairs)
    = term_counter_of vt (done ++ docs_of_group vg pairs g).
Proof.
  induction pairs as [|[grp doc] pairs IH]; intros done.
  - unfold docs_of_group. simpl. by rewrite app_nil_r.
  - change (coo_of_pairs vt vg ((grp, doc) :: pairs))
      with (match vg !! grp with
            | Some g => map (fun e : Z * Z => (g, e.1, e.2))
                            (map_to_list (term_counter_of vt doc))
            | None => []
            end ++ coo_of_pairs vt vg pairs).
    rewrite foldl_app, docs_of_group_cons.
    destruct (vg !! grp) as [g'|] eqn:Hgrp.
    + destruct (decide (g' = g)) as [->|Hne].
      * rewrite decide_True by done. rewrite app_assoc, <- IH. f_equal.
        apply map_eq. intros c.
        rewrite coo_add_same by apply NoDup_fst_map_to_list.
        by rewrite list_to_map_to_list, term_counter_of_app.
      * rewrite decide_False by congruence.
        rewrite coo_add_other by done. apply IH.
    + rewrite decide_False by done. apply IH.
Qed.

(** The summed triples are the counts of the documents merged by group. *)
Lemma csr_of_coo_pairs (vt vg : gmap string Z)
  (pairs : list (string * list string)) (m : csr_matrix Z) :
  csr_of_coo (coo_of_pairs vt vg pairs).*2 (coo_of_pairs vt vg pairs).*1.*1
             (coo_of_pairs vt vg pairs).*1.*2 (size vg, size vt) = Ok m →
  sort_indices m = count_matrix vt (merged_docs vg pairs).
Proof.
  unfold csr_of_coo. destruct (_ && _); [|done]. intros [= <-].
  rewrite zip_fst_snd_triples. unfold sort_indices, count_matrix, merged_docs.
  cbn [mrows n_cols fst snd]. f_equal. rewrite !map_map. apply map_ext.
  intros g. unfold count_row, coo_row. do 2 f_equal.
  apply (coo_row_of_pairs vt vg pairs (Z.of_nat g) []).
Qed.

Lemma elem_of_coo_of_pairs (vt vg : gmap string Z)
  (pairs : list (string * list string)) g c d :
  (g, c, d) ∈ coo_of_pairs vt vg pairs →
  (∃ grp, vg !! grp = Some g) ∧ ∃ t, vt !! t = Some c.
Proof.
  unfold coo_of_pairs. rewrite list_elem_of_In, in_flat_map.
  intros ([grp doc] & _ & Hin). apply list_elem_of_In in Hin. cbn [fst snd] in Hin.
  destruct (vg !! grp) as [g'|] eqn:Hgrp; [|by apply elem_of_nil in Hin].
  apply list_elem_of_fmap in Hin as ([c' d'] & [= -> -> ->] & Hin).
  split; [by exists grp|].
  apply elem_of_map_to_list in Hin. rewrite term_counter_of_lookup in Hin.
  case_decide as Hz; [done|]. clear Hin.
  unfold tokens_with_id in Hz.
  destruct (filter _ doc) as [|t l] eqn:Hf; [done|].
  assert (t ∈ filter (fun t => vt !! t = Some c') doc) as Hin
    by (rewrite Hf; by left).
  apply list_elem_of_filter in Hin as [Hin _]. by exists t.
Qed.

Lemma csr_of_coo_pairs_ok (vt vg : gmap string Z)
  (pairs : list (string * list string)) :
  (∀ t j, vt !! t = Some j → 0 ≤ j < Z.of_nat (size vt)) →
  (∀ grp g, vg !! grp = Some g → 0 ≤ g < Z.of_nat (size vg)) →
  is_ok (csr_of_coo (coo_of_pairs vt vg pairs).*2 (coo_of_pairs vt vg pairs).*1.*1
                    (coo_of_pairs vt vg pairs).*1.*2 (size vg, size vt)) = true.
Proof.
  intros Hvt Hvg. unfold csr_of_coo. cbn [fst snd].
  rewrite (proj2 (andb_true_iff _ _)); [done|]. split.
  - apply forallb_forall. intros g Hg. apply list_elem_of_In in Hg.
    apply list_elem_of_fmap in Hg as ([g' c] & -> & Hg).
    apply list_elem_of_fmap in Hg as ([[g c'] d] & [= -> ->] & Hin).
    apply elem_of_coo_of_pairs in Hin as [[grp Hgrp] _].
    apply Hvg in Hgrp. unfold index_in_bounds. cbn. lia.
  - apply forallb_forall. intros c Hc. apply list_elem_of_In in Hc.
    apply list_elem_of_fmap in Hc as ([g c'] & -> & Hc).
    apply list_elem_of_fmap in Hc as ([[g' c] d] & [= -> ->] & Hin).
    apply elem_of_coo_of_pairs in Hin as [_ [t Ht]].
    apply Hvt in Ht. unfold index_in_bounds. cbn. lia.
Qed.

(** ** Open vocabularies count like their final state *)

Lemma lookup_grp_grows fixed (vg : gmap string Z) grp g vg' :
  GroupVectorizer.lookup_grp fixed vg grp = Some (g, vg') →
  vg ⊆ vg' ∧ vg' !! grp = Some g ∧ (fixed = true → vg' = vg).
Proof.
  unfold GroupVectorizer.lookup_grp. destruct (vg !! grp) as [g0|] eqn:Hgrp.
  - intros [= <- <-]. done.
  - destruct fixed; [done|]. intros [= <- <-].
    split; [by apply insert_subseteq|]. split; [apply lookup_insert_eq|done].
Qed.

Lemma count_grp_grows ft fg (vt vg : gmap string Z) d c r p :
  vt ⊆ (GroupVectorizer.count_grp ft fg (vt, vg, d, c, r) p).1.1.1.1
  ∧ vg ⊆ (GroupVectorizer.count_grp ft fg (vt, vg, d, c, r) p).1.1.1.2
  ∧ (ft = true →
     (GroupVectorizer.count_grp ft fg (vt, vg, d, c, r) p).1.1.1.1 = vt)
  ∧ (fg = true →
     (GroupVectorizer.count_grp ft fg (vt, vg, d, c, r) p).1.1.1.2 = vg).
Proof.
  destruct p as [grp doc]. unfold GroupVectorizer.count_grp.
  destruct (GroupVectorizer.lookup_grp fg vg grp) as [[g vg']|] eqn:Hl; [|done].
  apply lookup_grp_grows in Hl as (Hsub & _ & Hfix).
  pose proof (count_terms_fold_grows ft doc vt ∅) as Hvt.
  pose proof (count_terms_fold_fixed_vocabulary doc vt ∅) as Hconst.
  destruct (foldl (count_term ft) (vt, ∅) doc) as [vt1 tc] eqn:Hf.
  cbn [fst snd] in *. split; [done|]. split; [done|]. split; [|done].
  intros ->. by rewrite Hf in Hconst.
Qed.

Lemma count_grps_fold_grows ft fg (pairs : list (string * list string)) :
  ∀ (vt vg : gmap string Z) d c r,
    vt ⊆ (foldl (GroupVectorizer.count_grp ft fg) (vt, vg, d, c, r) pairs).1.1.1.1
    ∧ vg ⊆ (foldl (GroupVectorizer.count_grp ft fg) (vt, vg, d, c, r) pairs).1.1.1.2
    ∧ (ft = true →
       (foldl (GroupVectorizer.count_grp ft fg) (vt, vg, d, c, r) pairs).1.1.1.1
       = vt)
    ∧ (fg = true →
       (foldl (GroupVectorizer.count_grp ft fg) (vt, vg, d, c, r) pairs).1.1.1.2
       = vg).
Proof.
  induction pairs as [|p pairs IH]; intros vt vg d c r; [done|].
  cbn [foldl].
  destruct (count_grp_grows ft fg vt vg d c r p) as (H1 & H2 & H3 & H4).
  destruct (GroupVectorizer.count_grp ft fg (vt, vg, d, c, r) p)
    as [[[[vt1 vg1] d1] c1] r1].
  cbn [fst snd] in *.
  destruct (IH vt1 vg1 d1 c1 r1) as (I1 & I2 & I3 & I4).
  split; [by etrans|]. split; [by etrans|]. split.
  - intros Hft. rewrite (I3 Hft). by apply H3.
  - intros Hfg. rewrite (I4 Hfg). by apply H4.
Qed.

Lemma count_grp_as_fixed (ft fg : bool) (vt vg vt' vg' : gmap string Z) d c r p :
  (if ft then vt' = vt
   else (GroupVectorizer.count_grp ft fg (vt, vg, d, c, r) p).1.1.1.1 ⊆ vt') →
  (if fg then vg' = vg
   else (GroupVectorizer.count_grp ft fg (vt, vg, d, c, r) p).1.1.1.2 ⊆ vg') →
  GroupVectorizer.count_grp true true (vt', vg', d, c, r) p
  = (vt', vg',
     (GroupVectorizer.count_grp ft fg (vt, vg, d, c, r) p).1.1.2,
     (GroupVectorizer.count_grp ft fg (vt, vg, d, c, r) p).1.2,
     (GroupVectorizer.count_grp ft fg (vt, vg, d, c, r) p).2).
Proof.
  destruct p as [grp doc]. unfold GroupVectorizer.count_grp.
  rewrite lookup_grp_fixed.
  destruct (GroupVectorizer.lookup_grp fg vg grp) as [[g vg1]|] eqn:Hl.
  - pose proof (lookup_grp_grows _ _ _ _ _ Hl) as (Hsub & Hg & Hfix).
    pose proof (count_terms_fold_as_fixed doc vt vt' ∅) as Hopen.
    pose proof (count_terms_fold_fixed_vocabulary doc vt ∅) as Hconst.
    destruct (foldl (count_term ft) (vt, ∅) doc) as [vt1 tc] eqn:Hf.
    cbn [fst snd]. intros Hvt Hvg.
    assert (vg' !! grp = Some g) as ->.
    { destruct fg; [by rewrite Hvg, <- (Hfix eq_refl)|].
      by eapply lookup_weaken. }
    assert (foldl (count_term true) (vt', ∅) doc = (vt', tc)) as ->; [|done].
    destruct ft.
    + subst vt'. rewrite Hf in Hconst. cbn in Hconst. by subst vt1.
    + rewrite Hf in Hopen. by apply Hopen.
  - cbn [fst snd]. intros _ Hvg.
    unfold GroupVectorizer.lookup_grp in Hl.
    destruct (vg !! grp) eqn:Hgrp; [done|]. destruct fg; [|done].
    by rewrite Hvg, Hgrp.
Qed.

Lemma count_grps_fold_as_fixed (ft fg : bool) (pairs : list (string * list string)) :
  ∀ (vt vg vt' vg' : gmap string Z) d c r,
    (if ft then vt' = vt
     else (foldl (GroupVectorizer.count_grp ft fg) (vt, vg, d, c, r) pairs).1.1.1.1
          ⊆ vt') →
    (if fg then vg' = vg
     else (foldl (GroupVectorizer.count_grp ft fg) (vt, vg, d, c, r) pairs).1.1.1.2
          ⊆ vg') →
    foldl (GroupVectorizer.count_grp true true) (vt', vg', d, c, r) pairs
    = (vt', vg',
       (foldl (GroupVectorizer.count_grp ft fg) (vt, vg, d, c, r) pairs).1.1.2,
       (foldl (GroupVectorizer.count_grp ft fg) (vt, vg, d, c, r) pairs).1.2,
       (foldl (GroupVectorizer.count_grp ft fg) (vt, vg, d, c, r) pairs).2).
Proof.
  induction pairs as [|p pairs IH]; intros vt vg vt' vg' d c r Hvt Hvg; [done|].
  cbn [foldl] in *.
  pose proof (count_grp_as_fixed ft fg vt vg vt' vg' d c r p) as Hstep.
  destruct (count_grp_grows ft fg vt vg d c r p) as (_ & _ & Hct & Hcg).
  destruct (GroupVectorizer.count_grp ft fg (vt, vg, d, c, r) p)
    as [[[[vt1 vg1] d1] c1] r1] eqn:Hp.
  cbn [fst snd] in Hstep, Hct, Hcg.
  destruct (count_grps_fold_grows ft fg pairs vt1 vg1 d1 c1 r1)
    as (Hg1 & Hg2 & _ & _).
  rewrite Hstep.
  - apply IH.
    + destruct ft; [by rewrite Hct|done].
    + destruct fg; [by rewrite Hcg|done].
  - destruct ft; [done|]. by etrans.
  - destruct fg; [done|]. by etrans.
Qed.


(** ** The vocabularies that group counting builds *)

Lemma lookup_grp_open (vg : gmap string Z) (grp : string) :
  ∃ g, GroupVectorizer.lookup_grp false vg grp
       = Some (g, (count_term false (vg, ∅) grp).1).
Proof.
  unfold GroupVectorizer.lookup_grp, count_term.
  destruct (vg !! grp) as [g|]; eauto.
Qed.

Lemma count_grps_fold_groups (pairs : list (string * list string)) ft :
  ∀ (vt vg : gmap string Z) d c r (done : list string),
    first_seen_ids vg done →
    first_seen_ids
      (foldl (GroupVectorizer.count_grp ft false) (vt, vg, d, c, r) pairs).1.1.1.2
      (done ++ map fst pairs).
Proof.
  induction pairs as [|[grp doc] pairs IH]; intros vt vg d c r done Hvg.
  - simpl. by rewrite app_nil_r.
  - cbn [foldl map fst]. unfold GroupVectorizer.count_grp at 2.
    destruct (lookup_grp_open vg grp) as [g ->].
    pose proof (count_term_first_seen vg ∅ done grp Hvg) as Hvg1.
    destruct (foldl (count_term ft) (vt, ∅) doc) as [vt1 tc].
    rewrite (cons_middle grp), app_assoc. by apply IH.
Qed.

Lemma count_grp_cases ft fg (vt vg : gmap string Z) d c r grp doc :
  (GroupVectorizer.lookup_grp fg vg grp = None
   ∧ GroupVectorizer.count_grp ft fg (vt, vg, d, c, r) (grp, doc)
     = (vt, vg, d, c, r))
  ∨ (∃ g vg1,
       GroupVectorizer.lookup_grp fg vg grp = Some (g, vg1)
       ∧ GroupVectorizer.count_grp ft fg (vt, vg, d, c, r) (grp, doc)
         = ((foldl (count_term ft) (vt, ∅) doc).1, vg1,
            d ++ (map_to_list (foldl (count_term ft) (vt, ∅) doc).2).*2,
            c ++ (map_to_list (foldl (count_term ft) (vt, ∅) doc).2).*1,
            r ++ repeat g
                   (length (map_to_list (foldl (count_term ft) (vt, ∅) doc).2)))).
Proof.
  unfold GroupVectorizer.count_grp.
  destruct (GroupVectorizer.lookup_grp fg vg grp) as [[g vg1]|]; [right|by left].
  exists g, vg1. split; [done|].
  by destruct (foldl (count_term ft) (vt, ∅) doc).
Qed.

Lemma count_grps_fold_terms (pairs : list (string * list string)) fg :
  ∀ (vt vg : gmap string Z) d c r (ts : list string),
    first_seen_ids vt ts →
    first_seen_ids
      (foldl (GroupVectorizer.count_grp false fg) (vt, vg, d, c, r) pairs).1.1.1.1
      (ts ++ concat (map snd
         (known_pairs
            (foldl (GroupVectorizer.count_grp false fg) (vt, vg, d, c, r) pairs).1.1.1.2
            pairs))).
Proof.
  induction pairs as [|[grp doc] pairs IH]; intros vt vg d c r ts Hvt.
  - simpl. by rewrite app_nil_r.
  - cbn [foldl]. unfold known_pairs. rewrite filter_cons. cbn [fst].
    destruct (count_grp_cases false fg vt vg d c r grp doc)
      as [[Hl ->]|(g & vg1 & Hl & ->)].
    + unfold GroupVectorizer.lookup_grp in Hl.
      destruct (vg !! grp) eqn:Hgrp; [done|]. destruct fg; [|done].
      destruct (count_grps_fold_grows false true pairs vt vg d c r)
        as (_ & _ & _ & Hconst).
      rewrite decide_False.
      2:{ rewrite (Hconst eq_refl), Hgrp. by intros [? ?]. }
      by apply IH.
    + apply lookup_grp_grows in Hl as (_ & Hg & _).
      destruct (count_terms_fold_open doc vt ∅ ts []) as (vt1 & tc & Hf & Hvt1 & _).
      { by rewrite app_nil_r. }
      { apply counter_ok_empty. }
      rewrite Hf. cbn [fst snd]. simpl in Hvt1.
      destruct (count_grps_fold_grows false fg pairs vt1 vg1
                  (d ++ (map_to_list tc).*2) (c ++ (map_to_list tc).*1)
                  (r ++ repeat g (length (map_to_list tc)))) as (_ & Hsub & _).
      rewrite decide_True by (eexists; by eapply lookup_weaken).
      cbn [map snd concat]. rewrite app_assoc. by apply IH.
Qed.

(** The arrays that the loop collects are the triples of its final
    vocabularies. *)
Lemma count_grps_fold_closed (ft fg : bool) (pairs : list (string * list string))
  (vt0 vg0 vt1 vg1 : gmap string Z) d c r :
  foldl (GroupVectorizer.count_grp ft fg) (vt0, vg0, [], [], []) pairs
  = (vt1, vg1, d, c, r) →
  d = (coo_of_pairs vt1 vg1 pairs).*2
  ∧ c = (coo_of_pairs vt1 vg1 pairs).*1.*2
  ∧ r = (coo_of_pairs vt1 vg1 pairs).*1.*1.
Proof.
  intros Hfold.
  pose proof (count_grps_fold_as_fixed ft fg pairs vt0 vg0 vt1 vg1 [] [] [])
    as Hfixed.
  pose proof (count_grps_fold_grows ft fg pairs vt0 vg0 [] [] [])
    as (_ & _ & Hct & Hcg).
  rewrite Hfold in Hfixed, Hct, Hcg. cbn [fst snd] in Hfixed, Hct, Hcg.
  pose proof (count_grps_fold_fixed pairs vt1 vg1 []) as Hclosed.
  change (foldl (GroupVectorizer.count_grp true true) (vt1, vg1, [], [], []) pairs
          = (vt1, vg1, (coo_of_pairs vt1 vg1 pairs).*2,
             (coo_of_pairs vt1 vg1 pairs).*1.*2,
             (coo_of_pairs vt1 vg1 pairs).*1.*1)) in Hclosed.
  rewrite Hclosed in Hfixed.
  assert (∀ a b : gmap string Z * gmap string Z * list Z * list Z * list Z,
            a = b → a.1.1.2 = b.1.1.2 ∧ a.1.2 = b.1.2 ∧ a.2 = b.2) as Hproj
    by (by intros a b ->).
  apply Hproj in Hfixed as (H1 & H2 & H3); [done| |].
  - destruct ft; [by apply Hct|done].
  - destruct fg; [by apply Hcg|done].
Qed.

Section GroupCounting.
Variable zip_ : list string → list (list string) → list (string * list string).

(** What [GroupVectorizer._count_terms] returns, whenever it returns. *)
Lemma group_count_terms_closed (self : GroupVectorizer.t)
  (docs : list (list string)) (grps : list string) (ft fg : bool) m vt vg :
  GroupVectorizer._count_terms zip_ self docs grps ft fg = Ok (m, vt, vg) →
  m = count_matrix vt (merged_docs vg (zip_ grps docs))
  ∧ (if ft then vocabulary_terms (GroupVectorizer.vectorizer self) = Some vt
     else first_seen_ids vt
            (concat (map snd (known_pairs vg (zip_ grps docs)))))
  ∧ (if fg then GroupVectorizer.vocabulary_grps self = Some vg
     else first_seen_ids vg (map fst (zip_ grps docs))).
Proof.
  unfold GroupVectorizer._count_terms.
  destruct (if ft then _ else _) as [vt0|] eqn:Hvt0; [|done].
  destruct (if fg then _ else _) as [vg0|] eqn:Hvg0; [|done].
  cbn [mbind result_bind].
  pose proof (count_grps_fold_grows ft fg (zip_ grps docs) vt0 vg0 [] [] [])
    as (_ & _ & Hct & Hcg).
  destruct (foldl (GroupVectorizer.count_grp ft fg) (vt0, vg0, [], [], [])
              (zip_ grps docs)) as [[[[vt1 vg1] d] c] r] eqn:Hfold.
  cbn [fst snd] in *.
  destruct (count_grps_fold_closed _ _ _ _ _ _ _ _ _ _ Hfold) as (-> & -> & ->).
  destruct (csr_of_coo _ _ _ _) as [m0|] eqn:Hcsr; [|done].
  cbn [mbind result_bind]. intros [= <- <- <-].
  split; [by apply csr_of_coo_pairs|]. split.
  - destruct ft.
    + rewrite (Hct eq_refl).
      by destruct (vocabulary_terms (GroupVectorizer.vectorizer self));
        simplify_eq.
    + injection Hvt0 as <-.
      pose proof (count_grps_fold_terms (zip_ grps docs) fg ∅ vg0 [] [] [] []
                    first_seen_ids_empty) as Hts.
      by rewrite Hfold in Hts.
  - destruct fg.
    + rewrite (Hcg eq_refl).
      by destruct (GroupVectorizer.vocabulary_grps self); simplify_eq.
    + injection Hvg0 as <-.
      pose proof (count_grps_fold_groups (zip_ grps docs) ft vt0 ∅ [] [] [] []
                    first_seen_ids_empty) as Hgs.
      by rewrite Hfold in Hgs.
Qed.

(** With open vocabularies the call always returns. *)
Lemma group_count_terms_open_ok (self : GroupVectorizer.t)
  (docs : list (list string)) (grps : list string) :
  is_ok (GroupVectorizer._count_terms zip_ self docs grps false false) = true.
Proof.
  unfold GroupVectorizer._count_terms. cbn [mbind result_bind].
  pose proof (count_grps_fold_terms (zip_ grps docs) false ∅ ∅ [] [] [] []
                first_seen_ids_empty) as Hts.
  pose proof (count_grps_fold_groups (zip_ grps docs) false ∅ ∅ [] [] [] []
                first_seen_ids_empty) as Hgs.
  destruct (foldl (GroupVectorizer.count_grp false false) (∅, ∅, [], [], [])
              (zip_ grps docs)) as [[[[vt1 vg1] d] c] r] eqn:Hfold.
  cbn [fst snd] in *.
  destruct (count_grps_fold_closed _ _ _ _ _ _ _ _ _ _ Hfold) as (-> & -> & ->).
  pose proof (csr_of_coo_pairs_ok vt1 vg1 (zip_ grps docs)
                (fs_range _ _ Hts) (fs_range _ _ Hgs)) as Hok.
  by destruct (csr_of_coo _ _ _ _).
Qed.

End GroupCounting.


(** * The group-term matrix *)

Lemma length_merged_docs (vg : gmap string Z) pairs :
  length (merged_docs vg pairs) = size vg.
Proof. unfold merged_docs. by rewrite length_map, length_seq. Qed.

Lemma lookup_merged_docs (vg : gmap string Z) pairs (g : nat) :
  (g < size vg)%nat →
  merged_docs vg pairs !! g = Some (docs_of_group vg pairs (Z.of_nat g)).
Proof.
  intros Hg. unfold merged_docs. change (map ?f ?l) with (f <$> l).
  by rewrite list_lookup_fmap, lookup_seq_lt.
Qed.

Section GroupMatrix.
Variable zip_ : list string → list (list string) → list (string * list string).

(** Whenever [GroupVectorizer._count_terms] returns, its matrix is the count
    matrix of the documents merged by group: one row per group id, one
    column per term id, entry [(g, j)] the number of tokens of id [j] in all
    the documents whose group has id [g]. A vocabulary that was open holds
    the ids in order of first appearance: of the group names for the
    groups, of the tokens of the documents of known groups for the terms. A
    vocabulary that was fixed is returned as it was. *)
Theorem group_counts_merge_documents (self : GroupVectorizer.t)
  (docs : list (list string)) (grps : list string) (ft fg : bool)
  (m : csr_matrix Z) (vt vg : gmap string Z) :
  GroupVectorizer._count_terms zip_ self docs grps ft fg = Ok (m, vt, vg) →
  m = count_matrix vt (merged_docs vg (zip_ grps docs))
  ∧ n_rows m = size vg ∧ n_cols m = size vt
  ∧ (∀ (g : nat) j, (g < size vg)%nat →
       get m g j
       = tokens_with_id vt j (docs_of_group vg (zip_ grps docs) (Z.of_nat g)))
  ∧ (if ft then vocabulary_terms (GroupVectorizer.vectorizer self) = Some vt
     else first_seen_ids vt
            (concat (map snd (known_pairs vg (zip_ grps docs)))))
  ∧ (if fg then GroupVectorizer.vocabulary_grps self = Some vg
     else first_seen_ids vg (map fst (zip_ grps docs))).
Proof.
  intros Hc. apply group_count_terms_closed in Hc as (-> & Hvt & Hvg).
  split; [done|]. split; [by rewrite n_rows_count_matrix, length_merged_docs|].
  split; [done|]. split; [|done].
  intros g j Hg. apply get_count_matrix. by apply lookup_merged_docs.
Qed.

Lemma group_count_terms_fixed (self : GroupVectorizer.t)
  (docs : list (list string)) (grps : list string) (vt vg : gmap string Z) :
  vocabulary_terms (GroupVectorizer.vectorizer self) = Some vt →
  GroupVectorizer.vocabulary_grps self = Some vg →
  (∀ t j, vt !! t = Some j → 0 ≤ j < Z.of_nat (size vt)) →
  (∀ grp g, vg !! grp = Some g → 0 ≤ g < Z.of_nat (size vg)) →
  GroupVectorizer._count_terms zip_ self docs grps true true
  = Ok (count_matrix vt (merged_docs vg (zip_ grps docs)), vt, vg).
Proof.
  intros Hvt Hvg Hrt Hrg.
  destruct (GroupVectorizer._count_terms zip_ self docs grps true true)
    as [[[m vt'] vg']|e] eqn:Hc.
  - apply group_count_terms_closed in Hc as (-> & Hvt' & Hvg').
    by simplify_eq.
  - exfalso. unfold GroupVectorizer._count_terms in Hc.
    rewrite Hvt, Hvg in Hc. cbn [mbind result_bind] in Hc.
    pose proof (count_grps_fold_fixed (zip_ grps docs) vt vg []) as Hclosed.
    change (foldl (GroupVectorizer.count_grp true true) (vt, vg, [], [], [])
              (zip_ grps docs)
            = (vt, vg, (coo_of_pairs vt vg (zip_ grps docs)).*2,
               (coo_of_pairs vt vg (zip_ grps docs)).*1.*2,
               (coo_of_pairs vt vg (zip_ grps docs)).*1.*1)) in Hclosed.
    rewrite Hclosed in Hc.
    pose proof (csr_of_coo_pairs_ok vt vg (zip_ grps docs) Hrt Hrg) as Hok.
    by destruct (csr_of_coo _ _ _ _).
Qed.

(** With both vocabularies in place and their ids below their sizes,
    [GroupVectorizer.transform] returns what [Vectorizer.transform] of the
    base instance returns on the documents merged by group, one merged
    document per group id: grouping spares the caller the merging and
    nothing else. *)
Theorem group_transform_merges_documents (self : GroupVectorizer.t)
  (docs : list (list string)) (grps : list string) (vt vg : gmap string Z) :
  vocabulary_terms (GroupVectorizer.vectorizer self) = Some vt →
  GroupVectorizer.vocabulary_grps self = Some vg →
  (∀ t j, vt !! t = Some j → 0 ≤ j < Z.of_nat (size vt)) →
  (∀ grp g, vg !! grp = Some g → 0 ≤ g < Z.of_nat (size vg)) →
  GroupVectorizer.transform zip_ self docs grps
  = transform (GroupVectorizer.vectorizer self)
              (merged_docs vg (zip_ grps docs)).
Proof.
  intros Hvt Hvg Hrt Hrg. unfold GroupVectorizer.transform, transform.
  destruct (_check_vocabulary (GroupVectorizer.vectorizer self)); [|done].
  cbn [mbind result_bind].
  rewrite (group_count_terms_fixed self docs grps vt vg) by done.
  by rewrite (count_terms_fixed_closed _ _ vt Hvt).
Qed.

(** [GroupVectorizer.transform] before anything was fitted: without a term
    vocabulary it raises the [ValueError] of [_check_vocabulary]; with a
    term vocabulary but no group vocabulary, which [_check_vocabulary] does
    not look at, it raises [TypeError]. [grps_list] behaves the same way
    with [AttributeError] in place of [TypeError]. *)
Theorem group_transform_unfitted (self : GroupVectorizer.t)
  (docs : list (list string)) (grps : list string) :
  (vocabulary_terms (GroupVectorizer.vectorizer self) = None →
   GroupVectorizer.transform zip_ self docs grps
   = Raise (ValueError VocabularyNotFit)
   ∧ GroupVectorizer.grps_list self = Raise (ValueError VocabularyNotFit))
  ∧ (∀ vt, vocabulary_terms (GroupVectorizer.vectorizer self) = Some vt →
           size vt ≠ 0%nat → GroupVectorizer.vocabulary_grps self = None →
           GroupVectorizer.transform zip_ self docs grps = Raise TypeError
           ∧ GroupVectorizer.grps_list self = Raise AttributeError).
Proof.
  split.
  - intros Hvt. unfold GroupVectorizer.transform, GroupVectorizer.grps_list,
      _check_vocabulary. by rewrite Hvt.
  - intros vt Hvt Hne Hvg.
    unfold GroupVectorizer.transform, GroupVectorizer.grps_list,
      _check_vocabulary, GroupVectorizer._count_terms.
    rewrite Hvt, Hvg. by rewrite bool_decide_eq_false_2 by done.
Qed.

End GroupMatrix.

Lemma map_Forall_range (n : nat) (v : gmap string Z) :
  bool_decide (map_Forall (fun (_ : string) j => 0 ≤ j < Z.of_nat n) v) = true →
  ∀ t j, v !! t = Some j → 0 ≤ j < Z.of_nat n.
Proof. intros H%bool_decide_eq_true t j Ht. exact (H t j Ht). Qed.

Lemma group_counts_merge_documents_witness :
  ∃ m, GroupVectorizer._count_terms zip default_group_vectorizer
         [["a"; "b"]; ["b"]; ["c"; "a"]]%string ["g"; "h"; "g"]%string
         false false
       = Ok (m, {["a" := 0; "b" := 1; "c" := 2]}, {["g" := 0; "h" := 1]})
       ∧ toarray m = [[2; 1; 1]; [0; 1; 0]]
       ∧ m = count_matrix {["a" := 0; "b" := 1; "c" := 2]}
               [["a"; "b"; "c"; "a"]; ["b"]]%string.
Proof.
  eexists. split; [vm_compute; reflexivity|]. split; [vm_compute; reflexivity|].
  destruct (group_counts_merge_documents zip default_group_vectorizer
              [["a"; "b"]; ["b"]; ["c"; "a"]]%string ["g"; "h"; "g"]%string
              false false
              (CSR [[(0, 2); (1, 1); (2, 1)]; [(1, 1)]] 3)
              {["a" := 0; "b" := 1; "c" := 2]} {["g" := 0; "h" := 1]})
    as (Hm & _).
  - vm_compute. reflexivity.
  - rewrite Hm. vm_compute. reflexivity.
Defined.

Lemma group_transform_merges_documents_witness :
  GroupVectorizer.transform zip group_xy_gh
    [["x"]; ["y"; "z"]; ["x"; "x"]]%string ["h"; "g"; "h"]%string
  = transform (GroupVectorizer.vectorizer group_xy_gh)
      [["y"; "z"]; ["x"; "x"; "x"]]%string.
Proof.
  rewrite (group_transform_merges_documents zip group_xy_gh
             [["x"]; ["y"; "z"]; ["x"; "x"]]%string ["h"; "g"; "h"]%string
             {["x" := 0; "y" := 1]} {["g" := 0; "h" := 1]});
    [|reflexivity|reflexivity| |];
    [|apply (map_Forall_range 2); vm_compute; reflexivity..].
  f_equal.
Defined.

(** * Groups outside a fixed vocabulary *)

Lemma count_grps_fold_known ft (pairs : list (string * list string)) :
  ∀ (vt vg : gmap string Z) d c r,
    foldl (GroupVectorizer.count_grp ft true) (vt, vg, d, c, r)
          (known_pairs vg pairs)
    = foldl (GroupVectorizer.count_grp ft true) (vt, vg, d, c, r) pairs.
Proof.
  induction pairs as [|[grp doc] pairs IH]; intros vt vg d c r; [done|].
  unfold known_pairs. rewrite filter_cons. cbn [fst].
  fold (known_pairs vg pairs).
  destruct (count_grp_grows ft true vt vg d c r (grp, doc)) as (_ & _ & _ & Hcg).
  destruct (count_grp_cases ft true vt vg d c r grp doc)
    as [[Hl Hst]|(g & vg1 & Hl & Hst)].
  - unfold GroupVectorizer.lookup_grp in Hl.
    destruct (vg !! grp) eqn:Hgrp; [done|].
    rewrite decide_False by (by intros [? ?]).
    cbn [foldl]. rewrite Hst. apply IH.
  - unfold GroupVectorizer.lookup_grp in Hl.
    destruct (vg !! grp) eqn:Hgrp; [|done].
    rewrite decide_True by done. cbn [foldl].
    rewrite Hst in Hcg. cbn [fst snd] in Hcg. rewrite Hst.
    rewrite (Hcg eq_refl). apply IH.
Qed.

Section UnknownGroups.
Variable zip_ : list string → list (list string) → list (string * list string).

(** With a fixed vocabulary of groups, the documents of a group that is not
    in it count for nothing: leaving them out of the input changes neither
    the matrix nor the vocabularies that [_count_terms] returns, so that
    their terms do not even enter an open vocabulary of terms. *)
Theorem group_unknown_groups_ignored (self : GroupVectorizer.t)
  (docs docs' : list (list string)) (grps grps' : list string)
  (vg : gmap string Z) (ft : bool) :
  GroupVectorizer.vocabulary_grps self = Some vg →
  zip_ grps' docs' = known_pairs vg (zip_ grps docs) →
  GroupVectorizer._count_terms zip_ self docs' grps' ft true
  = GroupVectorizer._count_terms zip_ self docs grps ft true.
Proof.
  intros Hvg Hzip. unfold GroupVectorizer._count_terms. rewrite Hvg, Hzip.
  destruct (if ft then _ else _) as [vt0|]; [|done].
  cbn [mbind result_bind]. by rewrite count_grps_fold_known.
Qed.

End UnknownGroups.

Lemma group_unknown_groups_ignored_witness :
  GroupVectorizer._count_terms zip
    (GroupVectorizer.mk default_vectorizer (Some {["g" := 0]}) true ∅)
    [["a"]; ["a"; "c"]]%string ["g"; "g"]%string false true
  = GroupVectorizer._count_terms zip
      (GroupVectorizer.mk default_vectorizer (Some {["g" := 0]}) true ∅)
      [["a"]; ["b"]; ["a"; "c"]]%string ["g"; "k"; "g"]%string false true.
Proof.
  apply (group_unknown_groups_ignored zip
           (GroupVectorizer.mk default_vectorizer (Some {["g" := 0]}) true ∅)
           [["a"]; ["b"]; ["a"; "c"]]%string [["a"]; ["a"; "c"]]%string
           ["g"; "k"; "g"]%string ["g"; "g"]%string {["g" := 0]} false).
  - reflexivity.
  - vm_compute. reflexivity.
Defined.


(** * One group per document *)

Lemma first_seen_ids_unique (v v' : gmap string Z) (ts : list string) :
  first_seen_ids v ts → first_seen_ids v' ts → v = v'.
Proof.
  intros Hv Hv'. apply map_eq. intros t.
  destruct (decide (t ∈ ts)) as [Hin|Hnin].
  - symmetry. apply (first_seen_ids_agree v v' ts []); [done| |done].
    by rewrite app_nil_r.
  - assert (v !! t = None) as ->.
    { apply eq_None_not_Some. by rewrite (fs_dom _ _ Hv). }
    symmetry. apply eq_None_not_Some. by rewrite (fs_dom _ _ Hv').
Qed.

Lemma first_seen_ids_NoDup (v : gmap string Z) (ts : list string) :
  first_seen_ids v ts → NoDup ts →
  size v = length ts
  ∧ ∀ (i : nat) t, ts !! i = Some t → v !! t = Some (Z.of_nat i).
Proof.
  intros Hv Hnd. split.
  - rewrite (fs_size _ _ Hv). by apply size_list_to_set.
  - intros i t Hi.
    pose proof (take_drop_middle ts i t Hi) as Hsplit.
    assert (t ∉ take i ts) as Hpre.
    { rewrite <- Hsplit in Hnd. apply NoDup_app in Hnd as (_ & Hdis & _).
      intros Hin. apply (Hdis t Hin). by left. }
    rewrite (fs_first _ _ Hv (take i ts) t (drop (S i) ts)) by done.
    rewrite size_list_to_set.
    + rewrite length_take. apply lookup_lt_Some in Hi. do 2 f_equal. lia.
    + rewrite <- Hsplit in Hnd. by apply NoDup_app in Hnd as (Hnd1 & _).
Qed.

Lemma docs_of_group_indexed (vg : gmap string Z) :
  ∀ (pairs : list (string * list string)) (o : nat),
    (∀ (i : nat) p, pairs !! i = Some p → vg !! p.1 = Some (Z.of_nat (o + i))) →
    ∀ g : nat,
      docs_of_group vg pairs (Z.of_nat g)
      = match pairs !! (g - o)%nat with
        | Some p => if decide (o ≤ g)%nat then p.2 else []
        | None => []
        end.
Proof.
  induction pairs as [|[grp doc] pairs IH]; intros o Hids g.
  - by rewrite lookup_nil.
  - rewrite docs_of_group_cons.
    pose proof (Hids 0%nat (grp, doc) eq_refl) as Hgrp. cbn [fst] in Hgrp.
    rewrite Nat.add_0_r in Hgrp.
    rewrite (IH (S o)).
    2:{ intros i p Hp. rewrite (Hids (S i) p Hp). do 2 f_equal. lia. }
    destruct (decide (g = o)) as [->|Hne].
    + rewrite decide_True by done. rewrite Nat.sub_diag. cbn [lookup list_lookup snd].
      rewrite (decide_True (P := (o ≤ o)%nat)) by lia.
      replace (o - S o)%nat with 0%nat by lia.
      destruct (pairs !! 0%nat); [|by rewrite app_nil_r].
      rewrite decide_False by lia. by rewrite app_nil_r.
    + rewrite decide_False by (rewrite Hgrp; intros [= H]; lia).
      cbn [app]. destruct (decide (o ≤ g)%nat) as [Hle|Hgt].
      * replace (g - o)%nat with (S (g - S o)) by lia. cbn [lookup list_lookup].
        destruct (pairs !! (g - S o)%nat); [|done].
        by rewrite decide_True by lia.
      * replace (g - S o)%nat with 0%nat by lia.
        replace (g - o)%nat with 0%nat by lia. cbn [lookup list_lookup].
        destruct (pairs !! 0%nat); [|done]. by rewrite decide_False by lia.
Qed.

Lemma filter_all {A} (P : A → Prop) `{!∀ x, Decision (P x)} (l : list A) :
  (∀ x, x ∈ l → P x) → filter P l = l.
Proof.
  induction l as [|x l IH]; intros Hall; [done|].
  rewrite filter_cons, decide_True by (apply Hall; by left).
  f_equal. apply IH. intros y Hy. apply Hall. by right.
Qed.

Lemma merged_docs_distinct (vg : gmap string Z)
  (pairs : list (string * list string)) :
  first_seen_ids vg (map fst pairs) → NoDup (map fst pairs) →
  merged_docs vg pairs = map snd pairs ∧ known_pairs vg pairs = pairs.
Proof.
  intros Hvg Hnd. destruct (first_seen_ids_NoDup _ _ Hvg Hnd) as [Hsize Hids].
  rewrite length_map in Hsize. split.
  - apply list_eq. intros g.
    destruct (decide (g < length pairs)%nat) as [Hg|Hg].
    + rewrite lookup_merged_docs by lia.
      rewrite (docs_of_group_indexed vg pairs 0).
      * rewrite Nat.sub_0_r. change (map snd pairs) with (snd <$> pairs).
        rewrite list_lookup_fmap.
        destruct (lookup_lt_is_Some_2 pairs g Hg) as [p ->].
        by rewrite decide_True by lia.
      * intros i p Hp. cbn [Nat.add]. apply Hids.
        change (map fst pairs) with (fst <$> pairs).
        by rewrite list_lookup_fmap, Hp.
    + rewrite !lookup_ge_None_2; [done| |].
      * rewrite length_map. lia.
      * rewrite length_merged_docs. lia.
  - unfold known_pairs. apply filter_all. intros [grp doc] Hin. cbn [fst].
    apply (fs_dom _ _ Hvg). apply list_elem_of_fmap. by exists (grp, doc).
Qed.

Section DistinctGroups.
Variable zip_ : list string → list (list string) → list (string * list string).
Variable argsort : list Z → list nat.
Variable argsort_float : list R → list nat.

Lemma group_count_terms_distinct (self : GroupVectorizer.t)
  (docs : list (list string)) (grps : list string) :
  NoDup (map fst (zip_ grps docs)) →
  ∃ m vt vg,
    GroupVectorizer._count_terms zip_ self docs grps false false = Ok (m, vt, vg)
    ∧ _count_terms (GroupVectorizer.vectorizer self) (map snd (zip_ grps docs))
        false = Ok (m, vt)
    ∧ first_seen_ids vg (map fst (zip_ grps docs)).
Proof.
  intros Hnd. pose proof (group_count_terms_open_ok zip_ self docs grps) as Hok.
  destruct (GroupVectorizer._count_terms zip_ self docs grps false false)
    as [[[m vt] vg]|e] eqn:Hc; [|done].
  exists m, vt, vg. split; [done|].
  apply group_count_terms_closed in Hc as (-> & Hvt & Hvg).
  destruct (merged_docs_distinct vg _ Hvg Hnd) as [Hmerged Hknown].
  rewrite Hknown in Hvt. rewrite Hmerged. split; [|done].
  destruct (count_terms_open (GroupVectorizer.vectorizer self)
              (map snd (zip_ grps docs))) as (m2 & v2 & Hc2 & Hfs & _).
  rewrite Hc2. pose proof (count_terms_open_closed _ _ _ _ Hc2) as ->.
  by rewrite (first_seen_ids_unique _ _ _ Hfs Hvt).
Qed.

(** When no two documents share a group, a [GroupVectorizer] with open
    vocabularies is a [Vectorizer]: [fit_transform] returns (or raises) what
    [Vectorizer.fit_transform] of the base instance does on the documents
    alone and leaves the base instance in the same state; row [i] belongs to
    the group of document [i]. *)
Theorem group_of_distinct_groups_is_vectorizer (self : GroupVectorizer.t)
  (docs : list (list string)) (grps : list string) :
  NoDup (map fst (zip_ grps docs)) →
  _fixed_terms (GroupVectorizer.vectorizer self) = false →
  GroupVectorizer._fixed_grps self = false →
  (GroupVectorizer.fit_transform zip_ argsort argsort_float self docs grps).2
  = (fit_transform argsort argsort_float (GroupVectorizer.vectorizer self)
       (map snd (zip_ grps docs))).2
  ∧ GroupVectorizer.vectorizer
      (GroupVectorizer.fit_transform zip_ argsort argsort_float self docs grps).1
    = (fit_transform argsort argsort_float (GroupVectorizer.vectorizer self)
         (map snd (zip_ grps docs))).1
  ∧ ∃ vg,
      GroupVectorizer.vocabulary_grps
        (GroupVectorizer.fit_transform zip_ argsort argsort_float self docs grps).1
      = Some vg
      ∧ size vg = length (zip_ grps docs)
      ∧ ∀ (i : nat) p, zip_ grps docs !! i = Some p →
                       vg !! p.1 = Some (Z.of_nat i).
Proof.
  intros Hnd Hft Hfg.
  destruct (group_count_terms_distinct self docs grps Hnd)
    as (m & vt & vg & Hc & Hc2 & Hvg).
  unfold GroupVectorizer.fit_transform, fit_transform.
  rewrite Hft, Hfg, Hc, Hc2. cbn [GroupVectorizer.vectorizer].
  destruct (first_seen_ids_NoDup _ _ Hvg Hnd) as [Hsize Hids].
  rewrite length_map in Hsize.
  assert (∀ (i : nat) p, zip_ grps docs !! i = Some p →
                         vg !! p.1 = Some (Z.of_nat i)) as Hrows.
  { intros i p Hp. apply Hids. change (map fst ?l) with (fst <$> l).
    by rewrite list_lookup_fmap, Hp. }
  destruct (_filter_terms argsort argsort_float _ m vt) as [[m' vt']|e];
    cbn [fst snd GroupVectorizer.vectorizer GroupVectorizer.vocabulary_grps];
    (split; [done|]); (split; [done|]); by exists vg.
Qed.

End DistinctGroups.

Lemma group_of_distinct_groups_is_vectorizer_witness :
  (GroupVectorizer.fit_transform zip stable_argsort stable_argsort_float
     default_group_vectorizer [["a"; "b"]; ["b"]]%string ["g"; "h"]%string).2
  = (fit_transform stable_argsort stable_argsort_float default_vectorizer
       [["a"; "b"]; ["b"]]%string).2.
Proof.
  destruct (group_of_distinct_groups_is_vectorizer zip stable_argsort
              stable_argsort_float default_group_vectorizer
              [["a"; "b"]; ["b"]]%string ["g"; "h"]%string) as (H & _).
  - decide_by_evaluation.
  - reflexivity.
  - reflexivity.
  - exact H.
Defined.


(** * The group vocabulary seen from outside *)

(** On an instance with a non-empty term vocabulary and a group vocabulary
    that numbers its groups [0 .. n-1], [grps_list] lists the [n] groups in
    row order and [id_to_grp] is the inverse of the vocabulary:
    [grps_list[i]] and [id_to_grp[i]] are the group of id [i]. A read of
    [id_to_grp] leaves both vocabularies alone, and the next read returns
    the same mapping. *)
Theorem group_rows_are_named (self : GroupVectorizer.t) (vt vg : gmap string Z) :
  vocabulary_terms (GroupVectorizer.vectorizer self) = Some vt →
  size vt ≠ 0%nat →
  GroupVectorizer.vocabulary_grps self = Some vg →
  vocabulary_of_width (size vg) vg →
  ∃ l m,
    GroupVectorizer.grps_list self = Ok l
    ∧ (GroupVectorizer.id_to_grp self).2 = Ok m
    ∧ length l = size vg ∧ size m = size vg
    ∧ (∀ (i : nat) g, l !! i = Some g ↔ vg !! g = Some (Z.of_nat i))
    ∧ (∀ i g, m !! i = Some g ↔ vg !! g = Some i)
    ∧ GroupVectorizer.vocabulary_grps (GroupVectorizer.id_to_grp self).1 = Some vg
    ∧ GroupVectorizer.vectorizer (GroupVectorizer.id_to_grp self).1
      = GroupVectorizer.vectorizer self
    ∧ (GroupVectorizer.id_to_grp (GroupVectorizer.id_to_grp self).1).2 = Ok m.
Proof.
  intros Hvt Hne Hvg Hw. exists (items_by_id vg).*1, (invert_vocabulary vg).
  unfold GroupVectorizer.grps_list, GroupVectorizer.id_to_grp, _check_vocabulary.
  rewrite Hvt, !py_ne_len_vocabulary, Hvg.
  rewrite bool_decide_eq_false_2 by done.
  cbn. rewrite ?py_ne_len_vocabulary. cbn.
  split; [done|]. split; [done|]. split; [|split; [|split; [|split]]].
  - rewrite length_fmap, <- (length_fmap snd (items_by_id vg)),
      (items_by_id_ids _ _ Hw), length_seqZ. lia.
  - apply size_invert_vocabulary, Hw.
  - intros i g. by apply (items_by_id_lookup (size vg)).
  - intros i g. apply invert_vocabulary_lookup, Hw.
  - done.
Qed.

Lemma group_rows_are_named_witness :
  GroupVectorizer.grps_list group_xy_gh = Ok ["g"; "h"]%string.
Proof.
  destruct (group_rows_are_named group_xy_gh
              {["x" := 0; "y" := 1]} {["g" := 0; "h" := 1]})
    as (l & m & Hl & _ & Hlen & _ & Hi & _).
  - reflexivity.
  - vm_compute. discriminate.
  - reflexivity.
  - apply vocabulary_of_width_check; vm_compute; reflexivity.
  - rewrite Hl. f_equal.
    assert (l !! 0%nat = Some "g"%string) as H0 by (apply Hi; reflexivity).
    assert (l !! 1%nat = Some "h"%string) as H1 by (apply Hi; reflexivity).
    assert (length l = 2%nat) as H2 by (rewrite Hlen; reflexivity).
    destruct l as [|a [|b [|c l]]]; try discriminate.
    by injection H0 as ->; injection H1 as ->.
Defined.

(** * The invariant of a group instance *)

Lemma group_init_valid weighting normalize sublinear_tf smooth_idf min_df max_df
  min_ic max_n_terms vocabulary_terms vocabulary_grps self :
  GroupVectorizer.__init__ weighting normalize sublinear_tf smooth_idf min_df
    max_df min_ic max_n_terms vocabulary_terms vocabulary_grps = Ok self →
  group_valid self
  ∧ GroupVectorizer.id_to_grp_ self = ∅
  ∧ (match vocabulary_grps with
     | Some _ => GroupVectorizer._fixed_grps self = true
                 ∧ ∃ v, GroupVectorizer.vocabulary_grps self = Some v
                        ∧ size v ≠ 0%nat
     | None => GroupVectorizer._fixed_grps self = false
               ∧ GroupVectorizer.vocabulary_grps self = None
     end).
Proof.
  unfold GroupVectorizer.__init__.
  destruct (__init__ _ _ _ _ _ _ _ _ _) as [base|e] eqn:Hbase; [|done].
  apply init_valid in Hbase as (Hvalid & _).
  cbn [mbind result_bind].
  destruct vocabulary_grps as [input|].
  - destruct (_validate_vocabulary (Some input)) as [r|e] eqn:Hv; [|done].
    apply validate_vocabulary_valid in Hv as (v & -> & Hw & Hne).
    cbn. intros [= <-]. unfold group_valid. cbn.
    split; [done|]. split; [done|]. split; [done|]. by exists v.
  - cbn. intros [= <-]. unfold group_valid. by cbn.
Qed.

Section GroupInvariant.
Variable zip_ : list string → list (list string) → list (string * list string).
Variable argsort : list Z → list nat.
Variable argsort_float : list R → list nat.

Lemma group_fit_transform_valid (self : GroupVectorizer.t)
  (docs : list (list string)) (grps : list string) :
  group_valid self →
  group_valid
    (GroupVectorizer.fit_transform zip_ argsort argsort_float self docs grps).1.
Proof.
  intros [Hvt Hvg]. unfold GroupVectorizer.fit_transform.
  destruct (GroupVectorizer._count_terms zip_ self docs grps _ _)
    as [[[m vt] vg]|e] eqn:Hc; [|done].
  apply group_count_terms_closed in Hc as (-> & Hct & Hcg).
  assert (vocabulary_of_width (size vt) vt) as Hwt.
  { destruct (_fixed_terms _).
    - unfold vocabulary_valid in Hvt. by rewrite Hct in Hvt.
    - by eapply first_seen_ids_width. }
  assert (vocabulary_of_width (size vg) vg) as Hwg.
  { destruct (GroupVectorizer._fixed_grps self).
    - by rewrite Hcg in Hvg.
    - by eapply first_seen_ids_width. }
  cbn [GroupVectorizer.vectorizer].
  destruct (_filter_terms argsort argsort_float _ _ vt) as [[m' vt']|e] eqn:Hf.
  - apply filter_terms_count_matrix in Hf as (_ & Hv' & _); [|done].
    by split.
  - by split.
Qed.

(** Both vocabularies of a group instance always number their entries
    [0 .. n-1], each id once: [__init__] accepts no other vocabulary (and no
    empty one), and [fit_transform], [fit] and a read of [id_to_grp] keep
    them so, also when the call raises half way. [__init__] leaves the group
    cache empty and the groups fixed exactly when it was given a group
    vocabulary. *)
Theorem group_vocabularies_stay_valid :
  (∀ weighting normalize sublinear_tf smooth_idf min_df max_df min_ic
     max_n_terms vocabulary_terms vocabulary_grps self,
     GroupVectorizer.__init__ weighting normalize sublinear_tf smooth_idf
       min_df max_df min_ic max_n_terms vocabulary_terms vocabulary_grps
     = Ok self →
     group_valid self
     ∧ GroupVectorizer.id_to_grp_ self = ∅
     ∧ (match vocabulary_grps with
        | Some _ => GroupVectorizer._fixed_grps self = true
                    ∧ ∃ v, GroupVectorizer.vocabulary_grps self = Some v
                           ∧ size v ≠ 0%nat
        | None => GroupVectorizer._fixed_grps self = false
                  ∧ GroupVectorizer.vocabulary_grps self = None
        end))
  ∧ (∀ self docs grps,
       group_valid self →
       group_valid
         (GroupVectorizer.fit_transform zip_ argsort argsort_float self docs
            grps).1
       ∧ group_valid
           (GroupVectorizer.fit zip_ argsort argsort_float self docs grps).1)
  ∧ (∀ self, group_valid self → group_valid (GroupVectorizer.id_to_grp self).1).
Proof.
  split; [|split].
  - intros w n s i mi ma ic k vt vg self H.
    exact (group_init_valid w n s i mi ma ic k vt vg self H).
  - intros self docs grps Hvalid.
    pose proof (group_fit_transform_valid self docs grps Hvalid) as H.
    split; [done|]. unfold GroupVectorizer.fit.
    by destruct (GroupVectorizer.fit_transform zip_ argsort argsort_float self
                   docs grps).
  - intros self [Hvt Hvg]. unfold GroupVectorizer.id_to_grp.
    rewrite py_ne_len_vocabulary.
    destruct (GroupVectorizer.vocabulary_grps self) as [v|] eqn:Hv;
      unfold group_valid; cbn; rewrite ?Hv; done.
Qed.

(** When [GroupVectorizer.fit_transform] on an instance with well-numbered
    vocabularies returns a matrix and leaves a term vocabulary that is not
    empty, [transform] on the same documents and groups returns that same
    matrix: whatever was open or fixed, whatever the filters dropped, and
    under every weighting. *)
Theorem group_transform_after_fit_transform (self self' : GroupVectorizer.t)
  (docs : list (list string)) (grps : list string) (r : matrix) :
  group_valid self →
  GroupVectorizer.fit_transform zip_ argsort argsort_float self docs grps
  = (self', Ok r) →
  (∀ vt', vocabulary_terms (GroupVectorizer.vectorizer self') = Some vt' →
          size vt' ≠ 0%nat) →
  GroupVectorizer.transform zip_ self' docs grps = Ok r.
Proof.
  intros [Hvt Hvg] Hfit Hne. unfold GroupVectorizer.fit_transform in Hfit.
  destruct (GroupVectorizer._count_terms zip_ self docs grps _ _)
    as [[[m vt] vg]|e] eqn:Hc; [|by injection Hfit].
  apply group_count_terms_closed in Hc as (-> & Hct & Hcg).
  assert (vocabulary_of_width (size vt) vt) as Hwt.
  { destruct (_fixed_terms _).
    - unfold vocabulary_valid in Hvt. by rewrite Hct in Hvt.
    - by eapply first_seen_ids_width. }
  assert (vocabulary_of_width (size vg) vg) as Hwg.
  { destruct (GroupVectorizer._fixed_grps self).
    - by rewrite Hcg in Hvg.
    - by eapply first_seen_ids_width. }
  cbn [GroupVectorizer.vectorizer] in Hfit.
  destruct (_filter_terms argsort argsort_float _ _ vt) as [[m' vt']|e] eqn:Hf;
    [|by injection Hfit].
  apply filter_terms_count_matrix in Hf as (-> & Hwt' & _); [|done].
  injection Hfit as <- <-.
  set (base := set_vocabulary_terms
                 (set_vocabulary_terms (GroupVectorizer.vectorizer self) (Some vt))
                 (Some vt')) in *.
  cbn [GroupVectorizer.vectorizer] in Hne.
  unfold GroupVectorizer.transform, _check_vocabulary.
  cbn [GroupVectorizer.vectorizer].
  change (vocabulary_terms base) with (Some vt'). cbv beta iota.
  rewrite bool_decide_eq_false_2 by (by apply Hne). cbn [mbind result_bind].
  rewrite (group_count_terms_fixed zip_ _ docs grps vt' vg);
    [done|done|done|apply Hwt'|apply Hwg].
Qed.

End GroupInvariant.

Lemma group_transform_after_fit_transform_witness :
  let fitted :=
    GroupVectorizer.fit_transform zip stable_argsort stable_argsort_float
      default_group_vectorizer [["a"; "b"]; ["b"]; ["c"; "a"]]%string
      ["g"; "h"; "g"]%string in
  GroupVectorizer.transform zip fitted.1 [["a"; "b"]; ["b"]; ["c"; "a"]]%string
    ["g"; "h"; "g"]%string
  = fitted.2
  ∧ is_ok fitted.2 = true.
Proof.
  cbv zeta.
  destruct (GroupVectorizer.fit_transform zip stable_argsort
              stable_argsort_float default_group_vectorizer
              [["a"; "b"]; ["b"]; ["c"; "a"]]%string ["g"; "h"; "g"]%string)
    as [self' [r|e]] eqn:Hfit.
  - split; [|reflexivity].
    apply (group_transform_after_fit_transform zip stable_argsort
             stable_argsort_float default_group_vectorizer self' _ _ r).
    + split; exact I.
    + exact Hfit.
    + intros vt' Hvt'.
      assert (self' = (GroupVectorizer.fit_transform zip stable_argsort
              stable_argsort_float default_group_vectorizer
              [["a"; "b"]; ["b"]; ["c"; "a"]]%string ["g"; "h"; "g"]%string).1)
        as -> by (by rewrite Hfit).
      vm_compute in Hvt'. injection Hvt' as <-. vm_compute. discriminate.
  - exfalso. vm_compute in Hfit. discriminate.
Defined.

